(** * Accumulate-release gradualism lab: the integrator and its analysis

    A shallow embedding of [arg_lab/scenarios.py], [arg_lab/simulate.py] and
    [arg_lab/analysis.py], and the properties of the integrator, the ensemble
    driver, the cycle summarizer and the viability margin calculator.

    Number model.  The program computes on IEEE doubles.  Here a double that
    holds a number is an exact rational ([Q]) and the arithmetic of a run is
    exact: overflow and infinities are not modelled, and scenario inputs
    are numbers.  The not-a-number value appears where the program itself
    writes [np.nan] (the summarizer's [duration] and [mean_slope], the
    margin calculator's [relative_margin]); those fields have the type
    [float].  Rationals are
    compared with [==] ([Qeq]) wherever a value is the result of arithmetic
    that the statement re-expresses, and with [=] where the program copies
    or computes exactly the term written.

    The time grid is where the specification speaks of the arithmetic
    itself.  Its two lines are therefore also defined with the rounding as
    a parameter ([time_grid]): [exact] gives the grid of the runs above,
    [binary64] the doubles of the program (round to nearest, ties to even,
    with gradual underflow).

    Exceptions are values: a computation that can raise returns a [result].
    Arrays are lists updated by index, with Python's bounds check written
    out.  The numpy generator is an interface ([Generator]): the development
    holds for every implementation of it. *)

From Stdlib Require Import QArith Qround Qabs Qpower Lqa ZArith Lia.
From stdpp Require Import gmap strings list sorting pretty.

#[local] Open Scope Q_scope.

(** ** Exceptions and the error monad *)

(** The exception classes the modelled code can raise, by Python name. *)
Inductive exn : Type :=
  | ValueError
  | AssertionError
  | IndexError
  | ZeroDivisionError.

Inductive result (A : Type) : Type :=
  | Ok (a : A)
  | Raise (e : exn).
Arguments Ok {A} a.
Arguments Raise {A} e.

#[global] Instance result_ret : MRet result := fun _ a => Ok a.
#[global] Instance result_bind : MBind result := fun _ _ k m =>
  match m with
  | Ok a => k a
  | Raise e => Raise e
  end.
#[global] Instance result_fmap : FMap result := fun _ _ f m =>
  match m with
  | Ok a => Ok (f a)
  | Raise e => Raise e
  end.

(** ** Numbers *)

(** [a < b] as a boolean; Python's [>] with the operands swapped. *)
Definition Qltb (a b : Q) : bool := negb (Qle_bool b a).

(** Python's built-in [max(a, b)]: the first argument is kept unless the
    second is strictly greater. *)
Definition py_max (a b : Q) : Q := if Qltb a b then b else a.

(** A double that may be [np.nan]. *)
Inductive float : Type :=
  | num (q : Q)
  | nan.

Definition isnan (f : float) : bool :=
  match f with num _ => false | nan => true end.

(** Truth value of a double in a condition: zero is false, everything else,
    [nan] included, is true. *)
Definition truthy (f : float) : bool :=
  match f with num q => negb (Qeq_bool q 0) | nan => true end.

(** [a / d] for a divisor that may be [nan]. *)
Definition float_div (a : Q) (d : float) : float :=
  match d with num q => num (a / q) | nan => nan end.

(** ** Arrays *)

(** [np.zeros(n)] *)
Definition zeros {A : Type} (zero : A) (n : nat) : list A := replicate n zero.

(** [a[i] = v] for [0 <= i]: out of range raises. *)
Definition setitem {A : Type} (a : list A) (i : nat) (v : A) : result (list A) :=
  if (i <? length a)%nat then Ok (<[i := v]> a) else Raise IndexError.

(** [a[i]] for [0 <= i], and [.iloc[i]] on a column. *)
Definition getitem {A : Type} (a : list A) (i : nat) : result A :=
  match a !! i with
  | Some v => Ok v
  | None => Raise IndexError
  end.

(** [a[-k]] for [k >= 1]: counted from the end. *)
Definition getitem_neg {A : Type} (a : list A) (k : nat) : result A :=
  if (k <=? length a)%nat then getitem a (length a - k) else Raise IndexError.

Definition setitem_neg {A : Type} (a : list A) (k : nat) (v : A) : result (list A) :=
  if (k <=? length a)%nat then setitem a (length a - k) v else Raise IndexError.

(** ** scenarios.py: the data model *)

Record ThresholdSpec : Type := {
  theta : Q;
  reset : Q;
  delta_s : Q
}.

(** One entry of [DriverSpec.segments]: the dict [{"end": .., "rate": ..}]. *)
Record Segment : Type := {
  seg_end : Q;
  seg_rate : Q
}.

Record DriverSpec : Type := {
  type : string;
  rate : option Q;
  leak : option Q;
  segments : option (list Segment);
  noise_std : Q
}.

Record Scenario : Type := {
  id : string;
  label : string;
  description : string;
  dt : Q;
  duration : Q;
  initial_state : Q;
  driver : DriverSpec;
  thresholds : list ThresholdSpec
}.

(** ** simulate.py *)

Record Event : Type := {
  time : Q;
  ev_theta : Q;
  ev_reset : Q;
  ev_delta_s : Q;
  state_before : Q;
  state_after : Q
}.

(** The loop of [_piecewise_rate]: the rate of the first segment with
    [time <= end], if there is one. *)
Fixpoint first_segment_rate (segs : list Segment) (t : Q) : option Q :=
  match segs with
  | [] => None
  | s :: rest => if Qle_bool t (seg_end s) then Some (seg_rate s)
                 else first_segment_rate rest t
  end.

Definition _piecewise_rate (d : DriverSpec) (t : Q) : result Q :=
  match segments d with
  | None => Raise AssertionError
  | Some segs =>
      match first_segment_rate segs t with
      | Some r => Ok r
      | None => s ← getitem_neg segs 1; Ok (seg_rate s)
      end
  end.

Definition _driver_derivative (d : DriverSpec) (t state : Q) : result Q :=
  if String.eqb (type d) "leaky" then
    match rate d, leak d with
    | Some r, Some k => Ok (r - k * state)
    | _, _ => Raise ValueError
    end
  else if String.eqb (type d) "linear" then
    match rate d with
    | Some r => Ok r
    | None => Raise ValueError
    end
  else if String.eqb (type d) "piecewise" then _piecewise_rate d t
  else Raise ValueError.

(** *** The numpy generator *)

(** What the code uses of [numpy.random.Generator].  [default_rng(seed)]
    takes [None] or a non-negative integer; for [None] numpy seeds from the
    operating system, and the interface stands for one such state (nothing
    below depends on which).  [standard_normal] yields one variate and the
    advanced state; [integers g low high] one integer of [[low, high)]. *)
Class Generator : Type := {
  rng_state : Type;
  default_rng : option N -> rng_state;
  standard_normal : rng_state -> Q * rng_state;
  integers : rng_state -> Z -> Z -> N * rng_state
}.

(** [rng.normal(scale=s)] with the default [loc = 0.0]: numpy refuses a
    negative scale and otherwise returns [loc + scale * z] for a standard
    normal [z]. *)
Definition normal `{Generator} (g : rng_state) (scale : Q) : result (Q * rng_state) :=
  if Qltb scale 0 then Raise ValueError
  else let '(z, g') := standard_normal g in Ok (0 + scale * z, g').

(** *** Arrays of numpy *)

(** [np.zeros(n)]: a negative dimension is refused. *)
Definition np_zeros {A : Type} (zero : A) (n : Z) : result (list A) :=
  if (n <? 0)%Z then Raise ValueError else Ok (zeros zero (Z.to_nat n)).

(** [np.linspace(start, stop, num)] with [endpoint=True]: [num] samples,
    [start + i * step] with [step = (stop - start) / (num - 1)], the last one
    overwritten by [stop]. *)
Definition linspace (start stop : Q) (num : Z) : result (list Q) :=
  if (num <? 0)%Z then Raise ValueError
  else
    let div := (num - 1)%Z in
    let delta := stop - start in
    let y := map (fun i : nat => inject_Z (Z.of_nat i)) (seq 0 (Z.to_nat num)) in
    let y :=
      if (0 <? div)%Z then
        let step := delta / inject_Z div in
        if Qeq_bool step 0 then map (fun v => v / inject_Z div * delta) y
        else map (fun v => v * step) y
      else map (fun v => v * delta) y in
    let y := map (fun v => v + start) y in
    if (1 <? num)%Z then setitem_neg y 1 stop else Ok y.

(** *** Sorting the thresholds *)

(** [sorted(thresholds, key=lambda th: th.theta)]: Python's sort is stable
    and compares keys with [<] only.  A stable insertion sort returns the
    same list. *)
Fixpoint insert_by_theta (th : ThresholdSpec) (l : list ThresholdSpec) : list ThresholdSpec :=
  match l with
  | [] => [th]
  | y :: rest => if Qltb (theta y) (theta th) then y :: insert_by_theta th rest
                 else th :: y :: rest
  end.

Definition sorted_by_theta (l : list ThresholdSpec) : list ThresholdSpec :=
  foldr insert_by_theta [] l.

(** *** The sample table *)

(** The [pd.DataFrame] of a trajectory, one list per column.  The column
    [member] exists once the ensemble driver has tagged the frame. *)
Record Frame : Type := {
  col_time : list Q;
  col_accumulator : list Q;
  col_order_parameter : list Q;
  col_driver : list Q;
  col_release : list Z;
  col_member : option (list Z)
}.

(** [frame["member"] = index]: the scalar is broadcast to every row. *)
Definition set_member (f : Frame) (index : Z) : Frame :=
  {| col_time := col_time f;
     col_accumulator := col_accumulator f;
     col_order_parameter := col_order_parameter f;
     col_driver := col_driver f;
     col_release := col_release f;
     col_member := Some (replicate (length (col_time f)) index) |}.

(** *** The integrator *)

(** The arrays and the event list that the loop of [simulate_cycle] updates. *)
Record Arrays : Type := {
  x : list Q;
  order : list Q;
  releases : list Z;
  driver_values : list Q;
  events : list Event
}.

(** The thresholds with [state_next >= threshold.theta], in the order of
    the sorted list. *)
Definition crossed_thresholds (ths : list ThresholdSpec) (state_next : Q) : list ThresholdSpec :=
  List.filter (fun th => Qle_bool (theta th) state_next) ths.

Section Integrator.
Context `{G : Generator}.

(** The derivative of one step, with the noise term when [noise_std > 0]. *)
Definition noisy_derivative (d : DriverSpec) (t_prev state : Q) (g : rng_state)
  : result (Q * rng_state) :=
  derivative ← _driver_derivative d t_prev state;
  if Qltb 0 (noise_std d) then
    '(n, g') ← normal g (noise_std d);
    Ok (derivative + n, g')
  else Ok (derivative, g).

(** The body of [for idx in range(1, steps)]. *)
Definition step (sc : Scenario) (times : list Q) (ths : list ThresholdSpec)
    (idx : nat) (st : Arrays * rng_state) : result (Arrays * rng_state) :=
  let '(a, g) := st in
  t_prev ← getitem times (idx - 1);
  state ← getitem (x a) (idx - 1);
  '(derivative, g) ← noisy_derivative (driver sc) t_prev state g;
  dv ← setitem (driver_values a) (idx - 1) derivative;
  let state_next := state + derivative * dt sc in
  let crossed := crossed_thresholds ths state_next in
  order_prev ← getitem (order a) (idx - 1);
  match last crossed with
  | Some selected =>
      (* [if crossed:] with [selected = crossed[-1]] *)
      t ← getitem times idx;
      let event := {| time := t;
                      ev_theta := theta selected;
                      ev_reset := reset selected;
                      ev_delta_s := delta_s selected;
                      state_before := state_next;
                      state_after := reset selected |} in
      let state_next := reset selected in
      ord ← setitem (order a) idx (order_prev + delta_s selected);
      rel ← setitem (releases a) idx 1%Z;
      xs ← setitem (x a) idx (py_max state_next 0);
      Ok ({| x := xs; order := ord; releases := rel; driver_values := dv;
             events := events a ++ [event] |}, g)
  | None =>
      ord ← setitem (order a) idx order_prev;
      xs ← setitem (x a) idx (py_max state_next 0);
      Ok ({| x := xs; order := ord; releases := releases a; driver_values := dv;
             events := events a |}, g)
  end.

(** A [for] loop over the given indices. *)
Fixpoint for_each (body : nat -> Arrays * rng_state -> result (Arrays * rng_state))
    (idxs : list nat) (st : Arrays * rng_state) : result (Arrays * rng_state) :=
  match idxs with
  | [] => Ok st
  | idx :: rest => st' ← body idx st; for_each body rest st'
  end.

(** [steps = int(np.ceil(duration / dt)) + 1]; dividing by a zero [dt]
    raises. *)
Definition step_count (sc : Scenario) : result Z :=
  if Qeq_bool (dt sc) 0 then Raise ZeroDivisionError
  else Ok (Qceiling (duration sc / dt sc) + 1)%Z.

Definition simulate_cycle (sc : Scenario) (seed : option N) : result (Frame * list Event) :=
  let rng := default_rng seed in
  steps ← step_count sc;
  times ← linspace 0 (duration sc) steps;
  x0 ← np_zeros 0 steps;
  order0 ← np_zeros 0 steps;
  releases0 ← np_zeros 0%Z steps;
  driver_values0 ← np_zeros 0 steps;
  x0 ← setitem x0 0 (initial_state sc);
  order0 ← setitem order0 0 0;
  let thresholds := sorted_by_theta (thresholds sc) in
  '(a, _) ← for_each (step sc times thresholds) (seq 1 (Z.to_nat steps - 1))
              ({| x := x0; order := order0; releases := releases0;
                  driver_values := driver_values0; events := [] |}, rng);
  fill ← (if (1 <? steps)%Z then getitem_neg (driver_values a) 2 else Ok 0);
  dv ← setitem_neg (driver_values a) 1 fill;
  Ok ({| col_time := times;
         col_accumulator := x a;
         col_order_parameter := order a;
         col_driver := dv;
         col_release := releases a;
         col_member := None |}, events a).

End Integrator.

(** *** The ensemble driver *)

(** [jitter.get(key, 0.0)] *)
Definition jitter_get (jitter : gmap string Q) (key : string) : Q :=
  default 0 (jitter !! key).

Section Ensemble.
Context `{G : Generator}.

(** The loop over [scenario.thresholds]: [theta] and [reset] are drawn
    anew for every threshold, [delta_s] is copied. *)
Fixpoint perturb_thresholds (jitter : gmap string Q) (ths : list ThresholdSpec)
    (g : rng_state) : result (list ThresholdSpec * rng_state) :=
  match ths with
  | [] => Ok ([], g)
  | th :: rest =>
      '(n, g) ← normal g (jitter_get jitter "theta");
      let theta' := theta th * (1 + n) in
      '(n, g) ← normal g (jitter_get jitter "reset");
      let reset' := reset th * (1 + n) in
      '(rest', g) ← perturb_thresholds jitter rest g;
      Ok ({| theta := theta'; reset := reset'; delta_s := delta_s th |} :: rest', g)
  end.

(** The scenario that member [index] integrates. *)
Definition perturb (sc : Scenario) (jitter : gmap string Q) (index : nat)
    (g : rng_state) : result (Scenario * rng_state) :=
  '(n, g) ← normal g (jitter_get jitter "rate");
  let rate_scale := 1 + n in
  '(n, g) ← normal g (jitter_get jitter "leak");
  let leak_scale := 1 + n in
  '(ths, g) ← perturb_thresholds jitter (thresholds sc) g;
  let d := driver sc in
  let driver_copy :=
    {| type := type d;
       rate := (fun r => r * rate_scale) <$> rate d;
       leak := (fun k => k * leak_scale) <$> leak d;
       segments := segments d;
       noise_std := noise_std d |} in
  Ok ({| id := id sc +:+ "_member" +:+ pretty index;
         label := label sc;
         description := description sc;
         dt := dt sc;
         duration := duration sc;
         initial_state := initial_state sc;
         driver := driver_copy;
         thresholds := ths |}, g).

(** The body of [for index in range(size)]: the tagged frame of one
    member. *)
Definition member (sc : Scenario) (jitter : gmap string Q) (index : nat)
    (g : rng_state) : result (Frame * rng_state) :=
  '(perturbed, g) ← perturb sc jitter index g;
  let '(s, g) := integers g 0 (2 ^ 32 - 1) in
  '(frame, _) ← simulate_cycle perturbed (Some s);
  Ok (set_member frame (Z.of_nat index), g).

Fixpoint members (sc : Scenario) (jitter : gmap string Q) (idxs : list nat)
    (results : list Frame) (g : rng_state) : result (list Frame) :=
  match idxs with
  | [] => Ok results
  | index :: rest =>
      '(frame, g) ← member sc jitter index g;
      members sc jitter rest (results ++ [frame]) g
  end.

(** [jitter or {}] is the empty dict when [jitter] is [None];
    [range(size)] is empty for a negative [size]. *)
Definition simulate_ensemble (sc : Scenario) (size : Z)
    (jitter : option (gmap string Q)) (seed : option N) : result (list Frame) :=
  let rng := default_rng seed in
  let jitter := default ∅ jitter in
  members sc jitter (seq 0 (Z.to_nat size)) [] rng.

End Ensemble.

(** ** analysis.py *)

Record CycleSummary : Type := {
  start_time : Q;
  end_time : Q;
  cs_duration : float;
  ramp_amplitude : Q;
  mean_slope : float;
  release_gain : Q;
  cs_theta : Q;
  reset_level : Q
}.

(** The [duration] of a cycle: not-a-number when the difference is not
    positive. *)
Definition cycle_duration (event_time last_time : Q) : float :=
  let d := event_time - last_time in
  if Qle_bool d 0 then nan else num d.

(** [amplitude / duration if duration and not np.isnan(duration) else np.nan] *)
Definition cycle_mean_slope (amplitude : Q) (d : float) : float :=
  if truthy d && negb (isnan d) then float_div amplitude d else nan.

(** The loop [for event in events] with its three running variables. *)
Fixpoint summarize_loop (evs : list Event) (last_time last_state last_order : Q)
    : list CycleSummary :=
  match evs with
  | [] => []
  | event :: rest =>
      let d := cycle_duration (time event) last_time in
      let amplitude := state_before event - last_state in
      {| start_time := last_time;
         end_time := time event;
         cs_duration := d;
         ramp_amplitude := amplitude;
         mean_slope := cycle_mean_slope amplitude d;
         release_gain := ev_delta_s event;
         cs_theta := ev_theta event;
         reset_level := ev_reset event |}
      :: summarize_loop rest (time event) (ev_reset event) (last_order + ev_delta_s event)
  end.

(** The result table, one [CycleSummary] per row; the table with the column
    names alone is the empty list. *)
Definition summarize_cycles (frame : Frame) (evs : list Event) (initial_state : Q)
    : result (list CycleSummary) :=
  match evs with
  | [] => Ok []
  | _ :: _ =>
      last_time ← getitem (col_time frame) 0;
      Ok (summarize_loop evs last_time initial_state 0)
  end.

(** Python's [max] of an iterable: the first maximal element; an empty
    iterable raises [ValueError]. *)
Definition py_max_of (l : list Q) : result Q :=
  match l with
  | [] => Raise ValueError
  | v :: rest => Ok (fold_left py_max rest v)
  end.

(** The dict that [compute_viability_margin] returns. *)
Record Margin : Type := {
  current_state : Q;
  top_threshold : Q;
  margin : Q;
  relative_margin : float
}.

Definition compute_viability_margin (frame : Frame) (ths : list ThresholdSpec)
    : result Margin :=
  top ← py_max_of (map theta ths);
  cur ← getitem_neg (col_accumulator frame) 1;
  let m := top - cur in
  let relative := if negb (Qeq_bool top 0) then num (m / top) else nan in
  Ok {| current_state := cur;
        top_threshold := top;
        margin := m;
        relative_margin := relative |}.

(** * Specification vocabulary *)

(** The order that [sorted] establishes on the thresholds. *)
Definition theta_le (a b : ThresholdSpec) : Prop := theta a <= theta b.

(** The number of rows flagged as a release. *)
Definition release_count (rels : list Z) : nat :=
  length (List.filter (Z.eqb 1) rels).

(** What the loop establishes at row [i >= 1], read off the columns: the
    derivative in the driver column is the one the drive evaluator (with its
    noise) returned for row [i - 1], and the proposed state is the Euler
    step from that row; when a threshold is crossed the row is a release and
    its event sits in the event list at the position given by the number of
    releases before row [i]; otherwise the row drifts. *)
Definition step_post `{G : Generator} (sc : Scenario) (times xs ords dvs : list Q)
    (rels : list Z) (evs : list Event) (i : nat) : Prop :=
  exists t_prev state derivative order_prev : Q,
    times !! (i - 1)%nat = Some t_prev /\
    xs !! (i - 1)%nat = Some state /\
    dvs !! (i - 1)%nat = Some derivative /\
    (exists g g' : rng_state,
        noisy_derivative (driver sc) t_prev state g = Ok (derivative, g')) /\
    ords !! (i - 1)%nat = Some order_prev /\
    let state_next := state + derivative * dt sc in
    match last (crossed_thresholds (sorted_by_theta (thresholds sc)) state_next) with
    | Some sel =>
        exists t : Q,
          times !! i = Some t /\
          xs !! i = Some (py_max (reset sel) 0) /\
          ords !! i = Some (order_prev + delta_s sel) /\
          rels !! i = Some 1%Z /\
          evs !! release_count (take i rels) =
            Some {| time := t;
                    ev_theta := theta sel;
                    ev_reset := reset sel;
                    ev_delta_s := delta_s sel;
                    state_before := state_next;
                    state_after := reset sel |}
    | None =>
        xs !! i = Some (py_max state_next 0) /\
        ords !! i = Some order_prev /\
        rels !! i = Some 0%Z
    end.

(** The invariant of the loop of [simulate_cycle] once the rows [1..k] of
    the [n] rows are written. *)
Definition loop_inv `{G : Generator} (sc : Scenario) (times : list Q) (n k : nat)
    (a : Arrays) : Prop :=
  length (x a) = n /\ length (order a) = n /\
  length (releases a) = n /\ length (driver_values a) = n /\
  x a !! 0%nat = Some (initial_state sc) /\
  order a !! 0%nat = Some 0 /\
  (forall i : nat, (k < i < n)%nat -> releases a !! i = Some 0%Z) /\
  length (events a) = release_count (take (S k) (releases a)) /\
  forall i : nat, (1 <= i <= k)%nat ->
    step_post sc times (x a) (order a) (driver_values a) (releases a) (events a) i.

(** A time column laid out as C3 words it: every interval between
    consecutive samples is [step], except the final one, which is at most
    [step]. *)
Definition dt_spaced (step : Q) (ts : list Q) : Prop :=
  forall (i : nat) (a b : Q),
    ts !! i = Some a -> ts !! S i = Some b ->
    if decide (S (S i) = length ts) then b - a <= step else b - a == step.

(** The driver specifications that [_driver_derivative] refuses by an
    explicit [raise]: a required parameter is missing, or the type is
    none of the three. *)
Inductive rejected_driver (d : DriverSpec) : Prop :=
  | leaky_without_rate : type d = "leaky" -> rate d = None -> rejected_driver d
  | leaky_without_leak : type d = "leaky" -> leak d = None -> rejected_driver d
  | linear_without_rate : type d = "linear" -> rate d = None -> rejected_driver d
  | unsupported_type :
      type d <> "leaky" -> type d <> "linear" -> type d <> "piecewise" ->
      rejected_driver d.

(** C4 as it is worded: one exception class [e] for every invalid input. *)
Definition single_error_kind (e : exn) : Prop :=
  (forall d t state, rejected_driver d -> _driver_derivative d t state = Raise e) /\
  (forall d t state, type d = "piecewise" ->
     segments d = None \/ segments d = Some [] ->
     _driver_derivative d t state = Raise e) /\
  (forall frame, compute_viability_margin frame [] = Raise e).

(** Where cycle [k] starts: at the first sample for the first event, at the
    previous event otherwise. *)
Definition cycle_start (frame : Frame) (evs : list Event) (k : nat) : option Q :=
  match k with
  | O => col_time frame !! 0%nat
  | S j => time <$> evs !! j
  end.

(** A driver that has what its type requires (the data model's conditional
    fields): rate and leak for leaky, rate for linear, at least one segment
    for piecewise. *)
Definition driver_ok (d : DriverSpec) : Prop :=
  (type d = "leaky" /\ is_Some (rate d) /\ is_Some (leak d)) \/
  (type d = "linear" /\ is_Some (rate d)) \/
  (type d = "piecewise" /\ exists s segs, segments d = Some (s :: segs)).

(** What the ensemble driver keeps and what it may change in the scenario
    of member [index]: everything but [id], the driver's [rate] and [leak]
    and the thresholds' [theta] and [reset] is copied, [delta_s] included,
    and a parameter whose jitter key is absent keeps its value. *)
Definition perturbed_copy (jitter : gmap string Q) (sc : Scenario) (index : nat)
    (p : Scenario) : Prop :=
  id p = id sc +:+ "_member" +:+ pretty index /\
  label p = label sc /\ description p = description sc /\
  dt p = dt sc /\ duration p = duration sc /\
  initial_state p = initial_state sc /\
  type (driver p) = type (driver sc) /\
  segments (driver p) = segments (driver sc) /\
  noise_std (driver p) = noise_std (driver sc) /\
  map delta_s (thresholds p) = map delta_s (thresholds sc) /\
  (jitter !! "rate" = None ->
     option_Forall2 Qeq (rate (driver p)) (rate (driver sc))) /\
  (jitter !! "leak" = None ->
     option_Forall2 Qeq (leak (driver p)) (leak (driver sc))) /\
  (jitter !! "theta" = None ->
     Forall2 (fun a b => theta a == theta b) (thresholds p) (thresholds sc)) /\
  (jitter !! "reset" = None ->
     Forall2 (fun a b => reset a == reset b) (thresholds p) (thresholds sc)).

(** What the result list of the ensemble holds for member [index]: the
    table of a run on a perturbed copy, tagged with the index. *)
Definition member_frame `{G : Generator} (sc : Scenario) (jitter : gmap string Q)
    (index : nat) (tagged : Frame) : Prop :=
  exists (p : Scenario) (s : N) (frame : Frame) (evs : list Event),
    (exists g g' : rng_state, perturb sc jitter index g = Ok (p, g')) /\
    perturbed_copy jitter sc index p /\
    simulate_cycle p (Some s) = Ok (frame, evs) /\
    tagged = set_member frame (Z.of_nat index).

(** * Concrete scenarios *)

(** ** A generator to run the model on

    A linear congruential generator that implements [Generator], used to
    evaluate the model on concrete scenarios.  Its "normal" variate is one of
    [-3/2, -1, .., 3/2]. *)
Definition lcg_next (s : N) : N := ((1103515245 * s + 12345) mod 2147483648)%N.

#[global] Instance lcg : Generator := {|
  rng_state := N;
  default_rng := fun seed => default 0%N seed;
  standard_normal := fun s => ((Z.of_N (s mod 7) - 3) # 2, lcg_next s);
  integers := fun s low high =>
    (Z.to_N (low + Z.of_N s mod (high - low)), lcg_next s)
|}.

(** ** Scenarios *)

Definition linear_drive (r : Q) (sigma : Q) : DriverSpec :=
  {| type := "linear"; rate := Some r; leak := None; segments := None;
     noise_std := sigma |}.

(** A noisy ramp with two thresholds, given out of [theta] order. *)
Definition two_level : Scenario :=
  {| id := "two_level"; label := "Two levels"; description := "noisy ramp";
     dt := 1 # 2; duration := 3; initial_state := 1 # 4;
     driver := linear_drive 2 (1 # 10);
     thresholds := [ {| theta := 1; reset := 0; delta_s := 1 |};
                     {| theta := 1 # 2; reset := 1 # 4; delta_s := 2 |} ] |}.

(** A ramp that starts below zero, on a grid whose step does not divide the
    duration. *)
Definition negative_start : Scenario :=
  {| id := "negative_start"; label := "Negative start"; description := "ramp";
     dt := 3 # 10; duration := 1; initial_state := -1;
     driver := linear_drive 1 0;
     thresholds := [ {| theta := 1; reset := 0; delta_s := 1 |} ] |}.

(** A piecewise drive with the given [segments] field. *)
Definition piecewise_drive (segs : option (list Segment)) : DriverSpec :=
  {| type := "piecewise"; rate := None; leak := None; segments := segs;
     noise_std := 0 |}.

(** A linear drive without its rate. *)
Definition linear_without_rate_drive : DriverSpec :=
  {| type := "linear"; rate := None; leak := None; segments := None;
     noise_std := 0 |}.

(** A run of zero duration that rests on a threshold at zero. *)
Definition rest_at_zero : Scenario :=
  {| id := "rest_at_zero"; label := "Rest"; description := "no time passes";
     dt := 1; duration := 0; initial_state := 0;
     driver := linear_drive 1 0;
     thresholds := [ {| theta := 0; reset := 0; delta_s := 1 |} ] |}.

(** A sample table without rows. *)
Definition empty_frame : Frame :=
  {| col_time := []; col_accumulator := []; col_order_parameter := [];
     col_driver := []; col_release := []; col_member := None |}.

(** A table whose last accumulator value is the top threshold of
    [two_level]. *)
Definition at_top_frame : Frame :=
  {| col_time := [0; 1 # 2; 1]; col_accumulator := [0; 17 # 40; 1];
     col_order_parameter := [0; 0; 0]; col_driver := [17 # 20; 23 # 20; 23 # 20];
     col_release := [0; 0; 0]%Z; col_member := None |}.

(** A table of two rows, the second one a release. *)
Definition one_release_frame : Frame :=
  {| col_time := [0; 1]; col_accumulator := [0; 0];
     col_order_parameter := [0; 1]; col_driver := [5 # 4; 5 # 4];
     col_release := [0; 1]%Z; col_member := None |}.

(** The event of that release. *)
Definition first_event : Event :=
  {| time := 1; ev_theta := 1; ev_reset := 0; ev_delta_s := 1;
     state_before := 5 # 4; state_after := 0 |}.

(** A scenario whose linear driver lacks its rate. *)
Definition rateless : Scenario :=
  {| id := "rateless"; label := "No rate"; description := "invalid driver";
     dt := 1 # 2; duration := 1; initial_state := 0;
     driver := linear_without_rate_drive;
     thresholds := [ {| theta := 1; reset := 0; delta_s := 1 |} ] |}.

(** A jitter configuration with the key [rate] only. *)
Definition rate_jitter : gmap string Q := {[ "rate" := 1 # 10 ]}.

(** The columns of a run in lowest terms, for display: time, accumulator,
    order parameter, release flags and the times of the events. *)
Definition columns_of (run : result (Frame * list Event))
    : option (list Q * list Q * list Q * list Z * list Q) :=
  match run with
  | Ok (f, evs) =>
      Some (map Qred (col_time f), map Qred (col_accumulator f),
            map Qred (col_order_parameter f), col_release f,
            map (fun e => Qred (time e)) evs)
  | Raise _ => None
  end.

(** * Further vocabulary *)

(** An event that records a firing of one of the scenario's thresholds: it
    carries that threshold's numbers, the state before the reset had reached
    the threshold, and the state after is the reset value. *)
Definition event_of (sc : Scenario) (ev : Event) : Prop :=
  exists th : ThresholdSpec,
    th ∈ thresholds sc /\
    ev_theta ev = theta th /\ ev_reset ev = reset th /\ ev_delta_s ev = delta_s th /\
    theta th <= state_before ev /\ state_after ev = reset th.

(** The sum of a list of numbers. *)
Definition Qsum (l : list Q) : Q := foldr Qplus 0 l.

(** The events recorded up to and including row [i]: as many as there are
    release flags in the rows [0..i]. *)
Definition events_upto (rels : list Z) (evs : list Event) (i : nat) : list Event :=
  take (release_count (take (S i) rels)) evs.

(** The scenario with another threshold sequence. *)
Definition with_thresholds (sc : Scenario) (ths : list ThresholdSpec) : Scenario :=
  {| id := id sc; label := label sc; description := description sc;
     dt := dt sc; duration := duration sc; initial_state := initial_state sc;
     driver := driver sc; thresholds := ths |}.

(** The scenario with another driver. *)
Definition with_driver (sc : Scenario) (d : DriverSpec) : Scenario :=
  {| id := id sc; label := label sc; description := description sc;
     dt := dt sc; duration := duration sc; initial_state := initial_state sc;
     driver := d; thresholds := thresholds sc |}.

(** A second invariant of the loop, once the rows [1..k] are written: row 0
    is no release, every flag is 0 or 1, every event records a firing, the
    events carry the times of strictly increasing rows, each flagged as a
    release, and the order
    parameter of every row written is the sum of the gains recorded so
    far. *)
Definition loop_inv2 (sc : Scenario) (times : list Q) (k : nat) (a : Arrays) : Prop :=
  releases a !! 0%nat = Some 0%Z /\
  (forall (i : nat) (r : Z), releases a !! i = Some r -> r = 0%Z \/ r = 1%Z) /\
  Forall (event_of sc) (events a) /\
  (exists rows : list nat,
      StronglySorted Nat.lt rows /\
      Forall (fun i => (1 <= i <= k)%nat /\ releases a !! i = Some 1%Z) rows /\
      Forall2 (fun i ev => times !! i = Some (time ev)) rows (events a)) /\
  forall i : nat, (i <= k)%nat ->
    exists o : Q,
      order a !! i = Some o /\
      o == Qsum (map ev_delta_s (events_upto (releases a) (events a) i)).

(** A later event, for summaries of two cycles. *)
Definition second_event : Event :=
  {| time := 5 # 2; ev_theta := 1 # 2; ev_reset := 1 # 4; ev_delta_s := 2;
     state_before := 3 # 4; state_after := 1 # 4 |}.

(** The scenario on another grid. *)
Definition with_grid (sc : Scenario) (step total : Q) : Scenario :=
  {| id := id sc; label := label sc; description := description sc;
     dt := step; duration := total; initial_state := initial_state sc;
     driver := driver sc; thresholds := thresholds sc |}.

(** A drive in two regimes: rate 2 until time 1, rate 1/2 until time 2. *)
Definition two_regimes : list Segment :=
  [ {| seg_end := 1; seg_rate := 2 |}; {| seg_end := 2; seg_rate := 1 # 2 |} ].

(** A leaky integrator that relaxes towards 1, below its threshold at 2. *)
Definition leaky_rest : Scenario :=
  {| id := "leaky_rest"; label := "Leaky"; description := "never fires";
     dt := 1 # 2; duration := 2; initial_state := 0;
     driver := {| type := "leaky"; rate := Some 1; leak := Some 1;
                  segments := None; noise_std := 0 |};
     thresholds := [ {| theta := 2; reset := 0; delta_s := 1 |} ] |}.

(** ** Rounding *)

(** The program computes on doubles: every arithmetic result is rounded to
    the nearest binary64 number.  Where a statement depends on it, the
    rounding is a parameter [fl : Q -> Q] of the definitions: [exact] is
    the arithmetic of the model above, [binary64] that of the program. *)
Definition exact (q : Q) : Q := q.

(** Round to the nearest integer, ties to even. *)
Definition round_half_even (q : Q) : Z :=
  let f := Qfloor q in
  match Qcompare (q - inject_Z f) (1 # 2) with
  | Lt => f
  | Gt => (f + 1)%Z
  | Eq => if Z.even f then f else (f + 1)%Z
  end.

(** [floor (log2 q)] for [q > 0]. *)
Definition Qlog2 (q : Q) : Z :=
  let k := (Z.log2 (Qnum q) - Z.log2 (Z.pos (Qden q)))%Z in
  if Qle_bool (2 ^ k) q then k else (k - 1)%Z.

(** The binary64 number nearest to [a > 0]: a significand of 53 bits, or
    fewer below [2 ^ -1022] (gradual underflow).  The overflow to infinity
    is not modelled. *)
Definition round_magnitude (a : Q) : Q :=
  let e := Z.max (Qlog2 a - 52) (-1074) in
  inject_Z (round_half_even (a / 2 ^ e)) * 2 ^ e.

Definition binary64 (q : Q) : Q :=
  let r := Qred q in
  if Qeq_bool r 0 then 0
  else if Qltb r 0 then - round_magnitude (Qabs r)
  else round_magnitude (Qabs r).

(** What the statements on the time grid use of a rounding: it respects
    equality, keeps zero and the sign, and leaves its own results alone. *)
Definition rounding (fl : Q -> Q) : Prop :=
  (forall a b, a == b -> fl a == fl b) /\
  fl 0 == 0 /\
  (forall q, 0 <= q -> 0 <= fl q) /\
  (forall q, fl (fl q) == fl q).

(** ** simulate.py: the time grid, with its rounding *)

Section Grid.
Variable fl : Q -> Q.

(** [steps = int(np.ceil(duration / dt)) + 1]: the quotient is rounded
    before [np.ceil] sees it. *)
Definition step_count_in (sc : Scenario) : result Z :=
  if Qeq_bool (dt sc) 0 then Raise ZeroDivisionError
  else Ok (Qceiling (fl (duration sc / dt sc)%Q) + 1)%Z.

(** [np.linspace(start, stop, num)], each operation rounded. *)
Definition linspace_in (start stop : Q) (num : Z) : result (list Q) :=
  if (num <? 0)%Z then Raise ValueError
  else
    let div := (num - 1)%Z in
    let delta := fl (stop - start) in
    let y := map (fun i : nat => inject_Z (Z.of_nat i)) (seq 0 (Z.to_nat num)) in
    let y :=
      if (0 <? div)%Z then
        let step := fl (delta / inject_Z div) in
        if Qeq_bool step 0 then map (fun v => fl (fl (v / inject_Z div) * delta)) y
        else map (fun v => fl (v * step)) y
      else map (fun v => fl (v * delta)) y in
    let y := map (fun v => fl (v + start)) y in
    if (1 <? num)%Z then setitem_neg y 1 stop else Ok y.

(** Lines 50 and 51 of [simulate_cycle]: the time column. *)
Definition time_grid (sc : Scenario) : result (list Q) :=
  steps ← step_count_in sc;
  linspace_in 0 (duration sc) steps.

End Grid.

(** A run of one second in steps of a tenth: [dt] is the double nearest
    to 0.1, which is not 1/10. *)
Definition tenth_steps : Scenario :=
  {| id := "tenth_steps"; label := "Tenths"; description := "decimal step";
     dt := 3602879701896397 # 36028797018963968; duration := 1;
     initial_state := 0;
     driver := linear_drive 1 0;
     thresholds := [ {| theta := 2; reset := 0; delta_s := 1 |} ] |}.

(** Three seconds in steps of the double nearest to 0.3, which lies below
    3/10: the exact quotient is above 10. *)
Definition three_tenths : Scenario :=
  {| id := "three_tenths"; label := "Three tenths"; description := "decimal step";
     dt := 5404319552844595 # 18014398509481984; duration := 3;
     initial_state := 0;
     driver := linear_drive 1 0;
     thresholds := [ {| theta := 4; reset := 0; delta_s := 1 |} ] |}.

(** * More of the code *)

(** ** scenarios.py: [Scenario.period_hint] *)

(** The float literal [1e-6]: the double nearest to a millionth. *)
Definition micro : Q := Eval vm_compute in binary64 (1 # 1000000).

(** [a / b] on floats: a divisor of zero raises. *)
Definition py_div (a b : Q) : result Q :=
  if Qeq_bool b 0 then Raise ZeroDivisionError else Ok (a / b).

(** [driver.rate or (driver.segments[-1]["rate"] if driver.segments else
    1.0)]: a rate that is absent or zero is falsy, and so is a segment
    sequence that is absent or empty. *)
Definition total_driver (d : DriverSpec) : Q :=
  let fallback :=
    match segments d with
    | Some segs => match last segs with Some s => seg_rate s | None => 1 end
    | None => 1
    end in
  match rate d with
  | Some r => if Qeq_bool r 0 then fallback else r
  | None => fallback
  end.

Definition period_hint (sc : Scenario) : result Q :=
  let total := total_driver (driver sc) in
  top_threshold ← py_max_of (map theta (thresholds sc));
  quotient ← py_div (top_threshold - initial_state sc) (py_max total micro);
  Ok (py_max quotient micro).

(** ** cli.py *)

(** [_scenario_index]: the dict comprehension [{scenario.id: scenario for
    scenario in scenarios}], as the map of its lookups (a later scenario
    replaces an earlier one with the same id). *)
Definition _scenario_index (scenarios : list Scenario) : gmap string Scenario :=
  foldl (fun index scenario => <[id scenario := scenario]> index) ∅ scenarios.

(** The computation of [main] for the selected scenario, between the
    parsing of the arguments and the printing: the run (without seed), its
    cycle summary and its viability margin. *)
Definition main_analysis `{G : Generator} (scenario : Scenario)
    : result (Frame * list CycleSummary * Margin) :=
  '(frame, events) ← simulate_cycle scenario None;
  cycles ← summarize_cycles frame events (initial_state scenario);
  margin ← compute_viability_margin frame (thresholds scenario);
  Ok (frame, cycles, margin).

(** [render_plot]: the rows of [frame.loc[frame["release"] == 1, "time"]],
    the times at which a vertical line is drawn. *)
Definition marked_times (times : list Q) (rels : list Z) : list Q :=
  map fst (List.filter (fun row => Z.eqb (snd row) 1) (zip times rels)).

Definition release_times (frame : Frame) : list Q :=
  marked_times (col_time frame) (col_release frame).

(** ** Why a run fails *)

(** The exception with which the drive evaluator answers a driver that it
    cannot evaluate. *)
Inductive driver_failure (d : DriverSpec) : exn -> Prop :=
  | refused_driver : rejected_driver d -> driver_failure d ValueError
  | segments_absent :
      type d = "piecewise" -> segments d = None -> driver_failure d AssertionError
  | segments_empty :
      type d = "piecewise" -> segments d = Some [] -> driver_failure d IndexError.

(** The causes of a failing run, with [c = ceil(duration / dt)] one less
    than the number of rows: a zero step size, a negative number of rows,
    no row at all, or a step to integrate with a driver that cannot be
    evaluated. *)
Definition run_failure (sc : Scenario) (e : exn) : Prop :=
  (dt sc == 0 /\ e = ZeroDivisionError) \/
  (~ dt sc == 0 /\
   ((Qceiling (duration sc / dt sc) < -1)%Z /\ e = ValueError \/
    Qceiling (duration sc / dt sc) = (-1)%Z /\ e = IndexError \/
    (1 <= Qceiling (duration sc / dt sc))%Z /\ driver_failure (driver sc) e)).

(** ** scenarios.py: [load_scenarios] *)

(** The document that [json.load] returns for a scenario file, by the keys
    that [load_scenarios] reads: an object is a record of optional fields,
    [None] for a key that is absent.  Every value has the type that the
    loader converts it to, a number where it applies [float] and a string
    where it applies [str], so that both conversions are the identity. *)
Record ThresholdEntry : Type := {
  theta_key : option Q;
  reset_key : option Q;
  delta_s_key : option Q
}.

Record DriverEntry : Type := {
  type_key : option string;
  rate_key : option Q;
  leak_key : option Q;
  segments_key : option (list Segment);
  noise_std_key : option Q
}.

Record ScenarioEntry : Type := {
  driver_key : option DriverEntry;
  thresholds_key : option (list ThresholdEntry);
  id_key : option string;
  label_key : option string;
  description_key : option string;
  dt_key : option Q;
  duration_key : option Q;
  initial_state_key : option Q
}.

Record Payload : Type := {
  scenarios_key : option (list ScenarioEntry)
}.

(** The loader returns, or a subscript raises [KeyError] with the key that
    is absent. *)
Inductive loaded (A : Type) : Type :=
  | Loaded (a : A)
  | KeyError (key : string).

Arguments Loaded {A} a.
Arguments KeyError {A} key.

#[global] Instance loaded_ret : MRet loaded := fun _ a => Loaded a.
#[global] Instance loaded_bind : MBind loaded := fun _ _ k m =>
  match m with
  | Loaded a => k a
  | KeyError key => KeyError key
  end.

(** [d[key]]; [d.get(key, fallback)] is [default fallback] of the field. *)
Definition subscript {A : Type} (key : string) (value : option A) : loaded A :=
  match value with
  | Some a => Loaded a
  | None => KeyError key
  end.

(** The generator [ThresholdSpec(..) for th in entry["thresholds"]]. *)
Fixpoint load_thresholds (entries : list ThresholdEntry) : loaded (list ThresholdSpec) :=
  match entries with
  | [] => Loaded []
  | th :: rest =>
      v_theta ← subscript "theta" (theta_key th);
      v_reset ← subscript "reset" (reset_key th);
      v_delta_s ← subscript "delta_s" (delta_s_key th);
      ths ← load_thresholds rest;
      Loaded ({| theta := v_theta; reset := v_reset; delta_s := v_delta_s |} :: ths)
  end.

(** The body of [for entry in payload.get("scenarios", [])]. *)
Definition load_entry (entry : ScenarioEntry) : loaded Scenario :=
  driver_entry ← subscript "driver" (driver_key entry);
  v_type ← subscript "type" (type_key driver_entry);
  let v_driver :=
    {| type := v_type;
       rate := rate_key driver_entry;
       leak := leak_key driver_entry;
       segments := Some (default [] (segments_key driver_entry));
       noise_std := default 0 (noise_std_key driver_entry) |} in
  threshold_entries ← subscript "thresholds" (thresholds_key entry);
  v_thresholds ← load_thresholds threshold_entries;
  v_id ← subscript "id" (id_key entry);
  v_label ← subscript "label" (label_key entry);
  v_description ← subscript "description" (description_key entry);
  v_dt ← subscript "dt" (dt_key entry);
  v_duration ← subscript "duration" (duration_key entry);
  v_initial_state ← subscript "initial_state" (initial_state_key entry);
  Loaded {| id := v_id; label := v_label; description := v_description;
            dt := v_dt; duration := v_duration; initial_state := v_initial_state;
            driver := v_driver; thresholds := v_thresholds |}.

Fixpoint load_entries (entries : list ScenarioEntry) : loaded (list Scenario) :=
  match entries with
  | [] => Loaded []
  | entry :: rest =>
      scenario ← load_entry entry;
      scenarios ← load_entries rest;
      Loaded (scenario :: scenarios)
  end.

(** [load_scenarios], from the document on. *)
Definition load_scenarios (payload : Payload) : loaded (list Scenario) :=
  load_entries (default [] (scenarios_key payload)).

(** The keys that a threshold object and a scenario object must hold. *)
Definition complete_threshold (th : ThresholdEntry) : Prop :=
  is_Some (theta_key th) /\ is_Some (reset_key th) /\ is_Some (delta_s_key th).

Definition complete_entry (entry : ScenarioEntry) : Prop :=
  (exists d, driver_key entry = Some d /\ is_Some (type_key d)) /\
  (exists ths, thresholds_key entry = Some ths /\ Forall complete_threshold ths) /\
  is_Some (id_key entry) /\ is_Some (label_key entry) /\
  is_Some (description_key entry) /\ is_Some (dt_key entry) /\
  is_Some (duration_key entry) /\ is_Some (initial_state_key entry).

(** A scenario file entry for a piecewise driver that gives no segments. *)
Definition piecewise_entry : ScenarioEntry :=
  {| driver_key := Some {| type_key := Some "piecewise"; rate_key := None;
                           leak_key := None; segments_key := None;
                           noise_std_key := None |};
     thresholds_key := Some [ {| theta_key := Some 1; reset_key := Some 0;
                                 delta_s_key := Some 1 |} ];
     id_key := Some "staircase"; label_key := Some "Staircase";
     description_key := Some "piecewise drive";
     dt_key := Some (1 # 2); duration_key := Some 1;
     initial_state_key := Some 0 |}.

Definition piecewise_payload : Payload :=
  {| scenarios_key := Some [piecewise_entry] |}.

(** What [piecewise_entry] loads as. *)
Definition staircase : Scenario :=
  {| id := "staircase"; label := "Staircase"; description := "piecewise drive";
     dt := 1 # 2; duration := 1; initial_state := 0;
     driver := piecewise_drive (Some []);
     thresholds := [ {| theta := 1; reset := 0; delta_s := 1 |} ] |}.

(** * Properties *)

(** ** Two runs *)

Example negative_start_run :
  columns_of (simulate_cycle negative_start None)
  = Some ([0; 1 # 4; 1 # 2; 3 # 4; 1],
          [-1; 0; 3 # 10; 3 # 5; 9 # 10],
          [0; 0; 0; 0; 0],
          [0; 0; 0; 0; 0]%Z,
          []).
Proof. vm_compute. reflexivity. Qed.

Example two_level_run :
  columns_of (simulate_cycle two_level (Some 42%N))
  = Some ([0; 1 # 2; 1; 3 # 2; 2; 5 # 2; 3],
          [1 # 4; 0; 0; 1 # 4; 0; 1 # 4; 0],
          [0; 1; 2; 4; 5; 7; 8],
          [0; 1; 1; 1; 1; 1; 1]%Z,
          [1 # 2; 1; 3 # 2; 2; 5 # 2; 3]).
Proof. vm_compute. reflexivity. Qed.

(** ** Booleans, maxima and the error monad *)

Lemma Qltb_lt (a b : Q) : Qltb a b = true <-> a < b.
Proof.
  unfold Qltb. rewrite negb_true_iff, <- not_true_iff_false, Qle_bool_iff.
  split; [apply Qnot_le_lt | apply Qlt_not_le].
Qed.

Lemma Qltb_ge (a b : Q) : Qltb a b = false <-> b <= a.
Proof. unfold Qltb. rewrite negb_false_iff. apply Qle_bool_iff. Qed.

Lemma py_max_nonneg (a : Q) : 0 <= py_max a 0.
Proof.
  unfold py_max. destruct (Qltb a 0) eqn:E.
  - apply Qle_refl.
  - now apply Qltb_ge.
Qed.

Lemma py_max_ge_l (a b : Q) : a <= py_max a b.
Proof.
  unfold py_max. destruct (Qltb a b) eqn:E.
  - apply Qltb_lt in E. now apply Qlt_le_weak.
  - apply Qle_refl.
Qed.

Lemma py_max_ge_r (a b : Q) : b <= py_max a b.
Proof.
  unfold py_max. destruct (Qltb a b) eqn:E.
  - apply Qle_refl.
  - now apply Qltb_ge.
Qed.

Lemma py_max_cases (a b : Q) : py_max a b = a \/ py_max a b = b.
Proof. unfold py_max. destruct (Qltb a b); auto. Qed.

Lemma bind_Ok {A B : Type} (m : result A) (k : A -> result B) (b : B) :
  (m ≫= k) = Ok b -> exists a, m = Ok a /\ k a = Ok b.
Proof. destruct m as [a|e]; simpl; [eauto | discriminate]. Qed.

(** ** Arrays *)

Lemma setitem_Ok {A : Type} (a a' : list A) (i : nat) (v : A) :
  setitem a i v = Ok a' -> (i < length a)%nat /\ a' = <[i := v]> a.
Proof.
  unfold setitem. destruct (Nat.ltb_spec i (length a)); [|discriminate].
  intros [= <-]. auto.
Qed.

Lemma setitem_in_range {A : Type} (a : list A) (i : nat) (v : A) :
  (i < length a)%nat -> setitem a i v = Ok (<[i := v]> a).
Proof. intros H. unfold setitem. now destruct (Nat.ltb_spec i (length a)); [|lia]. Qed.

Lemma getitem_Ok {A : Type} (a : list A) (i : nat) (v : A) :
  getitem a i = Ok v <-> a !! i = Some v.
Proof. unfold getitem. destruct (a !! i); split; congruence. Qed.

Lemma getitem_neg_Ok {A : Type} (a : list A) (k : nat) (v : A) :
  getitem_neg a k = Ok v <-> (k <= length a)%nat /\ a !! (length a - k)%nat = Some v.
Proof.
  unfold getitem_neg. destruct (Nat.leb_spec k (length a)).
  - rewrite getitem_Ok. tauto.
  - split; [discriminate | lia].
Qed.

Lemma setitem_neg_Ok {A : Type} (a a' : list A) (k : nat) (v : A) :
  setitem_neg a k v = Ok a' ->
  (k <= length a)%nat /\ (length a - k < length a)%nat /\ a' = <[(length a - k)%nat := v]> a.
Proof.
  unfold setitem_neg. destruct (Nat.leb_spec k (length a)); [|discriminate].
  intros H'. apply setitem_Ok in H'. tauto.
Qed.

Lemma np_zeros_Ok {A : Type} (zero : A) (n : Z) (l : list A) :
  np_zeros zero n = Ok l -> (0 <= n)%Z /\ l = replicate (Z.to_nat n) zero.
Proof.
  unfold np_zeros, zeros. destruct (Z.ltb_spec n 0); [discriminate|].
  intros [= <-]. auto.
Qed.

(** ** The time grid *)

Lemma linspace_length (start stop : Q) (num : Z) (l : list Q) :
  linspace start stop num = Ok l -> (0 <= num)%Z /\ length l = Z.to_nat num.
Proof.
  unfold linspace. destruct (Z.ltb_spec num 0); [discriminate|].
  intros H'. split; [assumption|].
  destruct (1 <? num)%Z.
  - apply setitem_neg_Ok in H' as (_ & _ & ->).
    rewrite length_insert, length_map.
    destruct (0 <? num - 1)%Z; [destruct (Qeq_bool _ _)|];
      now rewrite length_map, length_map, length_seq.
  - injection H' as <-. rewrite length_map.
    destruct (0 <? num - 1)%Z; [destruct (Qeq_bool _ _)|];
      now rewrite length_map, length_map, length_seq.
Qed.

(** The last sample of a grid of two or more is [stop] itself. *)
Lemma linspace_last (start stop : Q) (num : Z) (l : list Q) :
  linspace start stop num = Ok l -> (1 < num)%Z ->
  l !! (Z.to_nat num - 1)%nat = Some stop.
Proof.
  intros H Hn. pose proof (linspace_length _ _ _ _ H) as [_ Hlen].
  unfold linspace in H. destruct (Z.ltb_spec num 0); [lia|].
  destruct (Z.ltb_spec 1 num); [|lia].
  apply setitem_neg_Ok in H as (_ & Hlt & ->).
  rewrite length_insert in Hlen.
  rewrite <- Hlen at 1. now apply list_lookup_insert_eq.
Qed.

(** Every other sample is [start + i * step]. *)
Lemma linspace_lookup (start stop : Q) (num : Z) (l : list Q) (i : nat) (v : Q) :
  linspace start stop num = Ok l -> (1 < num)%Z ->
  (i < Z.to_nat num - 1)%nat -> l !! i = Some v ->
  v == start + inject_Z (Z.of_nat i) * ((stop - start) / inject_Z (num - 1)).
Proof.
  intros H Hn Hi Hv. unfold linspace in H.
  destruct (Z.ltb_spec num 0); [lia|].
  destruct (Z.ltb_spec 1 num); [|lia].
  destruct (Z.ltb_spec 0 (num - 1)); [|lia].
  assert (Hdiv : ~ inject_Z (num - 1) == 0).
  { change 0 with (inject_Z 0). rewrite inject_Z_injective. lia. }
  apply setitem_neg_Ok in H as (_ & Hlt & ->).
  rewrite length_map in Hv.
  rewrite list_lookup_insert_ne in Hv.
  2:{ destruct (Qeq_bool _ _); rewrite length_map, length_map, length_seq; lia. }
  rewrite list_lookup_fmap in Hv.
  destruct (Qeq_bool _ _) eqn:E;
    rewrite list_lookup_fmap, list_lookup_fmap in Hv;
    rewrite lookup_seq_lt in Hv by lia; simpl in Hv; injection Hv as <-.
  - field. exact Hdiv.
  - field. exact Hdiv.
Qed.

(** A grid of one sample is [start]. *)
Lemma linspace_one (start stop : Q) (l : list Q) :
  linspace start stop 1 = Ok l -> exists v, l = [v] /\ v == start.
Proof.
  unfold linspace. simpl. intros [= <-]. eexists. split; [reflexivity|]. ring.
Qed.

(** ** Sorting and the selected threshold *)

Lemma insert_by_theta_perm (th : ThresholdSpec) (l : list ThresholdSpec) :
  insert_by_theta th l ≡ₚ th :: l.
Proof.
  induction l as [|y l IH]; simpl; [reflexivity|].
  destruct (Qltb (theta y) (theta th)); [|reflexivity].
  rewrite IH. apply perm_swap.
Qed.

Lemma sorted_by_theta_perm (l : list ThresholdSpec) : sorted_by_theta l ≡ₚ l.
Proof.
  induction l as [|th l IH]; simpl; [reflexivity|].
  rewrite insert_by_theta_perm. now rewrite IH.
Qed.

Lemma insert_by_theta_sorted (th : ThresholdSpec) (l : list ThresholdSpec) :
  StronglySorted theta_le l -> StronglySorted theta_le (insert_by_theta th l).
Proof.
  induction 1 as [|y l Hs IH Hall]; simpl.
  - repeat constructor.
  - destruct (Qltb (theta y) (theta th)) eqn:E.
    + constructor; [exact IH|].
      rewrite insert_by_theta_perm. constructor; [|exact Hall].
      apply Qltb_lt in E. now apply Qlt_le_weak.
    + apply Qltb_ge in E. constructor; [now constructor|].
      constructor; [exact E|].
      eapply Forall_impl; [exact Hall|].
      intros z Hz. unfold theta_le in *. now apply Qle_trans with (theta y).
Qed.

Lemma sorted_by_theta_sorted (l : list ThresholdSpec) :
  StronglySorted theta_le (sorted_by_theta l).
Proof.
  induction l as [|th l IH]; simpl; [constructor|].
  now apply insert_by_theta_sorted.
Qed.

Lemma elem_of_crossed (l : list ThresholdSpec) (p : Q) (th : ThresholdSpec) :
  th ∈ crossed_thresholds l p <-> th ∈ l /\ theta th <= p.
Proof.
  unfold crossed_thresholds.
  rewrite !list_elem_of_In, filter_In, Qle_bool_iff. reflexivity.
Qed.

(** In a sorted list the last crossed threshold has the highest [theta]
    among the crossed ones. *)
Lemma last_crossed_sorted (l : list ThresholdSpec) (p : Q) (sel : ThresholdSpec) :
  StronglySorted theta_le l ->
  last (crossed_thresholds l p) = Some sel ->
  forall th, th ∈ l -> theta th <= p -> theta th <= theta sel.
Proof.
  induction 1 as [|a l Hs IH Hall]; intros Hlast th Hin Hth.
  - inversion Hin.
  - assert (Hsel : sel ∈ crossed_thresholds (a :: l) p).
    { apply list_elem_of_lookup. exists (pred (length (crossed_thresholds (a :: l) p))).
      now rewrite <- last_lookup. }
    unfold crossed_thresholds in Hlast, IH. simpl in Hlast.
    destruct (Qle_bool (theta a) p) eqn:Ea.
    + destruct (List.filter _ l) as [|b f] eqn:Ef.
      * simpl in Hlast. injection Hlast as <-.
        apply elem_of_cons in Hin as [->|Hin]; [apply Qle_refl|].
        assert (Hc : th ∈ crossed_thresholds l p) by now apply elem_of_crossed.
        unfold crossed_thresholds in Hc. rewrite Ef in Hc. inversion Hc.
      * rewrite last_cons in Hlast.
        destruct (last (b :: f)) as [m|] eqn:El;
          [|apply last_None in El; discriminate].
        cbn in Hlast. injection Hlast as ->.
        apply elem_of_cons in Hin as [->|Hin]; [|now apply IH].
        assert (Hm : sel ∈ crossed_thresholds l p).
        { unfold crossed_thresholds. rewrite Ef.
          apply list_elem_of_lookup. exists (pred (length (b :: f))).
          now rewrite <- last_lookup. }
        apply elem_of_crossed in Hm as [Hm _].
        rewrite Forall_forall in Hall. now apply Hall.
    + apply elem_of_cons in Hin as [->|Hin]; [|now apply IH].
      apply Qle_bool_iff in Hth. congruence.
Qed.

(** What [selected = crossed[-1]] is, in terms of the scenario's own
    threshold sequence. *)
Lemma selected_highest (ths : list ThresholdSpec) (p : Q) (sel : ThresholdSpec) :
  last (crossed_thresholds (sorted_by_theta ths) p) = Some sel ->
  sel ∈ ths /\ theta sel <= p /\
  forall th, th ∈ ths -> theta th <= p -> theta th <= theta sel.
Proof.
  intros Hlast.
  assert (Hsel : sel ∈ crossed_thresholds (sorted_by_theta ths) p).
  { apply list_elem_of_lookup. eexists. rewrite <- last_lookup. exact Hlast. }
  apply elem_of_crossed in Hsel as [Hin Hle].
  rewrite sorted_by_theta_perm in Hin. repeat split; try assumption.
  intros th Hth. apply (last_crossed_sorted _ _ _ (sorted_by_theta_sorted ths) Hlast).
  now rewrite sorted_by_theta_perm.
Qed.

(** [crossed] is empty exactly when no threshold is reached. *)
Lemma selected_none (ths : list ThresholdSpec) (p : Q) :
  last (crossed_thresholds (sorted_by_theta ths) p) = None <->
  forall th, th ∈ ths -> ~ theta th <= p.
Proof.
  rewrite last_None. split.
  - intros Hnil th Hin Hle.
    assert (Hc : th ∈ crossed_thresholds (sorted_by_theta ths) p).
    { apply elem_of_crossed. now rewrite sorted_by_theta_perm. }
    rewrite Hnil in Hc. inversion Hc.
  - intros Hall. destruct (crossed_thresholds _ _) as [|b f] eqn:E; [reflexivity|].
    assert (Hb : b ∈ crossed_thresholds (sorted_by_theta ths) p) by (rewrite E; left).
    apply elem_of_crossed in Hb as [Hb Hle]. rewrite sorted_by_theta_perm in Hb.
    now destruct (Hall b Hb).
Qed.

(** ** The loop of the integrator *)

Lemma release_count_app (l1 l2 : list Z) :
  release_count (l1 ++ l2) = (release_count l1 + release_count l2)%nat.
Proof. unfold release_count. now rewrite List.filter_app, length_app. Qed.

Lemma release_count_zeros (n : nat) : release_count (replicate n 0%Z) = 0%nat.
Proof. induction n as [|n IH]; [reflexivity | exact IH]. Qed.

(** Rows written later leave [step_post] at an earlier row untouched. *)
Lemma step_post_frame `{G : Generator} (sc : Scenario) (times xs ords dvs : list Q) (rels : list Z)
    (evs : list Event) (i k : nat) (vx vo vd : Q) (rels' : list Z) (evs' : list Event) :
  (1 <= i <= k)%nat ->
  (rels' = rels \/ exists r, rels' = <[S k := r]> rels) ->
  step_post sc times xs ords dvs rels evs i ->
  step_post sc times (<[S k := vx]> xs) (<[S k := vo]> ords) (<[k := vd]> dvs)
    rels' (evs ++ evs') i.
Proof.
  intros Hi Hrels
    (t_prev & state & derivative & order_prev & Ht & Hx & Hd & Hg & Ho & Hpost).
  exists t_prev, state, derivative, order_prev.
  rewrite !list_lookup_insert_ne by lia. repeat split; try assumption.
  cbv zeta in *.
  assert (Hlk : rels' !! i = rels !! i).
  { destruct Hrels as [->|[r ->]]; [reflexivity|]. apply list_lookup_insert_ne. lia. }
  assert (Htk : take i rels' = take i rels).
  { destruct Hrels as [->|[r ->]]; [reflexivity|]. apply take_insert_ge. lia. }
  destruct (last _) as [sel|].
  - destruct Hpost as (t & Hti & Hxi & Hoi & Hri & Hev).
    exists t. rewrite ?list_lookup_insert_ne by lia. rewrite Hlk, Htk.
    repeat split; try assumption. now apply lookup_app_l_Some.
  - destruct Hpost as (Hxi & Hoi & Hri).
    rewrite ?list_lookup_insert_ne by lia. rewrite Hlk. auto.
Qed.

(** The arrays before the first step. *)
Lemma loop_inv_init `{G : Generator} (sc : Scenario) (times : list Q) (n : nat) :
  (0 < n)%nat ->
  loop_inv sc times n 0
    {| x := <[0%nat := initial_state sc]> (replicate n 0);
       order := <[0%nat := 0]> (replicate n 0);
       releases := replicate n 0%Z;
       driver_values := replicate n 0;
       events := [] |}.
Proof.
  intros Hn. unfold loop_inv. simpl. rewrite !length_insert, !length_replicate.
  repeat split.
  - apply list_lookup_insert_eq. now rewrite length_replicate.
  - apply list_lookup_insert_eq. now rewrite length_replicate.
  - intros i Hi. apply lookup_replicate_2. lia.
  - rewrite take_replicate. now rewrite release_count_zeros.
  - intros i Hi. lia.
Qed.

Section IntegratorFacts.
Context `{G : Generator}.

Lemma step_preserves (sc : Scenario) (times : list Q) (n k : nat)
    (a a' : Arrays) (g g' : rng_state) :
  length times = n -> (S k < n)%nat ->
  loop_inv sc times n k a ->
  step sc times (sorted_by_theta (thresholds sc)) (S k) (a, g) = Ok (a', g') ->
  loop_inv sc times n (S k) a'.
Proof.
  intros Hlen Hk (Hlx & Hlo & Hlr & Hld & Hx0 & Ho0 & Hzero & Hev & Hpost) Hstep.
  unfold step in Hstep. rewrite Nat.sub_succ, Nat.sub_0_r in Hstep.
  apply bind_Ok in Hstep as (t_prev & Ht & Hstep). apply getitem_Ok in Ht.
  apply bind_Ok in Hstep as (state & Hs & Hstep). apply getitem_Ok in Hs.
  apply bind_Ok in Hstep as ([derivative g1] & Hd & Hstep).
  apply bind_Ok in Hstep as (dv & Hdv & Hstep).
  apply setitem_Ok in Hdv as [Hkd ->].
  apply bind_Ok in Hstep as (order_prev & Hop & Hstep). apply getitem_Ok in Hop.
  set (state_next := state + derivative * dt sc) in *.
  destruct (last (crossed_thresholds _ state_next)) as [sel|] eqn:Hsel.
  - apply bind_Ok in Hstep as (t & Hti & Hstep). apply getitem_Ok in Hti.
    apply bind_Ok in Hstep as (ord & Hord & Hstep).
    apply setitem_Ok in Hord as [_ ->].
    apply bind_Ok in Hstep as (rel & Hrel & Hstep).
    apply setitem_Ok in Hrel as [_ ->].
    apply bind_Ok in Hstep as (xs & Hxs & Hstep).
    apply setitem_Ok in Hxs as [_ ->].
    injection Hstep as <- <-. unfold loop_inv. simpl.
    rewrite !length_insert, !list_lookup_insert_ne by lia.
    repeat split; try assumption.
    + intros i Hi. rewrite list_lookup_insert_ne by lia. apply Hzero. lia.
    + rewrite (take_S_r _ (S k) 1%Z) by (apply list_lookup_insert_eq; lia).
      rewrite take_insert_ge by lia.
      rewrite length_app, release_count_app, Hev. reflexivity.
    + intros i Hi. destruct (decide (i = S k)) as [->|Hne].
      * exists t_prev, state, derivative, order_prev.
        rewrite Nat.sub_succ, Nat.sub_0_r.
        rewrite !(list_lookup_insert_ne _ (S k) k) by lia.
        rewrite (list_lookup_insert_eq (driver_values a)) by lia.
        repeat split; try assumption; [now exists g, g1|].
        cbv zeta. fold state_next. rewrite Hsel. exists t.
        rewrite !list_lookup_insert_eq by lia.
        rewrite take_insert_ge by lia.
        repeat split; try assumption.
        now apply list_lookup_middle.
      * apply step_post_frame with (rels := releases a);
          [lia | eauto | apply Hpost; lia].
  - apply bind_Ok in Hstep as (ord & Hord & Hstep).
    apply setitem_Ok in Hord as [_ ->].
    apply bind_Ok in Hstep as (xs & Hxs & Hstep).
    apply setitem_Ok in Hxs as [_ ->].
    injection Hstep as <- <-. unfold loop_inv. simpl.
    rewrite !length_insert, !list_lookup_insert_ne by lia.
    assert (Hrk : releases a !! S k = Some 0%Z) by (apply Hzero; lia).
    repeat split; try assumption.
    + intros i Hi. apply Hzero. lia.
    + rewrite (take_S_r _ (S k) 0%Z) by assumption.
      rewrite release_count_app, Hev.
      change (release_count [0%Z]) with 0%nat. lia.
    + intros i Hi. destruct (decide (i = S k)) as [->|Hne].
      * exists t_prev, state, derivative, order_prev.
        rewrite Nat.sub_succ, Nat.sub_0_r.
        rewrite !(list_lookup_insert_ne _ (S k) k) by lia.
        rewrite (list_lookup_insert_eq (driver_values a)) by lia.
        repeat split; try assumption; [now exists g, g1|].
        cbv zeta. fold state_next. rewrite Hsel.
        rewrite !list_lookup_insert_eq by lia. auto.
      * rewrite <- (app_nil_r (events a)).
        apply step_post_frame with (rels := releases a);
          [lia | eauto | apply Hpost; lia].
Qed.

(** The loop over the rows [k+1 .. k+m]. *)
Lemma for_each_preserves (sc : Scenario) (times : list Q) (n m : nat) :
  length times = n ->
  forall (k : nat) (a a' : Arrays) (g g' : rng_state),
    (k + m < n)%nat ->
    loop_inv sc times n k a ->
    for_each (step sc times (sorted_by_theta (thresholds sc))) (seq (S k) m) (a, g)
      = Ok (a', g') ->
    loop_inv sc times n (k + m) a'.
Proof.
  intros Hlen. induction m as [|m IH]; intros k a a' g g' Hk Hinv Hrun.
  - simpl in Hrun. injection Hrun as <- <-. now rewrite Nat.add_0_r.
  - simpl in Hrun. apply bind_Ok in Hrun as ([a1 g1] & Hstep & Hrun).
    replace (k + S m)%nat with (S k + m)%nat by lia.
    apply (IH (S k) a1 a' g1 g'); [lia | | exact Hrun].
    apply (step_preserves sc times n k a a1 g g1); [assumption | lia | assumption..].
Qed.

(** The trace of a run that returns: the shape of the table, its first
    row, and [step_post] at every later row. *)
Lemma simulate_cycle_trace (sc : Scenario) (seed : option N)
    (frame : Frame) (evs : list Event) :
  simulate_cycle sc seed = Ok (frame, evs) ->
  exists steps : Z,
    step_count sc = Ok steps /\ (1 <= steps)%Z /\
    linspace 0 (duration sc) steps = Ok (col_time frame) /\
    length (col_time frame) = Z.to_nat steps /\
    length (col_accumulator frame) = Z.to_nat steps /\
    length (col_order_parameter frame) = Z.to_nat steps /\
    length (col_driver frame) = Z.to_nat steps /\
    length (col_release frame) = Z.to_nat steps /\
    col_member frame = None /\
    col_accumulator frame !! 0%nat = Some (initial_state sc) /\
    col_order_parameter frame !! 0%nat = Some 0 /\
    length evs = release_count (col_release frame) /\
    forall i : nat, (1 <= i < Z.to_nat steps)%nat ->
      step_post sc (col_time frame) (col_accumulator frame)
        (col_order_parameter frame) (col_driver frame) (col_release frame) evs i.
Proof.
  unfold simulate_cycle. intros H.
  apply bind_Ok in H as (steps & Hsteps & H).
  apply bind_Ok in H as (times & Htimes & H).
  apply bind_Ok in H as (x0 & Hx0 & H). apply np_zeros_Ok in Hx0 as [Hnn ->].
  apply bind_Ok in H as (o0 & Ho0 & H). apply np_zeros_Ok in Ho0 as [_ ->].
  apply bind_Ok in H as (r0 & Hr0 & H). apply np_zeros_Ok in Hr0 as [_ ->].
  apply bind_Ok in H as (d0 & Hd0 & H). apply np_zeros_Ok in Hd0 as [_ ->].
  apply bind_Ok in H as (x1 & Hx1 & H). apply setitem_Ok in Hx1 as [Hpos ->].
  apply bind_Ok in H as (o1 & Ho1 & H). apply setitem_Ok in Ho1 as [_ ->].
  apply bind_Ok in H as ([a g] & Hloop & H).
  apply bind_Ok in H as (fill & Hfill & H).
  apply bind_Ok in H as (dv & Hdv & H).
  injection H as <- <-. simpl.
  rewrite length_replicate in Hpos.
  set (n := Z.to_nat steps) in *.
  pose proof (linspace_length _ _ _ _ Htimes) as [_ Hlen]. fold n in Hlen.
  assert (Hinv : loop_inv sc times n (0 + (n - 1)) a).
  { eapply for_each_preserves; [exact Hlen | lia | | exact Hloop].
    apply loop_inv_init. lia. }
  destruct Hinv as (Hlx & Hlo & Hlr & Hld & Hx & Ho & _ & Hev & Hpost).
  apply setitem_neg_Ok in Hdv as (_ & _ & ->).
  exists steps. rewrite length_insert.
  repeat split; try assumption; try lia.
  - rewrite Hev. f_equal. apply take_ge. lia.
  - intros i Hi.
    destruct (Hpost i)
      as (t_prev & state & derivative & order_prev & P1 & P2 & P3 & P4 & P5 & P6);
      [lia|].
    exists t_prev, state, derivative, order_prev.
    rewrite list_lookup_insert_ne by lia. repeat split; assumption.
Qed.

End IntegratorFacts.

(** ** The accumulator is clamped from row 1 on *)

(** C1, as stated, fails: row 0 holds [initial_state] as given, and a
    scenario that starts at [-1] returns a table whose accumulator column
    has a negative entry. *)
Lemma accumulator_nonneg_counterexample :
  exists (frame : Frame) (evs : list Event),
    simulate_cycle negative_start None = Ok (frame, evs) /\
    ~ Forall (fun v => 0 <= v) (col_accumulator frame).
Proof.
  eexists. eexists. split; [vm_compute; reflexivity|].
  intros H. apply Forall_cons_1 in H as [H _]. now apply H.
Qed.

(** C1 (amended): in the sample table that [simulate_cycle] returns, row 0
    of the accumulator column is [initial_state], unclamped, and every
    entry at a row [i >= 1] is [>= 0], for every scenario and every seed. *)
Theorem accumulator_nonneg_after_first `{G : Generator} (sc : Scenario) (seed : option N)
    (frame : Frame) (evs : list Event) :
  simulate_cycle sc seed = Ok (frame, evs) ->
  col_accumulator frame !! 0%nat = Some (initial_state sc) /\
  forall (i : nat) (v : Q),
    (1 <= i)%nat -> col_accumulator frame !! i = Some v -> 0 <= v.
Proof.
  intros Hrun.
  destruct (simulate_cycle_trace sc seed frame evs Hrun)
    as (steps & _ & _ & _ & _ & Hlx & _ & _ & _ & _ & Hx0 & _ & _ & Hpost).
  split; [exact Hx0|].
  intros i v Hi Hv.
  assert (Hlt : (i < Z.to_nat steps)%nat).
  { rewrite <- Hlx. now apply lookup_lt_Some with v. }
  destruct (Hpost i) as (t_prev & state & derivative & order_prev & _ & _ & _ & _ & _ & P);
    [lia|].
  cbv zeta in P. destruct (last _) as [sel|].
  - destruct P as (t & _ & Hxi & _). rewrite Hv in Hxi. injection Hxi as ->.
    apply py_max_nonneg.
  - destruct P as (Hxi & _). rewrite Hv in Hxi. injection Hxi as ->.
    apply py_max_nonneg.
Qed.

Lemma accumulator_nonneg_after_first_witness :
  exists (frame : Frame) (evs : list Event),
    simulate_cycle negative_start (Some 7%N) = Ok (frame, evs) /\
    col_accumulator frame !! 0%nat = Some (initial_state negative_start) /\
    forall (i : nat) (v : Q),
      (1 <= i)%nat -> col_accumulator frame !! i = Some v -> 0 <= v.
Proof.
  eexists. eexists. split; [vm_compute; reflexivity|].
  eapply (accumulator_nonneg_after_first negative_start (Some 7%N)).
  vm_compute; reflexivity.
Defined.

(** ** The highest crossed threshold fires, alone *)

(** C2: at a row [i >= 1] where some threshold has [theta <= proposed], with
    [proposed = accumulator[i-1] + derivative * dt] and the derivative that
    of this step (the driver column at row [i-1], which holds what the drive
    evaluator, with its noise, returned at row [i-1]), one threshold [sel] of
    the scenario fires: it is crossed and no crossed threshold has a higher
    [theta]; row [i] holds [max(reset, 0)], the order parameter of row [i-1]
    plus [delta_s], and the release flag 1; one event, with
    [time = time[i]], [state_before = proposed] and [state_after = reset], is
    recorded for the row, at the position that counts the releases before
    it, and the event list has exactly one event per release flag. *)
Theorem highest_crossed_threshold_fires `{G : Generator} (sc : Scenario) (seed : option N)
    (frame : Frame) (evs : list Event) (i : nat) (state derivative : Q) :
  simulate_cycle sc seed = Ok (frame, evs) ->
  (1 <= i < length (col_time frame))%nat ->
  col_accumulator frame !! (i - 1)%nat = Some state ->
  col_driver frame !! (i - 1)%nat = Some derivative ->
  (exists th, th ∈ thresholds sc /\ theta th <= state + derivative * dt sc) ->
  exists (sel : ThresholdSpec) (t_prev t order_prev : Q),
    col_time frame !! (i - 1)%nat = Some t_prev /\
    (exists g g' : rng_state,
        noisy_derivative (driver sc) t_prev state g = Ok (derivative, g')) /\
    sel ∈ thresholds sc /\
    theta sel <= state + derivative * dt sc /\
    (forall th, th ∈ thresholds sc -> theta th <= state + derivative * dt sc ->
                theta th <= theta sel) /\
    col_time frame !! i = Some t /\
    col_accumulator frame !! i = Some (py_max (reset sel) 0) /\
    col_order_parameter frame !! (i - 1)%nat = Some order_prev /\
    col_order_parameter frame !! i = Some (order_prev + delta_s sel) /\
    col_release frame !! i = Some 1%Z /\
    evs !! release_count (take i (col_release frame)) =
      Some {| time := t;
              ev_theta := theta sel;
              ev_reset := reset sel;
              ev_delta_s := delta_s sel;
              state_before := state + derivative * dt sc;
              state_after := reset sel |} /\
    length evs = release_count (col_release frame).
Proof.
  intros Hrun Hi Hstate Hder (th & Hth & Hcross).
  destruct (simulate_cycle_trace sc seed frame evs Hrun)
    as (steps & _ & _ & _ & Hlt & _ & _ & _ & _ & _ & _ & _ & Hcount & Hpost).
  destruct (Hpost i) as (t_prev & s & d & order_prev & Htp & Hs & Hd & Hg & Ho & P);
    [lia|].
  rewrite Hstate in Hs. injection Hs as <-.
  rewrite Hder in Hd. injection Hd as <-.
  cbv zeta in P.
  destruct (last _) as [sel|] eqn:Hsel.
  - destruct P as (t & Ht & Hx & Hord & Hrel & Hev).
    destruct (selected_highest _ _ _ Hsel) as (Hin & Hle & Hmax).
    exists sel, t_prev, t, order_prev. repeat split; assumption.
  - now destruct (proj1 (selected_none _ _) Hsel th Hth).
Qed.

Lemma highest_crossed_threshold_fires_witness :
  exists (frame : Frame) (evs : list Event),
    simulate_cycle two_level (Some 42%N) = Ok (frame, evs) /\
    (1 <= 1 < length (col_time frame))%nat /\
    col_accumulator frame !! (1 - 1)%nat = Some (1 # 4) /\
    col_driver frame !! (1 - 1)%nat = Some (37 # 20) /\
    (exists th, th ∈ thresholds two_level /\
                theta th <= (1 # 4) + (37 # 20) * dt two_level) /\
    exists (sel : ThresholdSpec) (t_prev t order_prev : Q),
      col_time frame !! (1 - 1)%nat = Some t_prev /\
      (exists g g' : rng_state,
          noisy_derivative (driver two_level) t_prev (1 # 4) g = Ok (37 # 20, g')) /\
      sel ∈ thresholds two_level /\
      theta sel <= (1 # 4) + (37 # 20) * dt two_level /\
      (forall th, th ∈ thresholds two_level ->
                  theta th <= (1 # 4) + (37 # 20) * dt two_level ->
                  theta th <= theta sel) /\
      col_time frame !! 1%nat = Some t /\
      col_accumulator frame !! 1%nat = Some (py_max (reset sel) 0) /\
      col_order_parameter frame !! (1 - 1)%nat = Some order_prev /\
      col_order_parameter frame !! 1%nat = Some (order_prev + delta_s sel) /\
      col_release frame !! 1%nat = Some 1%Z /\
      evs !! release_count (take 1 (col_release frame)) =
        Some {| time := t;
                ev_theta := theta sel;
                ev_reset := reset sel;
                ev_delta_s := delta_s sel;
                state_before := (1 # 4) + (37 # 20) * dt two_level;
                state_after := reset sel |} /\
      length evs = release_count (col_release frame).
Proof.
  assert (Hcrossed : exists th, th ∈ thresholds two_level /\
                       theta th <= (1 # 4) + (37 # 20) * dt two_level).
  { exists {| theta := 1 # 2; reset := 1 # 4; delta_s := 2 |}. split.
    - right. left.
    - vm_compute. discriminate. }
  eexists. eexists. split; [vm_compute; reflexivity|].
  split; [vm_compute; lia|]. split; [vm_compute; reflexivity|].
  split; [vm_compute; reflexivity|]. split; [exact Hcrossed|].
  eapply (highest_crossed_threshold_fires two_level (Some 42%N) _ _ 1).
  - vm_compute; reflexivity.
  - vm_compute. lia.
  - vm_compute; reflexivity.
  - vm_compute; reflexivity.
  - exact Hcrossed.
Defined.

(** ** The order parameter *)

(** C5: when every threshold has [delta_s >= 0], the order parameter of the
    returned table never decreases from one row to the next. *)
Theorem order_parameter_monotone `{G : Generator} (sc : Scenario) (seed : option N)
    (frame : Frame) (evs : list Event) (i : nat) (prev cur : Q) :
  simulate_cycle sc seed = Ok (frame, evs) ->
  (forall th, th ∈ thresholds sc -> 0 <= delta_s th) ->
  (1 <= i)%nat ->
  col_order_parameter frame !! (i - 1)%nat = Some prev ->
  col_order_parameter frame !! i = Some cur ->
  prev <= cur.
Proof.
  intros Hrun Hpos Hi Hprev Hcur.
  destruct (simulate_cycle_trace sc seed frame evs Hrun)
    as (steps & _ & _ & _ & _ & _ & Hlo & _ & _ & _ & _ & _ & _ & Hpost).
  assert (Hlt : (i < Z.to_nat steps)%nat).
  { rewrite <- Hlo. now apply lookup_lt_Some with cur. }
  destruct (Hpost i) as (t_prev & s & d & order_prev & _ & _ & _ & _ & Ho & P); [lia|].
  rewrite Hprev in Ho. injection Ho as <-.
  cbv zeta in P. destruct (last _) as [sel|] eqn:Hsel.
  - destruct P as (t & _ & _ & Hord & _).
    rewrite Hcur in Hord. injection Hord as ->.
    destruct (selected_highest _ _ _ Hsel) as (Hin & _).
    specialize (Hpos sel Hin).
    rewrite <- (Qplus_0_r prev) at 1. now apply Qplus_le_r.
  - destruct P as (_ & Hord & _).
    rewrite Hcur in Hord. injection Hord as ->. apply Qle_refl.
Qed.

Lemma order_parameter_monotone_witness :
  exists (frame : Frame) (evs : list Event),
    simulate_cycle two_level (Some 42%N) = Ok (frame, evs) /\
    (forall th, th ∈ thresholds two_level -> 0 <= delta_s th) /\
    (1 <= 2)%nat /\
    col_order_parameter frame !! (2 - 1)%nat = Some 1 /\
    col_order_parameter frame !! 2%nat = Some 2 /\
    1 <= 2.
Proof.
  assert (Hgain : forall th, th ∈ thresholds two_level -> 0 <= delta_s th).
  { intros th Hth. apply list_elem_of_In in Hth.
    destruct Hth as [<-|[<-|[]]]; vm_compute; discriminate. }
  eexists. eexists. split; [vm_compute; reflexivity|].
  split; [exact Hgain|]. split; [lia|].
  split; [vm_compute; reflexivity|]. split; [vm_compute; reflexivity|].
  eapply (order_parameter_monotone two_level (Some 42%N) _ _ 2 1 2).
  - vm_compute; reflexivity.
  - exact Hgain.
  - lia.
  - vm_compute; reflexivity.
  - vm_compute; reflexivity.
Defined.

(** ** The time grid of a run *)

Lemma step_count_Ok (sc : Scenario) (steps : Z) :
  step_count sc = Ok steps ->
  ~ dt sc == 0 /\ steps = (Qceiling (duration sc / dt sc) + 1)%Z.
Proof.
  unfold step_count. destruct (Qeq_bool (dt sc) 0) eqn:E; [discriminate|].
  intros [= <-]. split; [|reflexivity].
  intros H. apply Qeq_bool_iff in H. congruence.
Qed.

(** The grid step never exceeds [dt]. *)
Lemma grid_step_le_dt (d dur : Q) :
  0 < d -> (0 < Qceiling (dur / d))%Z ->
  dur / inject_Z (Qceiling (dur / d)) <= d.
Proof.
  intros Hd Hc.
  assert (Hpos : 0 < inject_Z (Qceiling (dur / d))).
  { change 0 with (inject_Z 0). now rewrite <- Zlt_Qlt. }
  apply Qle_shift_div_r; [exact Hpos|].
  pose proof (Qle_ceiling (dur / d)) as Hle.
  apply (Qmult_le_compat_r _ _ d) in Hle; [|now apply Qlt_le_weak].
  assert (Hdur : dur / d * d == dur) by (field; intros E; rewrite E in Hd; inversion Hd).
  rewrite Hdur in Hle. now rewrite Qmult_comm in Hle.
Qed.

(** When [dt] divides the duration the grid step is [dt]. *)
Lemma whole_multiple_step (d dur c : Q) :
  0 < d -> ~ c == 0 -> dur / d == c -> dur / c == d.
Proof.
  intros Hd Hc H.
  assert (Hdur : dur == c * d).
  { rewrite <- H. field. intros E. rewrite E in Hd. inversion Hd. }
  rewrite Hdur. field. exact Hc.
Qed.

(** With one sample only, the duration is zero. *)
Lemma no_step_duration_zero (d dur : Q) :
  0 < d -> 0 <= dur -> Qceiling (dur / d) = 0%Z -> dur == 0.
Proof.
  intros Hd Hdur Hc. apply Qle_antisym; [|exact Hdur].
  pose proof (Qle_ceiling (dur / d)) as Hle. rewrite Hc in Hle.
  apply (Qmult_le_compat_r _ _ d) in Hle; [|now apply Qlt_le_weak].
  assert (E : dur / d * d == dur) by (field; intros E; rewrite E in Hd; inversion Hd).
  rewrite E in Hle. now rewrite Qmult_0_l in Hle.
Qed.


(** In exact arithmetic the grid of a run is evenly spaced: for [dt > 0]
    and [duration >= 0] every interval between consecutive samples, the
    final one included, is [duration / ceil(duration/dt)], which is at most
    [dt], and is [dt] when [duration] is a whole multiple of [dt].  The
    doubles of the program keep this up to rounding only. *)
Lemma exact_grid_evenly_spaced `{G : Generator} (sc : Scenario) (seed : option N)
    (frame : Frame) (evs : list Event) :
  0 < dt sc -> 0 <= duration sc ->
  simulate_cycle sc seed = Ok (frame, evs) ->
  Z.of_nat (length (col_time frame)) = (Qceiling (duration sc / dt sc) + 1)%Z /\
  (exists t0, col_time frame !! 0%nat = Some t0 /\ t0 == 0) /\
  (exists tl, last (col_time frame) = Some tl /\ tl == duration sc) /\
  forall (i : nat) (a b : Q),
    col_time frame !! i = Some a -> col_time frame !! S i = Some b ->
    b - a == duration sc / inject_Z (Qceiling (duration sc / dt sc)) /\
    b - a <= dt sc /\
    (duration sc / dt sc == inject_Z (Qceiling (duration sc / dt sc)) ->
     b - a == dt sc).
Proof.
  intros Hdt Hdur Hrun.
  destruct (simulate_cycle_trace sc seed frame evs Hrun)
    as (steps & Hsteps & Hge & Hgrid & Hlen & _).
  apply step_count_Ok in Hsteps as [_ Hsteps].
  set (c := Qceiling (duration sc / dt sc)) in *.
  assert (Hn : Z.of_nat (length (col_time frame)) = (c + 1)%Z) by lia.
  split; [exact Hn|].
  destruct (Z.eq_dec c 0%Z) as [Hc0|Hc0].
  - (* a single sample *)
    assert (Hone : steps = 1%Z) by lia. rewrite Hone in Hgrid.
    apply linspace_one in Hgrid as (v & Hv & Hv0). rewrite Hv.
    split; [now exists v|]. split.
    + exists v. split; [reflexivity|]. rewrite Hv0. symmetry.
      now apply no_step_duration_zero with (dt sc).
    + intros i a b _ Hb. destruct i; discriminate Hb.
  - assert (Hc : (0 < c)%Z) by lia.
    assert (Hdiv : inject_Z (steps - 1) = inject_Z c) by (f_equal; lia).
    assert (Hnz : ~ inject_Z c == 0).
    { change 0 with (inject_Z 0). rewrite inject_Z_injective. lia. }
    split; [|split].
    + destruct (lookup_lt_is_Some_2 (col_time frame) 0%nat) as [t0 Ht0]; [lia|].
      exists t0. split; [exact Ht0|].
      pose proof (linspace_lookup _ _ _ _ 0%nat t0 Hgrid) as E.
      rewrite E by (try exact Ht0; lia). simpl. ring.
    + exists (duration sc). split; [|reflexivity].
      rewrite last_lookup, Hlen.
      replace (Init.Nat.pred (Z.to_nat steps)) with (Z.to_nat steps - 1)%nat by lia.
      apply (linspace_last _ _ _ _ Hgrid). lia.
    + intros i a b Ha Hb.
      assert (Hi : (S i < Z.to_nat steps)%nat).
      { rewrite <- Hlen. now apply lookup_lt_Some with b. }
      assert (Hgap : b - a == duration sc / inject_Z c).
      { pose proof (linspace_lookup _ _ _ _ i a Hgrid) as Ea.
        rewrite Ea by (try exact Ha; lia). clear Ea.
        destruct (decide (S i = Z.to_nat steps - 1)%nat) as [Hlast|Hmid].
        - rewrite Hlast in Hb.
          rewrite (linspace_last _ _ _ _ Hgrid) in Hb by lia. injection Hb as <-.
          rewrite Hdiv.
          assert (Hii : inject_Z (Z.of_nat i) == inject_Z c - 1).
          { replace (Z.of_nat i) with (c + - 1)%Z by lia.
            rewrite inject_Z_plus. reflexivity. }
          rewrite Hii. field. exact Hnz.
        - pose proof (linspace_lookup _ _ _ _ (S i) b Hgrid) as Eb.
          rewrite Eb by (try exact Hb; lia). clear Eb.
          rewrite Hdiv.
          replace (Z.of_nat (S i)) with (Z.of_nat i + 1)%Z by lia.
          rewrite inject_Z_plus. field. exact Hnz. }
      split; [exact Hgap|]. split.
      * rewrite Hgap. now apply grid_step_le_dt.
      * intros Hwhole. rewrite Hgap. now apply whole_multiple_step.
Qed.

(** ** Rounding *)




















(** ** The time grid under rounding *)

Lemma exact_rounding : rounding exact.
Proof.
  unfold exact. split; [now intros a b E|]. split; [reflexivity|].
  split; [now intros q Hq | now intros q].
Qed.



Section RoundedGrid.
Variable fl : Q -> Q.
Hypothesis fl_rounding : rounding fl.










End RoundedGrid.



(** The doubles at work.  With [dt] the double nearest to 0.3 and a
    duration of 3 the quotient rounds to 10 and the grid has 11 rows,
    where the exact quotient of the same two numbers, which lies above 10,
    gives 12.  With [dt] the double nearest to 0.1 and a duration of 1 the
    second and the third interval of the grid differ.  With [dt] the
    double nearest to 0.3 and a duration of 1 the grid of doubles is not
    spaced by [dt] either: its five samples are a quarter apart. *)
Lemma binary64_grid_examples :
  step_count_in binary64 three_tenths = Ok 11%Z /\
  step_count_in exact three_tenths = Ok 12%Z /\
  (exists (times : list Q) (a b c : Q),
     time_grid binary64 tenth_steps = Ok times /\
     times !! 1%nat = Some a /\ times !! 2%nat = Some b /\ times !! 3%nat = Some c /\
     ~ b - a == c - b) /\
  exists times : list Q,
    time_grid binary64 (with_grid three_tenths (dt three_tenths) 1) = Ok times /\
    ~ dt_spaced (dt three_tenths) times.
Proof.
  split; [vm_compute; reflexivity|]. split; [vm_compute; reflexivity|]. split.
  - eexists. eexists. eexists. eexists.
    split; [vm_compute; reflexivity|].
    split; [reflexivity|]. split; [reflexivity|]. split; [reflexivity|].
    intros H. vm_compute in H. discriminate H.
  - eexists. split; [vm_compute; reflexivity|].
    intros H. specialize (H 0%nat _ _ eq_refl eq_refl).
    vm_compute in H. discriminate H.
Qed.

(** ** Without noise the seed does not matter *)

Section SeedIndependence.
Context `{G : Generator}.

(** Without noise a step leaves the generator alone and computes the same
    arrays from any generator state. *)
Lemma step_without_noise (sc : Scenario) (times : list Q) (ths : list ThresholdSpec)
    (idx : nat) (a : Arrays) (g1 g2 : rng_state) :
  Qltb 0 (noise_std (driver sc)) = false ->
  match step sc times ths idx (a, g1), step sc times ths idx (a, g2) with
  | Ok (a1, g1'), Ok (a2, g2') => a1 = a2 /\ g1' = g1 /\ g2' = g2
  | Raise e1, Raise e2 => e1 = e2
  | _, _ => False
  end.
Proof.
  intros Hquiet. unfold step, noisy_derivative. rewrite Hquiet.
  destruct (getitem times (idx - 1)) as [t_prev|e]; simpl; [|reflexivity].
  destruct (getitem (x a) (idx - 1)) as [state|e]; simpl; [|reflexivity].
  destruct (_driver_derivative (driver sc) t_prev state) as [d|e]; simpl; [|reflexivity].
  destruct (setitem (driver_values a) (idx - 1) d) as [dv|e]; simpl; [|reflexivity].
  destruct (getitem (order a) (idx - 1)) as [o|e]; simpl; [|reflexivity].
  destruct (last _) as [sel|].
  - destruct (getitem times idx) as [t|e]; simpl; [|reflexivity].
    destruct (setitem (order a) idx _) as [ord|e]; simpl; [|reflexivity].
    destruct (setitem (releases a) idx _) as [rel|e]; simpl; [|reflexivity].
    destruct (setitem (x a) idx _) as [xs|e]; simpl; [|reflexivity].
    auto.
  - destruct (setitem (order a) idx _) as [ord|e]; simpl; [|reflexivity].
    destruct (setitem (x a) idx _) as [xs|e]; simpl; [|reflexivity].
    auto.
Qed.

Lemma for_each_without_noise (sc : Scenario) (times : list Q) (ths : list ThresholdSpec)
    (idxs : list nat) :
  Qltb 0 (noise_std (driver sc)) = false ->
  forall (a : Arrays) (g1 g2 : rng_state),
    fst <$> for_each (step sc times ths) idxs (a, g1)
    = fst <$> for_each (step sc times ths) idxs (a, g2).
Proof.
  intros Hquiet. induction idxs as [|idx rest IH]; intros a g1 g2; [reflexivity|].
  pose proof (step_without_noise sc times ths idx a g1 g2 Hquiet) as Hstep.
  change (for_each (step sc times ths) (idx :: rest) (a, g1))
    with (step sc times ths idx (a, g1) ≫= for_each (step sc times ths) rest).
  change (for_each (step sc times ths) (idx :: rest) (a, g2))
    with (step sc times ths idx (a, g2) ≫= for_each (step sc times ths) rest).
  destruct (step sc times ths idx (a, g1)) as [[a1 g1']|e1],
           (step sc times ths idx (a, g2)) as [[a2 g2']|e2];
    try contradiction.
  - destruct Hstep as (-> & -> & ->). apply IH.
  - now subst.
Qed.

End SeedIndependence.

(** C10: when the driver's [noise_std] is 0, two runs of [simulate_cycle] on
    the same scenario with any two seeds have the same outcome: the same
    sample table and the same event list (and the same exception when the
    scenario makes the run fail). *)
Theorem seed_irrelevant_without_noise `{G : Generator} (sc : Scenario)
    (seed1 seed2 : option N) :
  noise_std (driver sc) == 0 ->
  simulate_cycle sc seed1 = simulate_cycle sc seed2.
Proof.
  intros Hzero.
  assert (Hquiet : Qltb 0 (noise_std (driver sc)) = false).
  { apply Qltb_ge. rewrite Hzero. apply Qle_refl. }
  unfold simulate_cycle.
  destruct (step_count sc) as [steps|e]; simpl; [|reflexivity].
  destruct (linspace 0 (duration sc) steps) as [times|e]; simpl; [|reflexivity].
  destruct (np_zeros 0 steps) as [zs|e]; simpl; [|reflexivity].
  destruct (np_zeros 0%Z steps) as [rs|e]; simpl; [|reflexivity].
  destruct (setitem zs 0 (initial_state sc)) as [x0|e]; simpl; [|reflexivity].
  destruct (setitem zs 0 0) as [o0|e]; simpl; [|reflexivity].
  match goal with
  | |- (for_each ?body ?idxs (?a, _) ≫= _) = _ =>
      pose proof (for_each_without_noise sc times (sorted_by_theta (thresholds sc))
                    idxs Hquiet a (default_rng seed1) (default_rng seed2)) as Hloop
  end.
  destruct (for_each _ _ (_, default_rng seed1)) as [[a1 g1]|e1],
           (for_each _ _ (_, default_rng seed2)) as [[a2 g2]|e2];
    simpl in Hloop; try discriminate Hloop.
  - injection Hloop as ->. reflexivity.
  - injection Hloop as ->. reflexivity.
Qed.

Lemma seed_irrelevant_without_noise_witness :
  noise_std (driver negative_start) == 0 /\
  simulate_cycle negative_start (Some 1%N) = simulate_cycle negative_start (Some 2%N).
Proof.
  split; [reflexivity|].
  apply (seed_irrelevant_without_noise negative_start (Some 1%N) (Some 2%N)).
  reflexivity.
Defined.

(** ** Invalid input *)

Lemma rejected_driver_raises (d : DriverSpec) (t state : Q) :
  rejected_driver d -> _driver_derivative d t state = Raise ValueError.
Proof.
  unfold _driver_derivative.
  intros [Hty Hr | Hty Hk | Hty Hr | Hleaky Hlinear Hpiecewise].
  - rewrite Hty, Hr. reflexivity.
  - rewrite Hty, Hk. simpl. now destruct (rate d).
  - rewrite Hty, Hr. reflexivity.
  - apply String.eqb_neq in Hleaky, Hlinear, Hpiecewise.
    now rewrite Hleaky, Hlinear, Hpiecewise.
Qed.

Lemma piecewise_absent_segments (d : DriverSpec) (t state : Q) :
  type d = "piecewise" -> segments d = None ->
  _driver_derivative d t state = Raise AssertionError.
Proof.
  intros Hty Hs. unfold _driver_derivative, _piecewise_rate. now rewrite Hty, Hs.
Qed.

(** An empty segment list falls through the loop to [segments[-1]]. *)
Lemma piecewise_empty_segments (d : DriverSpec) (t state : Q) :
  type d = "piecewise" -> segments d = Some [] ->
  _driver_derivative d t state = Raise IndexError.
Proof.
  intros Hty Hs. unfold _driver_derivative, _piecewise_rate. now rewrite Hty, Hs.
Qed.

(** C4, as stated, fails: no single exception class covers the listed
    conditions, since a piecewise driver without segments fails the
    [assert] while a linear driver without rate raises [ValueError]. *)
Lemma single_error_kind_counterexample : ~ exists e : exn, single_error_kind e.
Proof.
  intros (e & Hrejected & Hpiecewise & _).
  specialize (Hrejected linear_without_rate_drive 0 0
                (linear_without_rate linear_without_rate_drive eq_refl eq_refl)).
  specialize (Hpiecewise (piecewise_drive None) 0 0 eq_refl (or_introl eq_refl)).
  vm_compute in Hrejected, Hpiecewise. congruence.
Qed.

(** C4 (amended): a leaky driver without rate or leak, a linear driver
    without rate, an unsupported driver type and an empty threshold set
    passed to the margin calculator all raise [ValueError]; a piecewise
    driver whose segments are absent raises [AssertionError]. *)
Theorem invalid_input_errors :
  (forall d t state, rejected_driver d -> _driver_derivative d t state = Raise ValueError) /\
  (forall frame, compute_viability_margin frame [] = Raise ValueError) /\
  (forall d t state, type d = "piecewise" -> segments d = None ->
     _driver_derivative d t state = Raise AssertionError).
Proof.
  split; [|split].
  - intros d t state. apply rejected_driver_raises.
  - reflexivity.
  - intros d t state. apply piecewise_absent_segments.
Qed.

Lemma invalid_input_errors_witness :
  _driver_derivative linear_without_rate_drive 0 0 = Raise ValueError /\
  compute_viability_margin empty_frame [] = Raise ValueError /\
  _driver_derivative (piecewise_drive None) 0 0 = Raise AssertionError.
Proof.
  destruct invalid_input_errors as (Hrejected & Hmargin & Hassert).
  split; [|split].
  - apply Hrejected. now apply linear_without_rate.
  - apply Hmargin.
  - now apply Hassert.
Defined.

(** ** The viability margin *)

Lemma fold_py_max_spec (rest : list Q) (v : Q) :
  fold_left py_max rest v ∈ v :: rest /\
  forall y, y ∈ v :: rest -> y <= fold_left py_max rest v.
Proof.
  revert v. induction rest as [|w rest IH]; intros v; simpl.
  - split; [left|]. intros y Hy. apply list_elem_of_singleton in Hy as ->.
    apply Qle_refl.
  - destruct (IH (py_max v w)) as [Hin Hmax]. split.
    + apply elem_of_cons in Hin as [Hin|Hin].
      * rewrite Hin. destruct (py_max_cases v w) as [->| ->]; [left | right; left].
      * right. now right.
    + intros y Hy.
      assert (Hm : py_max v w <= fold_left py_max rest (py_max v w))
        by (apply Hmax; left).
      apply elem_of_cons in Hy as [->|Hy].
      * eapply Qle_trans; [apply py_max_ge_l | exact Hm].
      * apply elem_of_cons in Hy as [->|Hy].
        -- eapply Qle_trans; [apply py_max_ge_r | exact Hm].
        -- apply Hmax. now right.
Qed.

(** C6, as stated, fails: a trajectory that ends at a top threshold of 0
    has margin 0 but its relative margin is not-a-number, not 0. *)
Lemma relative_margin_counterexample :
  exists (frame : Frame) (evs : list Event) (r : Margin),
    simulate_cycle rest_at_zero None = Ok (frame, evs) /\
    compute_viability_margin frame (thresholds rest_at_zero) = Ok r /\
    current_state r == top_threshold r /\
    ~ exists q, relative_margin r = num q /\ q == 0.
Proof.
  eexists. eexists. eexists.
  split; [vm_compute; reflexivity|]. split; [vm_compute; reflexivity|].
  split; [reflexivity|]. intros (q & Hq & _). discriminate Hq.
Qed.

(** C6 (amended): for a non-empty threshold sequence and a non-empty sample
    table the calculator returns [top_threshold], the maximum [theta],
    [current_state], the last accumulator value, their difference as
    [margin], and as [relative_margin] the quotient [margin / top_threshold],
    or not-a-number when [top_threshold == 0]; for a trajectory whose last
    accumulator value equals [top_threshold], [margin == 0], and
    [relative_margin == 0] when [top_threshold] is not 0. *)
Theorem viability_margin_spec (frame : Frame) (ths : list ThresholdSpec) (cur : Q) :
  ths <> [] ->
  last (col_accumulator frame) = Some cur ->
  exists r : Margin,
    compute_viability_margin frame ths = Ok r /\
    top_threshold r ∈ map theta ths /\
    (forall th, th ∈ ths -> theta th <= top_threshold r) /\
    current_state r = cur /\
    margin r = top_threshold r - cur /\
    (top_threshold r == 0 -> relative_margin r = nan) /\
    (~ top_threshold r == 0 -> relative_margin r = num (margin r / top_threshold r)) /\
    (cur == top_threshold r ->
       margin r == 0 /\
       (~ top_threshold r == 0 -> exists q, relative_margin r = num q /\ q == 0)).
Proof.
  intros Hths Hlast. unfold compute_viability_margin.
  destruct ths as [|th0 ths]; [contradiction|]. simpl.
  set (top := fold_left py_max (map theta ths) (theta th0)).
  destruct (fold_py_max_spec (map theta ths) (theta th0)) as [Hin Hmax]. fold top in Hin, Hmax.
  assert (Hcur : getitem_neg (col_accumulator frame) 1 = Ok cur).
  { apply getitem_neg_Ok. rewrite last_lookup in Hlast.
    pose proof (lookup_lt_Some _ _ _ Hlast) as Hlt.
    split; [lia|]. now replace (length (col_accumulator frame) - 1)%nat
      with (Init.Nat.pred (length (col_accumulator frame))) by lia. }
  rewrite Hcur. simpl. eexists. split; [reflexivity|]. simpl.
  split; [exact Hin|]. split.
  { intros th Hth. apply Hmax. change (theta th0 :: map theta ths) with (map theta (th0 :: ths)).
    now apply list_elem_of_fmap_2. }
  split; [reflexivity|]. split; [reflexivity|].
  destruct (Qeq_bool top 0) eqn:E; simpl.
  - apply Qeq_bool_iff in E. split; [reflexivity|]. split; [now intros []|].
    intros Heq. split; [rewrite Heq; ring|]. now intros [].
  - assert (Hnz : ~ top == 0) by (intros H; apply Qeq_bool_iff in H; congruence).
    split; [now intros H|]. split; [reflexivity|].
    intros Heq. split; [rewrite Heq; ring|].
    intros _. eexists. split; [reflexivity|]. rewrite Heq. field. exact Hnz.
Qed.

Lemma viability_margin_spec_witness :
  thresholds two_level <> [] /\
  last (col_accumulator at_top_frame) = Some 1 /\
  exists r : Margin,
    compute_viability_margin at_top_frame (thresholds two_level) = Ok r /\
    top_threshold r ∈ map theta (thresholds two_level) /\
    (forall th, th ∈ thresholds two_level -> theta th <= top_threshold r) /\
    current_state r = 1 /\
    margin r = top_threshold r - 1 /\
    (top_threshold r == 0 -> relative_margin r = nan) /\
    (~ top_threshold r == 0 -> relative_margin r = num (margin r / top_threshold r)) /\
    (1 == top_threshold r ->
       margin r == 0 /\
       (~ top_threshold r == 0 -> exists q, relative_margin r = num q /\ q == 0)).
Proof.
  split; [discriminate|]. split; [reflexivity|].
  apply (viability_margin_spec _ (thresholds two_level) 1).
  - discriminate.
  - reflexivity.
Defined.

(** ** The cycle summarizer *)

Lemma summarize_loop_length (evs : list Event) (last_time last_state last_order : Q) :
  length (summarize_loop evs last_time last_state last_order) = length evs.
Proof.
  revert last_time last_state last_order.
  induction evs as [|ev evs IH]; intros lt ls lo; simpl; [reflexivity|].
  now rewrite IH.
Qed.

(** Row [k] of the loop's output, from event [k] and the event before it. *)
Lemma summarize_loop_row (evs : list Event) (last_time last_state last_order : Q)
    (k : nat) (ev : Event) :
  evs !! k = Some ev ->
  exists row : CycleSummary,
    summarize_loop evs last_time last_state last_order !! k = Some row /\
    start_time row = match k with
                     | O => last_time
                     | S j => default last_time (time <$> evs !! j)
                     end /\
    end_time row = time ev /\
    cs_duration row = cycle_duration (time ev) (start_time row) /\
    mean_slope row = cycle_mean_slope (ramp_amplitude row) (cs_duration row) /\
    release_gain row = ev_delta_s ev /\
    cs_theta row = ev_theta ev /\
    reset_level row = ev_reset ev.
Proof.
  revert last_time last_state last_order k.
  induction evs as [|ev0 evs IH]; intros lt ls lo k Hk; [discriminate|].
  destruct k as [|k]; simpl in Hk.
  - injection Hk as ->. eexists. split; [reflexivity|]. simpl. repeat split.
  - destruct (IH (time ev0) (ev_reset ev0) (lo + ev_delta_s ev0) k Hk)
      as (row & Hrow & Hstart & Hrest).
    exists row. split; [exact Hrow|]. split; [|exact Hrest].
    rewrite Hstart. destruct k as [|k]; [reflexivity|].
    simpl. apply lookup_lt_Some in Hk.
    destruct (lookup_lt_is_Some_2 evs k) as [p Hp]; [lia|].
    now rewrite Hp.
Qed.

Lemma cycle_duration_cases (event_time last_time : Q) :
  (event_time - last_time <= 0 -> cycle_duration event_time last_time = nan) /\
  (0 < event_time - last_time ->
   cycle_duration event_time last_time = num (event_time - last_time)).
Proof.
  unfold cycle_duration. destruct (Qle_bool _ 0) eqn:E.
  - apply Qle_bool_iff in E. split; [reflexivity|].
    intros H. now apply Qlt_not_le in H.
  - split; [|reflexivity]. intros H. apply Qle_bool_iff in H. congruence.
Qed.

Lemma cycle_duration_positive (event_time last_time q : Q) :
  cycle_duration event_time last_time = num q -> 0 < q.
Proof.
  unfold cycle_duration. destruct (Qle_bool _ 0) eqn:E; [discriminate|].
  intros [= <-]. apply Qnot_le_lt. intros H. apply Qle_bool_iff in H. congruence.
Qed.

(** The slope is a number exactly for a duration that is a number other
    than zero. *)
Lemma cycle_mean_slope_cases (amplitude : Q) (d : float) :
  match d with
  | num q => if Qeq_bool q 0 then cycle_mean_slope amplitude d = nan
             else cycle_mean_slope amplitude d = num (amplitude / q)
  | nan => cycle_mean_slope amplitude d = nan
  end.
Proof.
  destruct d as [q|]; [|reflexivity].
  unfold cycle_mean_slope. simpl. now destruct (Qeq_bool q 0).
Qed.

(** C7: for event [k] the cycle starts at the first sample's time when
    [k = 0] and at the previous event's time otherwise; with
    [d = event.time - start_time], the duration is not-a-number when
    [d <= 0] and is [d] otherwise; a duration that is a number is not zero
    and then [mean_slope] is [ramp_amplitude / duration]; when the duration
    is not-a-number so is [mean_slope]. *)
Theorem cycle_duration_and_slope (frame : Frame) (evs : list Event) (initial : Q)
    (rows : list CycleSummary) (k : nat) (ev : Event) (row : CycleSummary) :
  summarize_cycles frame evs initial = Ok rows ->
  evs !! k = Some ev ->
  rows !! k = Some row ->
  cycle_start frame evs k = Some (start_time row) /\
  (time ev - start_time row <= 0 -> cs_duration row = nan) /\
  (0 < time ev - start_time row -> cs_duration row = num (time ev - start_time row)) /\
  (forall q, cs_duration row = num q ->
     ~ q == 0 /\ mean_slope row = num (ramp_amplitude row / q)) /\
  (cs_duration row = nan -> mean_slope row = nan).
Proof.
  intros Hsum Hev Hrow. unfold summarize_cycles in Hsum.
  destruct evs as [|ev0 evs]; [discriminate Hev|].
  apply bind_Ok in Hsum as (t0 & Ht0 & Hsum). apply getitem_Ok in Ht0.
  injection Hsum as <-.
  destruct (summarize_loop_row (ev0 :: evs) t0 initial 0 k ev Hev)
    as (row' & Hrow' & Hstart & _ & Hdur & Hslope & _).
  pose proof (eq_trans (eq_sym Hrow') Hrow) as Hsame.
  injection Hsame as ->. clear Hrow'.
  split.
  { rewrite Hstart. destruct k as [|k]; [exact Ht0|]. simpl.
    apply lookup_lt_Some in Hev. simpl in Hev.
    destruct (lookup_lt_is_Some_2 (ev0 :: evs) k) as [p Hp]; [simpl; lia|].
    now rewrite Hp. }
  destruct (cycle_duration_cases (time ev) (start_time row)) as [Hnan Hnum].
  rewrite <- Hdur in Hnan, Hnum.
  split; [exact Hnan|]. split; [exact Hnum|]. split.
  - intros q Hq. rewrite Hq in Hdur. symmetry in Hdur.
    apply cycle_duration_positive in Hdur.
    assert (Hnz : ~ q == 0) by (intros E; rewrite E in Hdur; inversion Hdur).
    split; [exact Hnz|].
    pose proof (cycle_mean_slope_cases (ramp_amplitude row) (num q)) as Hc.
    simpl in Hc. destruct (Qeq_bool q 0) eqn:E.
    + apply Qeq_bool_iff in E. contradiction.
    + now rewrite Hslope, Hq.
  - intros Hq. now rewrite Hslope, Hq.
Qed.

Lemma cycle_duration_and_slope_witness :
  exists (frame : Frame) (evs : list Event) (rows : list CycleSummary)
         (ev : Event) (row : CycleSummary),
    simulate_cycle two_level (Some 42%N) = Ok (frame, evs) /\
    summarize_cycles frame evs (initial_state two_level) = Ok rows /\
    evs !! 1%nat = Some ev /\
    rows !! 1%nat = Some row /\
    cycle_start frame evs 1 = Some (start_time row) /\
    (time ev - start_time row <= 0 -> cs_duration row = nan) /\
    (0 < time ev - start_time row -> cs_duration row = num (time ev - start_time row)) /\
    (forall q, cs_duration row = num q ->
       ~ q == 0 /\ mean_slope row = num (ramp_amplitude row / q)) /\
    (cs_duration row = nan -> mean_slope row = nan).
Proof.
  do 5 eexists.
  split; [vm_compute; reflexivity|]. split; [vm_compute; reflexivity|].
  split; [vm_compute; reflexivity|]. split; [vm_compute; reflexivity|].
  eapply (cycle_duration_and_slope _ _ (initial_state two_level) _ 1%nat).
  - vm_compute; reflexivity.
  - vm_compute; reflexivity.
  - vm_compute; reflexivity.
Defined.

(** C8, as stated, fails: with an event to summarize and a sample table
    without rows, reading the first sample's time raises, so no summary is
    returned. *)
Lemma one_summary_per_event_counterexample :
  ~ exists rows : list CycleSummary,
      summarize_cycles empty_frame [first_event] 0 = Ok rows /\
      length rows = length [first_event].
Proof. intros (rows & H & _). discriminate H. Qed.

(** C8 (amended): for every event list and [initial_state], and every
    sample table that has a first row (or any table when there is no
    event), the summarizer returns one [CycleSummary] per event, in event
    order: the result has the length of the event list, is empty when the
    event list is, and its row [k] carries the time, threshold, reset and
    gain of event [k]. *)
Theorem one_summary_per_event (frame : Frame) (evs : list Event) (initial : Q) :
  evs = [] \/ col_time frame <> [] ->
  exists rows : list CycleSummary,
    summarize_cycles frame evs initial = Ok rows /\
    length rows = length evs /\
    (evs = [] -> rows = []) /\
    forall (k : nat) (ev : Event), evs !! k = Some ev ->
      exists row, rows !! k = Some row /\
        end_time row = time ev /\ cs_theta row = ev_theta ev /\
        reset_level row = ev_reset ev /\ release_gain row = ev_delta_s ev.
Proof.
  intros Hok. unfold summarize_cycles.
  destruct evs as [|ev0 evs].
  - exists []. repeat split. intros k ev Hk. discriminate Hk.
  - destruct Hok as [Hnil|Hrows]; [discriminate|].
    destruct (col_time frame) as [|t0 ts] eqn:Ht; [contradiction|]. simpl.
    eexists. split; [reflexivity|]. split; [|split].
    + apply (summarize_loop_length (ev0 :: evs)).
    + discriminate.
    + intros k ev Hk.
      destruct (summarize_loop_row (ev0 :: evs) t0 initial 0 k ev Hk)
        as (row & Hrow & _ & Hend & _ & _ & Hgain & Htheta & Hreset).
      exists row. repeat split; assumption.
Qed.

(** On the integrator's own output the summarizer always returns, since the
    table has a first row. *)
Lemma summarize_after_simulate `{G : Generator} (sc : Scenario) (seed : option N)
    (frame : Frame) (evs : list Event) :
  simulate_cycle sc seed = Ok (frame, evs) ->
  exists rows : list CycleSummary,
    summarize_cycles frame evs (initial_state sc) = Ok rows /\
    length rows = length evs.
Proof.
  intros Hrun.
  destruct (simulate_cycle_trace sc seed frame evs Hrun)
    as (steps & _ & Hge & _ & Hlen & _).
  unfold summarize_cycles. destruct evs as [|ev evs]; [now exists []|].
  destruct (lookup_lt_is_Some_2 (col_time frame) 0%nat) as [t0 Ht0]; [lia|].
  rewrite (proj2 (getitem_Ok _ _ _) Ht0). simpl.
  eexists. split; [reflexivity|]. apply (summarize_loop_length (ev :: evs)).
Qed.

Lemma one_summary_per_event_witness :
  ([first_event] = [] \/ col_time one_release_frame <> []) /\
  exists rows : list CycleSummary,
    summarize_cycles one_release_frame [first_event] 0 = Ok rows /\
    length rows = length [first_event] /\
    ([first_event] = [] -> rows = []) /\
    forall (k : nat) (ev : Event), [first_event] !! k = Some ev ->
      exists row, rows !! k = Some row /\
        end_time row = time ev /\ cs_theta row = ev_theta ev /\
        reset_level row = ev_reset ev /\ release_gain row = ev_delta_s ev.
Proof.
  split; [right; discriminate|].
  apply (one_summary_per_event one_release_frame [first_event] 0).
  right. discriminate.
Defined.

(** ** A well-formed scenario integrates without an exception *)

Section Totality.
Context `{G : Generator}.

Lemma normal_Ok (g : rng_state) (scale : Q) :
  0 <= scale ->
  normal g scale = Ok (0 + scale * (standard_normal g).1, (standard_normal g).2).
Proof.
  intros Hs. unfold normal.
  assert (E : Qltb scale 0 = false) by now apply Qltb_ge.
  rewrite E. now destruct (standard_normal g).
Qed.

Lemma piecewise_rate_total (d : DriverSpec) (t : Q) (s : Segment) (segs : list Segment) :
  segments d = Some (s :: segs) -> exists r, _piecewise_rate d t = Ok r.
Proof.
  intros Hs. unfold _piecewise_rate. rewrite Hs.
  destruct (first_segment_rate (s :: segs) t) as [r|]; [now exists r|].
  destruct (lookup_lt_is_Some_2 (s :: segs) (length (s :: segs) - 1)) as [s' Hs'];
    [simpl; lia|].
  assert (Hget : getitem_neg (s :: segs) 1 = Ok s').
  { apply getitem_neg_Ok. split; [simpl; lia | exact Hs']. }
  rewrite Hget. simpl. now eexists.
Qed.

Lemma driver_derivative_total (d : DriverSpec) (t state : Q) :
  driver_ok d -> exists v, _driver_derivative d t state = Ok v.
Proof.
  unfold _driver_derivative.
  intros [(Hty & [r Hr] & [k Hk]) | [(Hty & [r Hr]) | (Hty & s & segs & Hs)]];
    rewrite Hty; simpl.
  - rewrite Hr, Hk. now eexists.
  - rewrite Hr. now eexists.
  - now apply piecewise_rate_total with s segs.
Qed.

Lemma noisy_derivative_total (d : DriverSpec) (t state : Q) (g : rng_state) :
  driver_ok d -> exists v g', noisy_derivative d t state g = Ok (v, g').
Proof.
  intros Hok. unfold noisy_derivative.
  destruct (driver_derivative_total d t state Hok) as [v ->]. simpl.
  destruct (Qltb 0 (noise_std d)) eqn:E; [|now eexists; eexists].
  apply Qltb_lt in E. rewrite normal_Ok by now apply Qlt_le_weak.
  simpl. now eexists; eexists.
Qed.

Lemma step_total (sc : Scenario) (times : list Q) (n k : nat) (a : Arrays) (g : rng_state) :
  driver_ok (driver sc) ->
  length times = n -> (S k < n)%nat ->
  loop_inv sc times n k a ->
  exists a' g', step sc times (sorted_by_theta (thresholds sc)) (S k) (a, g) = Ok (a', g').
Proof.
  intros Hok Hlen Hk (Hlx & Hlo & Hlr & Hld & _).
  unfold step. rewrite Nat.sub_succ, Nat.sub_0_r.
  destruct (lookup_lt_is_Some_2 times k) as [t_prev Ht]; [lia|].
  destruct (lookup_lt_is_Some_2 times (S k)) as [t Hti]; [lia|].
  destruct (lookup_lt_is_Some_2 (x a) k) as [state Hs]; [lia|].
  destruct (lookup_lt_is_Some_2 (order a) k) as [o Ho]; [lia|].
  rewrite (proj2 (getitem_Ok _ _ _) Ht), (proj2 (getitem_Ok _ _ _) Hs). simpl.
  destruct (noisy_derivative_total (driver sc) t_prev state g Hok) as (v & g' & ->).
  simpl. rewrite !setitem_in_range by lia. simpl.
  rewrite (proj2 (getitem_Ok _ _ _) Ho). simpl.
  destruct (last _) as [sel|].
  - rewrite (proj2 (getitem_Ok _ _ _) Hti). simpl.
    rewrite !setitem_in_range by lia. simpl. now eexists; eexists.
  - rewrite !setitem_in_range by lia. simpl. now eexists; eexists.
Qed.

Lemma for_each_total (sc : Scenario) (times : list Q) (n m : nat) :
  driver_ok (driver sc) ->
  length times = n ->
  forall (k : nat) (a : Arrays) (g : rng_state),
    (k + m < n)%nat ->
    loop_inv sc times n k a ->
    exists a' g',
      for_each (step sc times (sorted_by_theta (thresholds sc))) (seq (S k) m) (a, g)
        = Ok (a', g').
Proof.
  intros Hok Hlen. induction m as [|m IH]; intros k a g Hk Hinv.
  - now exists a, g.
  - destruct (step_total sc times n k a g Hok Hlen) as (a1 & g1 & Hstep);
      [lia | exact Hinv |].
    change (seq (S k) (S m)) with (S k :: seq (S (S k)) m).
    change (for_each ?body (?i :: ?r) ?st) with (body i st ≫= for_each body r).
    rewrite Hstep. simpl. apply IH; [lia|].
    apply (step_preserves sc times n k a a1 g g1); [assumption | lia | assumption..].
Qed.

End Totality.

Lemma linspace_total (start stop : Q) (num : Z) :
  (0 <= num)%Z -> exists l, linspace start stop num = Ok l.
Proof.
  intros Hn. unfold linspace. destruct (Z.ltb_spec num 0); [lia|].
  destruct (Z.ltb_spec 1 num); [|now eexists].
  match goal with |- exists l, setitem_neg ?y 1 stop = Ok l => set (ys := y) end.
  assert (Hlen : length ys = Z.to_nat num).
  { unfold ys. rewrite length_map.
    destruct (0 <? num - 1)%Z; [destruct (Qeq_bool _ _)|];
      now rewrite length_map, length_map, length_seq. }
  unfold setitem_neg. destruct (Nat.leb_spec 1 (length ys)); [|lia].
  rewrite setitem_in_range by lia. now eexists.
Qed.

Lemma step_count_total (sc : Scenario) :
  0 < dt sc -> 0 <= duration sc ->
  exists steps, step_count sc = Ok steps /\ (1 <= steps)%Z.
Proof.
  intros Hdt Hdur. unfold step_count.
  destruct (Qeq_bool (dt sc) 0) eqn:E.
  - apply Qeq_bool_iff in E. rewrite E in Hdt. inversion Hdt.
  - eexists. split; [reflexivity|].
    assert (Hq : 0 <= duration sc / dt sc).
    { apply Qle_shift_div_l; [exact Hdt|]. now rewrite Qmult_0_l. }
    apply Qceiling_resp_le in Hq. change (Qceiling 0) with 0%Z in Hq. lia.
Qed.

(** With [dt > 0], [duration >= 0] and a driver that has its parameters,
    [simulate_cycle] returns. *)
Lemma simulate_cycle_total `{G : Generator} (sc : Scenario) (seed : option N) :
  0 < dt sc -> 0 <= duration sc -> driver_ok (driver sc) ->
  exists frame evs, simulate_cycle sc seed = Ok (frame, evs).
Proof.
  intros Hdt Hdur Hok. unfold simulate_cycle.
  destruct (step_count_total sc Hdt Hdur) as (steps & -> & Hsteps). simpl.
  destruct (linspace_total 0 (duration sc) steps) as [times Htimes]; [lia|].
  rewrite Htimes. simpl.
  pose proof (linspace_length _ _ _ _ Htimes) as [_ Hlen].
  unfold np_zeros, zeros. destruct (Z.ltb_spec steps 0); [lia|]. simpl.
  set (n := Z.to_nat steps) in *.
  rewrite !setitem_in_range by (rewrite length_replicate; lia). simpl.
  pose proof (loop_inv_init sc times n ltac:(lia)) as Hinit.
  destruct (for_each_total sc times n (n - 1) Hok Hlen 0 _ (default_rng seed)
              ltac:(lia) Hinit) as (a & g & Hloop).
  pose proof (for_each_preserves sc times n (n - 1) Hlen 0 _ _ _ _ ltac:(lia) Hinit Hloop)
    as (_ & _ & _ & Hld & _).
  rewrite Hloop. simpl.
  assert (Hfill : exists fill,
             (if (1 <? steps)%Z then getitem_neg (driver_values a) 2 else Ok 0) = Ok fill).
  { destruct (Z.ltb_spec 1 steps); [|now eexists].
    destruct (lookup_lt_is_Some_2 (driver_values a) (length (driver_values a) - 2))
      as [v Hv]; [lia|].
    exists v. apply getitem_neg_Ok. split; [lia | exact Hv]. }
  destruct Hfill as [fill ->]. simpl.
  unfold setitem_neg. destruct (Nat.leb_spec 1 (length (driver_values a))); [|lia].
  rewrite setitem_in_range by lia. simpl. now eexists; eexists.
Qed.

(** ** The ensemble *)

Section EnsembleFacts.
Context `{G : Generator}.

(** A jitter of zero multiplies by one. *)
Lemma normal_zero_scale (g : rng_state) :
  exists n g', normal g 0 = Ok (n, g') /\ n == 0.
Proof.
  rewrite normal_Ok by apply Qle_refl.
  eexists. eexists. split; [reflexivity|]. ring.
Qed.

Lemma jitter_get_absent (jitter : gmap string Q) (key : string) :
  jitter !! key = None -> jitter_get jitter key = 0.
Proof. intros H. unfold jitter_get. now rewrite H. Qed.

Lemma perturb_thresholds_Ok (jitter : gmap string Q) (ths : list ThresholdSpec)
    (g : rng_state) :
  (forall key, 0 <= jitter_get jitter key) ->
  exists ths' g',
    perturb_thresholds jitter ths g = Ok (ths', g') /\
    map delta_s ths' = map delta_s ths /\
    (jitter !! "theta" = None -> Forall2 (fun a b => theta a == theta b) ths' ths) /\
    (jitter !! "reset" = None -> Forall2 (fun a b => reset a == reset b) ths' ths).
Proof.
  intros Hj. revert g. induction ths as [|th ths IH]; intros g.
  - exists [], g. repeat split; constructor.
  - simpl. rewrite normal_Ok by apply Hj. simpl.
    rewrite normal_Ok by apply Hj. simpl.
    destruct (IH (standard_normal (standard_normal g).2).2)
      as (ths' & g' & -> & Hd & Htheta & Hreset).
    simpl. eexists. eexists. split; [reflexivity|]. simpl.
    split; [now rewrite Hd|]. split.
    + intros Habs. constructor; [|now apply Htheta]. simpl.
      rewrite (jitter_get_absent _ _ Habs). ring.
    + intros Habs. constructor; [|now apply Hreset]. simpl.
      rewrite (jitter_get_absent _ _ Habs). ring.
Qed.

Lemma perturb_Ok (sc : Scenario) (jitter : gmap string Q) (index : nat) (g : rng_state) :
  (forall key, 0 <= jitter_get jitter key) ->
  exists p g', perturb sc jitter index g = Ok (p, g') /\ perturbed_copy jitter sc index p.
Proof.
  intros Hj. unfold perturb.
  rewrite normal_Ok by apply Hj. simpl. rewrite normal_Ok by apply Hj. simpl.
  destruct (perturb_thresholds_Ok jitter (thresholds sc)
              (standard_normal (standard_normal g).2).2 Hj)
    as (ths' & g' & -> & Hd & Htheta & Hreset).
  simpl. eexists. eexists. split; [reflexivity|].
  unfold perturbed_copy. simpl. repeat split; try assumption.
  - intros Habs. rewrite (jitter_get_absent _ _ Habs).
    destruct (rate (driver sc)) as [r|]; constructor. ring.
  - intros Habs. rewrite (jitter_get_absent _ _ Habs).
    destruct (leak (driver sc)) as [k|]; constructor. ring.
Qed.

Lemma perturbed_copy_driver_ok (jitter : gmap string Q) (sc p : Scenario) (index : nat)
    (g g' : rng_state) :
  perturb sc jitter index g = Ok (p, g') ->
  driver_ok (driver sc) -> driver_ok (driver p).
Proof.
  unfold perturb. intros H.
  apply bind_Ok in H as ([n1 g1] & _ & H).
  apply bind_Ok in H as ([n2 g2] & _ & H).
  apply bind_Ok in H as ([ths g3] & _ & H).
  injection H as <- _. unfold driver_ok. simpl.
  intros [(Hty & Hr & Hk) | [(Hty & Hr) | Hp]].
  - left. repeat split; [assumption | now apply fmap_is_Some..].
  - right. left. split; [assumption | now apply fmap_is_Some].
  - right. right. exact Hp.
Qed.

End EnsembleFacts.

Section EnsembleMembers.
Context `{G : Generator}.
Variable sc : Scenario.
Variable jitter : gmap string Q.
Hypothesis dt_positive : 0 < dt sc.
Hypothesis duration_nonneg : 0 <= duration sc.
Hypothesis driver_valid : driver_ok (driver sc).
Hypothesis jitter_nonneg : forall key, 0 <= jitter_get jitter key.

Lemma member_Ok (index : nat) (g : rng_state) :
  exists tagged g',
    member sc jitter index g = Ok (tagged, g') /\ member_frame sc jitter index tagged.
Proof.
  unfold member.
  destruct (perturb_Ok sc jitter index g jitter_nonneg) as (p & g1 & Hp & Hcopy).
  rewrite Hp. simpl.
  destruct (integers g1 0 (2 ^ 32 - 1)) as [s g2].
  pose proof (perturbed_copy_driver_ok _ _ _ _ _ _ Hp driver_valid) as Hdrv.
  pose proof Hcopy as (_ & _ & _ & Hdt & Hdur & _).
  destruct (simulate_cycle_total p (Some s)) as (frame & evs & Hrun);
    [now rewrite Hdt | now rewrite Hdur | exact Hdrv |].
  rewrite Hrun. simpl. eexists. eexists. split; [reflexivity|].
  exists p, s, frame, evs. split; [now exists g, g1|].
  split; [exact Hcopy|]. split; [exact Hrun | reflexivity].
Qed.

Lemma members_Ok (idxs : list nat) :
  forall (results : list Frame) (g : rng_state),
  exists new : list Frame,
    members sc jitter idxs results g = Ok (results ++ new) /\
    Forall2 (member_frame sc jitter) idxs new.
Proof.
  induction idxs as [|index rest IH]; intros results g.
  - exists []. split; [simpl; now rewrite app_nil_r | constructor].
  - destruct (member_Ok index g) as (tagged & g' & Hm & Htag).
    destruct (IH (results ++ [tagged]) g') as (new & Hrest & Hall).
    exists (tagged :: new). split; [|now constructor].
    simpl. rewrite Hm. simpl. rewrite Hrest. now rewrite <- app_assoc.
Qed.

End EnsembleMembers.

(** C9, as stated, fails: not every scenario yields an ensemble.  A scenario
    whose linear driver lacks its rate makes the first member's integration
    raise, and [simulate_ensemble] returns no table at all. *)
Lemma ensemble_shape_counterexample :
  ~ exists frames : list Frame,
      simulate_ensemble rateless 1 None None = Ok frames /\ length frames = 1%nat.
Proof. intros (frames & H & _). vm_compute in H. discriminate H. Qed.

(** C9 (amended): for a scenario that the integrator accepts ([dt > 0],
    [duration >= 0], a driver with the parameters of its type), jitter
    values that are not negative and every size [N >= 0],
    [simulate_ensemble] returns exactly [N] sample tables in member order;
    table [k] is the table of [simulate_cycle] on the perturbed copy that
    [perturb] builds, tagged with member index [k]; in that copy every threshold's
    [delta_s] is the base value, and a parameter whose jitter key is absent
    is unchanged. *)
Theorem ensemble_shape `{G : Generator} (sc : Scenario) (n : nat)
    (jitter : option (gmap string Q)) (seed : option N) :
  0 < dt sc -> 0 <= duration sc -> driver_ok (driver sc) ->
  (forall key, 0 <= jitter_get (default ∅ jitter) key) ->
  exists frames : list Frame,
    simulate_ensemble sc (Z.of_nat n) jitter seed = Ok frames /\
    length frames = n /\
    forall k : nat, (k < n)%nat ->
      exists (p : Scenario) (s : N) (frame : Frame) (evs : list Event),
        (exists g g' : rng_state, perturb sc (default ∅ jitter) k g = Ok (p, g')) /\
        perturbed_copy (default ∅ jitter) sc k p /\
        simulate_cycle p (Some s) = Ok (frame, evs) /\
        frames !! k = Some (set_member frame (Z.of_nat k)).
Proof.
  intros Hdt Hdur Hdrv Hjit. unfold simulate_ensemble. rewrite Nat2Z.id.
  destruct (members_Ok sc (default ∅ jitter) Hdt Hdur Hdrv Hjit (seq 0 n) []
              (default_rng seed)) as (frames & Hrun & Hall).
  exists frames. split; [exact Hrun|].
  pose proof (Forall2_length _ _ _ Hall) as Hlen. rewrite length_seq in Hlen.
  split; [now symmetry|].
  intros k Hk.
  destruct (lookup_lt_is_Some_2 frames k) as [tagged Htagged]; [lia|].
  pose proof (Forall2_lookup_lr _ _ _ k k tagged Hall (lookup_seq_lt 0 n k Hk) Htagged)
    as (p & s & frame & evs & Hperturb & Hcopy & Hcycle & ->).
  now exists p, s, frame, evs.
Qed.

Lemma ensemble_shape_witness :
  0 < dt two_level /\ 0 <= duration two_level /\ driver_ok (driver two_level) /\
  (forall key, 0 <= jitter_get (default ∅ (Some rate_jitter)) key) /\
  exists frames : list Frame,
    simulate_ensemble two_level (Z.of_nat 2) (Some rate_jitter) (Some 5%N) = Ok frames /\
    length frames = 2%nat /\
    forall k : nat, (k < 2)%nat ->
      exists (p : Scenario) (s : N) (frame : Frame) (evs : list Event),
        (exists g g' : rng_state,
            perturb two_level (default ∅ (Some rate_jitter)) k g = Ok (p, g')) /\
        perturbed_copy (default ∅ (Some rate_jitter)) two_level k p /\
        simulate_cycle p (Some s) = Ok (frame, evs) /\
        frames !! k = Some (set_member frame (Z.of_nat k)).
Proof.
  assert (Hdrv : driver_ok (driver two_level)).
  { right. left. split; [reflexivity | now eexists]. }
  assert (Hjit : forall key, 0 <= jitter_get (default ∅ (Some rate_jitter)) key).
  { intros key. unfold jitter_get, rate_jitter. simpl.
    destruct (decide (key = "rate")) as [->|Hne].
    - rewrite lookup_singleton_eq. discriminate.
    - rewrite lookup_singleton_ne by congruence. apply Qle_refl. }
  split; [reflexivity|]. split; [discriminate|]. split; [exact Hdrv|].
  split; [exact Hjit|].
  apply (ensemble_shape two_level 2 (Some rate_jitter) (Some 5%N));
    [reflexivity | discriminate | exact Hdrv | exact Hjit].
Defined.

(** * Further properties of the integrator *)

(** ** One step and the whole loop, taken apart *)

Section LoopAnatomy.
Context `{G : Generator}.

(** What a step that returns has read and what it has written. *)
Lemma step_Ok_inv (sc : Scenario) (times : list Q) (ths : list ThresholdSpec)
    (idx : nat) (a a' : Arrays) (g g' : rng_state) :
  step sc times ths idx (a, g) = Ok (a', g') ->
  exists t_prev state derivative order_prev : Q,
    times !! (idx - 1)%nat = Some t_prev /\
    x a !! (idx - 1)%nat = Some state /\
    noisy_derivative (driver sc) t_prev state g = Ok (derivative, g') /\
    order a !! (idx - 1)%nat = Some order_prev /\
    (idx - 1 < length (driver_values a))%nat /\
    (idx < length (order a))%nat /\ (idx < length (x a))%nat /\
    match last (crossed_thresholds ths (state + derivative * dt sc)) with
    | Some sel =>
        exists t : Q,
          times !! idx = Some t /\ (idx < length (releases a))%nat /\
          a' = {| x := <[idx := py_max (reset sel) 0]> (x a);
                  order := <[idx := order_prev + delta_s sel]> (order a);
                  releases := <[idx := 1%Z]> (releases a);
                  driver_values := <[(idx - 1)%nat := derivative]> (driver_values a);
                  events := events a ++
                    [{| time := t;
                        ev_theta := theta sel;
                        ev_reset := reset sel;
                        ev_delta_s := delta_s sel;
                        state_before := state + derivative * dt sc;
                        state_after := reset sel |}] |}
    | None =>
        a' = {| x := <[idx := py_max (state + derivative * dt sc) 0]> (x a);
                order := <[idx := order_prev]> (order a);
                releases := releases a;
                driver_values := <[(idx - 1)%nat := derivative]> (driver_values a);
                events := events a |}
    end.
Proof.
  intros Hstep. unfold step in Hstep.
  apply bind_Ok in Hstep as (t_prev & Ht & Hstep). apply getitem_Ok in Ht.
  apply bind_Ok in Hstep as (state & Hs & Hstep). apply getitem_Ok in Hs.
  apply bind_Ok in Hstep as ([derivative g1] & Hd & Hstep).
  apply bind_Ok in Hstep as (dv & Hdv & Hstep).
  apply setitem_Ok in Hdv as [Hkd ->].
  apply bind_Ok in Hstep as (order_prev & Hop & Hstep). apply getitem_Ok in Hop.
  exists t_prev, state, derivative, order_prev.
  destruct (last (crossed_thresholds ths (state + derivative * dt sc))) as [sel|].
  - apply bind_Ok in Hstep as (t & Hti & Hstep). apply getitem_Ok in Hti.
    apply bind_Ok in Hstep as (ord & Hord & Hstep).
    apply setitem_Ok in Hord as [Hlo ->].
    apply bind_Ok in Hstep as (rel & Hrel & Hstep).
    apply setitem_Ok in Hrel as [Hlr ->].
    apply bind_Ok in Hstep as (xs & Hxs & Hstep).
    apply setitem_Ok in Hxs as [Hlx ->].
    injection Hstep as <- <-.
    repeat split; try assumption. exists t. now repeat split.
  - apply bind_Ok in Hstep as (ord & Hord & Hstep).
    apply setitem_Ok in Hord as [Hlo ->].
    apply bind_Ok in Hstep as (xs & Hxs & Hstep).
    apply setitem_Ok in Hxs as [Hlx ->].
    injection Hstep as <- <-.
    now repeat split.
Qed.

(** Induction over the rows of a loop that returns. *)
Lemma for_each_invariant (P : nat -> Arrays -> Prop)
    (body : nat -> Arrays * rng_state -> result (Arrays * rng_state)) (m : nat) :
  (forall k a g a' g', P k a -> body (S k) (a, g) = Ok (a', g') -> P (S k) a') ->
  forall k a g a' g',
    P k a -> for_each body (seq (S k) m) (a, g) = Ok (a', g') -> P (k + m)%nat a'.
Proof.
  intros Hbody. induction m as [|m IH]; intros k a g a' g' HP Hrun.
  - simpl in Hrun. injection Hrun as <- <-. now rewrite Nat.add_0_r.
  - change (seq (S k) (S m)) with (S k :: seq (S (S k)) m) in Hrun.
    change (for_each body (S k :: seq (S (S k)) m) (a, g))
      with (body (S k) (a, g) ≫= for_each body (seq (S (S k)) m)) in Hrun.
    apply bind_Ok in Hrun as ([a1 g1] & Hstep & Hrun).
    replace (k + S m)%nat with (S k + m)%nat by lia.
    apply (IH (S k) a1 g1 a' g'); [|exact Hrun].
    now apply (Hbody k a g a1 g1).
Qed.

(** A run that returns, as the loop from the initial arrays followed by the
    forward fill of the driver column. *)
Lemma simulate_cycle_inv (sc : Scenario) (seed : option N) (frame : Frame)
    (evs : list Event) :
  simulate_cycle sc seed = Ok (frame, evs) ->
  exists (steps : Z) (times : list Q) (a : Arrays) (g : rng_state) (fill : Q),
    step_count sc = Ok steps /\ (1 <= steps)%Z /\
    linspace 0 (duration sc) steps = Ok times /\
    length times = Z.to_nat steps /\
    for_each (step sc times (sorted_by_theta (thresholds sc)))
      (seq 1 (Z.to_nat steps - 1))
      ({| x := <[0%nat := initial_state sc]> (replicate (Z.to_nat steps) 0);
          order := <[0%nat := 0]> (replicate (Z.to_nat steps) 0);
          releases := replicate (Z.to_nat steps) 0%Z;
          driver_values := replicate (Z.to_nat steps) 0;
          events := [] |}, default_rng seed) = Ok (a, g) /\
    (if (1 <? steps)%Z
     then driver_values a !! (Z.to_nat steps - 2)%nat = Some fill
     else fill = 0) /\
    length (driver_values a) = Z.to_nat steps /\
    frame = {| col_time := times;
               col_accumulator := x a;
               col_order_parameter := order a;
               col_driver := <[(Z.to_nat steps - 1)%nat := fill]> (driver_values a);
               col_release := releases a;
               col_member := None |} /\
    evs = events a.
Proof.
  unfold simulate_cycle. intros H.
  apply bind_Ok in H as (steps & Hsteps & H).
  apply bind_Ok in H as (times & Htimes & H).
  apply bind_Ok in H as (x0 & Hx0 & H). apply np_zeros_Ok in Hx0 as [Hnn ->].
  apply bind_Ok in H as (o0 & Ho0 & H). apply np_zeros_Ok in Ho0 as [_ ->].
  apply bind_Ok in H as (r0 & Hr0 & H). apply np_zeros_Ok in Hr0 as [_ ->].
  apply bind_Ok in H as (d0 & Hd0 & H). apply np_zeros_Ok in Hd0 as [_ ->].
  apply bind_Ok in H as (x1 & Hx1 & H). apply setitem_Ok in Hx1 as [Hpos ->].
  apply bind_Ok in H as (o1 & Ho1 & H). apply setitem_Ok in Ho1 as [_ ->].
  apply bind_Ok in H as ([a g] & Hloop & H).
  apply bind_Ok in H as (fill & Hfill & H).
  apply bind_Ok in H as (dv & Hdv & H).
  injection H as <- <-.
  rewrite length_replicate in Hpos.
  pose proof (linspace_length _ _ _ _ Htimes) as [_ Hlen].
  assert (Hinv : loop_inv sc times (Z.to_nat steps) (0 + (Z.to_nat steps - 1)) a).
  { eapply for_each_preserves; [exact Hlen | lia | | exact Hloop].
    apply loop_inv_init. lia. }
  destruct Hinv as (_ & _ & _ & Hld & _).
  apply setitem_neg_Ok in Hdv as (_ & _ & ->). rewrite Hld.
  exists steps, times, a, g, fill.
  repeat split; try assumption; try lia.
  destruct (Z.ltb_spec 1 steps).
  - apply getitem_neg_Ok in Hfill as [_ Hfill]. now rewrite Hld in Hfill.
  - now injection Hfill as <-.
Qed.

End LoopAnatomy.

(** ** Events, flags and the cumulative order parameter *)

Lemma Qsum_app (l1 l2 : list Q) : Qsum (l1 ++ l2) == Qsum l1 + Qsum l2.
Proof.
  unfold Qsum. induction l1 as [|v l1 IH]; simpl; [ring|]. rewrite IH. ring.
Qed.

Lemma release_count_take_le (rels : list Z) (i j : nat) :
  (i <= j)%nat -> (release_count (take i rels) <= release_count (take j rels))%nat.
Proof.
  intros Hij. rewrite <- (take_drop i (take j rels)).
  rewrite take_take, Nat.min_l by lia. rewrite release_count_app. lia.
Qed.

Lemma StronglySorted_snoc_lt (rows : list nat) (k : nat) :
  StronglySorted Nat.lt rows -> Forall (fun i => i <= k)%nat rows ->
  StronglySorted Nat.lt (rows ++ [S k]).
Proof.
  induction 1 as [|i rows Hs IH Hall]; intros Hle; simpl.
  - repeat constructor.
  - apply Forall_cons_1 in Hle as [Hi Hle]. constructor; [now apply IH|].
    apply Forall_app. split; [exact Hall|]. constructor; [|constructor].
    unfold Nat.lt. lia.
Qed.

Section CumulativeInvariant.
Context `{G : Generator}.

Lemma loop_inv2_init (sc : Scenario) (times : list Q) (n : nat) :
  (0 < n)%nat ->
  loop_inv2 sc times 0
    {| x := <[0%nat := initial_state sc]> (replicate n 0);
       order := <[0%nat := 0]> (replicate n 0);
       releases := replicate n 0%Z;
       driver_values := replicate n 0;
       events := [] |}.
Proof.
  intros Hn. unfold loop_inv2. simpl. repeat split.
  - now apply lookup_replicate_2.
  - intros i r Hr. apply lookup_replicate in Hr as [-> _]. now left.
  - constructor.
  - exists []. repeat constructor.
  - intros i Hi. assert (i = 0%nat) as -> by lia. exists 0. split.
    + apply list_lookup_insert_eq. now rewrite length_replicate.
    + unfold events_upto. now rewrite take_nil.
Qed.

Lemma step_preserves2 (sc : Scenario) (times : list Q) (n k : nat)
    (a a' : Arrays) (g g' : rng_state) :
  loop_inv sc times n k a -> loop_inv2 sc times k a ->
  step sc times (sorted_by_theta (thresholds sc)) (S k) (a, g) = Ok (a', g') ->
  loop_inv2 sc times (S k) a'.
Proof.
  intros (Hlx & Hlo & Hlr & Hld & _ & _ & Hzero & Hev & _)
         (Hr0 & Hflag & Hevs & (rows & Hsorted & Hrows & Htimes) & Hcum) Hstep.
  apply step_Ok_inv in Hstep
    as (t_prev & state & derivative & order_prev & _ & _ & _ & Hop & _ & Hko & _ & Hcase).
  rewrite Nat.sub_succ, Nat.sub_0_r in Hop, Hcase.
  destruct (Hcum k (le_n k)) as (ok & Hok & Hoksum).
  rewrite Hop in Hok. injection Hok as <-.
  assert (Hall : events_upto (releases a) (events a) k = events a).
  { unfold events_upto. apply take_ge. rewrite Hev. lia. }
  rewrite Hall in Hoksum.
  destruct (last _) as [sel|] eqn:Hsel.
  - destruct Hcase as (t & Ht & Hkr & ->). unfold loop_inv2. simpl.
    destruct (selected_highest _ _ _ Hsel) as (Hin & Hle & _).
    split; [now rewrite list_lookup_insert_ne by lia|]. split; [|split; [|split]].
    + intros i r Hr. destruct (decide (i = S k)) as [->|Hne].
      * rewrite list_lookup_insert_eq in Hr by lia. injection Hr as <-. now right.
      * rewrite list_lookup_insert_ne in Hr by lia. now apply (Hflag i).
    + apply Forall_app. split; [exact Hevs|]. constructor; [|constructor].
      exists sel. now repeat split.
    + exists (rows ++ [S k]). split; [|split].
      * apply StronglySorted_snoc_lt; [exact Hsorted|].
        eapply Forall_impl; [exact Hrows|]. simpl. intros i Hi. lia.
      * apply Forall_app. split.
        -- eapply Forall_impl; [exact Hrows|]. simpl. intros i [Hi Hri].
           split; [lia|]. now rewrite list_lookup_insert_ne by lia.
        -- constructor; [|constructor].
           split; [lia|]. now apply list_lookup_insert_eq.
      * apply Forall2_app; [exact Htimes|]. constructor; [exact Ht | constructor].
    + intros i Hi. destruct (decide (i = S k)) as [->|Hne].
      * exists (order_prev + delta_s sel). split; [now apply list_lookup_insert_eq|].
        unfold events_upto.
        rewrite (take_S_r _ (S k) 1%Z) by (apply list_lookup_insert_eq; lia).
        rewrite take_insert_ge by lia.
        rewrite take_ge
          by (rewrite release_count_app, length_app, Hev;
              change (release_count [1%Z]) with 1%nat; cbn [length]; lia).
        rewrite map_app, Qsum_app, <- Hoksum. simpl. ring.
      * destruct (Hcum i ltac:(lia)) as (o & Ho & Hosum).
        exists o. split; [now rewrite list_lookup_insert_ne by lia|].
        rewrite Hosum. unfold events_upto.
        rewrite take_insert_ge by lia.
        rewrite take_app_le; [reflexivity|].
        rewrite Hev. apply release_count_take_le. lia.
  - subst a'. unfold loop_inv2. simpl.
    assert (Hrk : releases a !! S k = Some 0%Z) by (apply Hzero; lia).
    split; [exact Hr0|]. split; [exact Hflag|]. split; [exact Hevs|]. split.
    + exists rows. split; [exact Hsorted|]. split; [|exact Htimes].
      eapply Forall_impl; [exact Hrows|]. simpl. intros i [Hi Hri]. split; [lia|exact Hri].
    + intros i Hi. destruct (decide (i = S k)) as [->|Hne].
      * exists order_prev. split; [now apply list_lookup_insert_eq|].
        unfold events_upto. rewrite (take_S_r _ (S k) 0%Z) by exact Hrk.
        rewrite release_count_app. change (release_count [0%Z]) with 0%nat.
        rewrite Nat.add_0_r, take_ge by (rewrite Hev; lia). exact Hoksum.
      * destruct (Hcum i ltac:(lia)) as (o & Ho & Hosum).
        exists o. split; [now rewrite list_lookup_insert_ne by lia | exact Hosum].
Qed.

(** Both invariants hold for the arrays at the end of the loop. *)
Lemma loop_end_invariants (sc : Scenario) (times : list Q) (n : nat)
    (a : Arrays) (g g' : rng_state) :
  length times = n -> (0 < n)%nat ->
  for_each (step sc times (sorted_by_theta (thresholds sc))) (seq 1 (n - 1))
    ({| x := <[0%nat := initial_state sc]> (replicate n 0);
        order := <[0%nat := 0]> (replicate n 0);
        releases := replicate n 0%Z;
        driver_values := replicate n 0;
        events := [] |}, g) = Ok (a, g') ->
  loop_inv sc times n (n - 1) a /\ loop_inv2 sc times (n - 1) a.
Proof.
  intros Hlen Hn Hloop.
  pose proof (for_each_invariant
    (fun k a => (k < n)%nat /\ loop_inv sc times n k a /\ loop_inv2 sc times k a)
    (step sc times (sorted_by_theta (thresholds sc))) (n - 1)) as Hind.
  destruct (Hind) with (k := 0%nat) (a := {| x := <[0%nat := initial_state sc]> (replicate n 0);
        order := <[0%nat := 0]> (replicate n 0);
        releases := replicate n 0%Z;
        driver_values := replicate n 0;
        events := [] |}) (g := g) (a' := a) (g' := g') as (_ & H1 & H2).
  - intros k b gb b' gb' (Hk & Hi1 & Hi2) Hstep.
    assert (Hlt : (S k < n)%nat).
    { apply step_Ok_inv in Hstep as (? & ? & ? & ? & _ & _ & _ & _ & _ & _ & Hx & _).
      destruct Hi1 as (Hlx & _). lia. }
    split; [exact Hlt|]. split.
    + now apply (step_preserves sc times n k b b' gb gb').
    + now apply (step_preserves2 sc times n k b b' gb gb').
  - split; [lia|]. split; [now apply loop_inv_init | now apply loop_inv2_init].
  - exact Hloop.
  - now split.
Qed.

End CumulativeInvariant.

(** ** The time grid grows *)

(** Every sample of a grid of two or more, the last one included, is
    [start + i * step]. *)
Lemma linspace_value (start stop : Q) (num : Z) (l : list Q) (i : nat) (v : Q) :
  linspace start stop num = Ok l -> (1 < num)%Z -> l !! i = Some v ->
  v == start + inject_Z (Z.of_nat i) * ((stop - start) / inject_Z (num - 1)).
Proof.
  intros H Hn Hv.
  pose proof (linspace_length _ _ _ _ H) as [_ Hlen].
  pose proof (lookup_lt_Some _ _ _ Hv) as Hi.
  destruct (decide (i = Z.to_nat num - 1)%nat) as [->|Hne].
  - rewrite (linspace_last _ _ _ _ H Hn) in Hv. injection Hv as <-.
    replace (Z.of_nat (Z.to_nat num - 1)) with (num - 1)%Z by lia.
    field. change 0 with (inject_Z 0). rewrite inject_Z_injective. lia.
  - apply (linspace_lookup _ _ _ _ _ _ H Hn); [lia | exact Hv].
Qed.

Lemma linspace_increasing (stop : Q) (num : Z) (l : list Q) (i j : nat) (a b : Q) :
  linspace 0 stop num = Ok l -> 0 < stop -> (i < j)%nat ->
  l !! i = Some a -> l !! j = Some b -> a < b.
Proof.
  intros H Hstop Hij Ha Hb.
  pose proof (linspace_length _ _ _ _ H) as [_ Hlen].
  pose proof (lookup_lt_Some _ _ _ Hb) as Hj.
  assert (Hn : (1 < num)%Z) by lia.
  rewrite (linspace_value _ _ _ _ _ _ H Hn Ha), (linspace_value _ _ _ _ _ _ H Hn Hb).
  assert (Hstep : 0 < (stop - 0) / inject_Z (num - 1)).
  { apply Qlt_shift_div_l.
    - change 0 with (inject_Z 0). rewrite <- Zlt_Qlt. lia.
    - rewrite Qmult_0_l. unfold Qminus. now rewrite Qplus_0_r. }
  rewrite !Qplus_0_l. apply Qmult_lt_compat_r; [exact Hstep|].
  rewrite <- Zlt_Qlt. lia.
Qed.

(** More than one sample on a positive step means a positive duration. *)
Lemma duration_positive (d dur : Q) :
  0 < d -> (1 <= Qceiling (dur / d))%Z -> 0 < dur.
Proof.
  intros Hd Hc.
  pose proof (Qceiling_lt (dur / d)) as Hlt.
  assert (Hq : 0 < dur / d).
  { eapply Qle_lt_trans; [|exact Hlt].
    change 0 with (inject_Z 0). rewrite <- Zle_Qle. lia. }
  apply (Qmult_lt_compat_r _ _ d) in Hq; [|exact Hd].
  rewrite Qmult_0_l in Hq.
  assert (E : dur / d * d == dur) by (field; intros E; rewrite E in Hd; inversion Hd).
  now rewrite E in Hq.
Qed.

(** ** What a returned run records *)

(** The second invariant, read off the table and the event list of a run
    that returns, together with the forward fill of the driver column. *)
Lemma simulate_cycle_trace2 `{G : Generator} (sc : Scenario) (seed : option N)
    (frame : Frame) (evs : list Event) :
  simulate_cycle sc seed = Ok (frame, evs) ->
  col_release frame !! 0%nat = Some 0%Z /\
  (forall (i : nat) (r : Z), col_release frame !! i = Some r -> r = 0%Z \/ r = 1%Z) /\
  Forall (event_of sc) evs /\
  (exists rows : list nat,
      StronglySorted Nat.lt rows /\
      Forall (fun i => (1 <= i < length (col_time frame))%nat /\
                       col_release frame !! i = Some 1%Z) rows /\
      Forall2 (fun i ev => col_time frame !! i = Some (time ev)) rows evs) /\
  (forall (i : nat) (o : Q), col_order_parameter frame !! i = Some o ->
     o == Qsum (map ev_delta_s (events_upto (col_release frame) evs i))) /\
  (forall v, last (col_driver frame) = Some v ->
     if (1 <? length (col_driver frame))%nat
     then col_driver frame !! (length (col_driver frame) - 2)%nat = Some v
     else v = 0).
Proof.
  intros Hrun.
  apply simulate_cycle_inv in Hrun
    as (steps & times & a & g & fill & _ & Hge & _ & Hlen & Hloop & Hfill & Hld & -> & ->).
  simpl. set (n := Z.to_nat steps) in *.
  destruct (loop_end_invariants sc times n a _ _ Hlen ltac:(lia) Hloop)
    as ((Hlx & Hlo & Hlr & _) & (Hr0 & Hflag & Hevs & (rows & Hs & Hrows & Ht) & Hcum)).
  split; [exact Hr0|]. split; [exact Hflag|]. split; [exact Hevs|]. split; [|split].
  - exists rows. split; [exact Hs|]. split; [|exact Ht].
    eapply Forall_impl; [exact Hrows|]. simpl. intros i [Hi Hri]. split; [lia|exact Hri].
  - intros i o Ho. pose proof (lookup_lt_Some _ _ _ Ho) as Hi.
    destruct (Hcum i ltac:(lia)) as (o' & Ho' & Hsum).
    rewrite Ho in Ho'. injection Ho' as <-. exact Hsum.
  - intros v Hv. rewrite last_lookup, length_insert, Hld in Hv.
    replace (Init.Nat.pred n) with (n - 1)%nat in Hv by lia.
    rewrite list_lookup_insert_eq in Hv by lia. injection Hv as <-.
    rewrite length_insert, Hld.
    destruct (Z.ltb_spec 1 steps) as [H1|H1].
    + destruct (Nat.ltb_spec 1 n); [|lia].
      rewrite list_lookup_insert_ne by lia. exact Hfill.
    + destruct (Nat.ltb_spec 1 n); [lia|]. exact Hfill.
Qed.

(** X1: a row where no threshold is reached drifts: with
    [proposed = accumulator[i-1] + driver[i-1] * dt] below every [theta], row
    [i >= 1] holds [max(proposed, 0)], the order parameter of the row before
    and the release flag 0. *)
Theorem drift_step `{G : Generator} (sc : Scenario) (seed : option N)
    (frame : Frame) (evs : list Event) (i : nat) (state derivative : Q) :
  simulate_cycle sc seed = Ok (frame, evs) ->
  (1 <= i < length (col_time frame))%nat ->
  col_accumulator frame !! (i - 1)%nat = Some state ->
  col_driver frame !! (i - 1)%nat = Some derivative ->
  (forall th, th ∈ thresholds sc -> state + derivative * dt sc < theta th) ->
  col_accumulator frame !! i = Some (py_max (state + derivative * dt sc) 0) /\
  col_order_parameter frame !! i = col_order_parameter frame !! (i - 1)%nat /\
  col_release frame !! i = Some 0%Z.
Proof.
  intros Hrun Hi Hstate Hder Hbelow.
  destruct (simulate_cycle_trace sc seed frame evs Hrun)
    as (steps & _ & _ & _ & Hlt & _ & _ & _ & _ & _ & _ & _ & _ & Hpost).
  destruct (Hpost i) as (t_prev & s & d & order_prev & _ & Hs & Hd & _ & Ho & P);
    [lia|].
  rewrite Hstate in Hs. injection Hs as <-.
  rewrite Hder in Hd. injection Hd as <-.
  cbv zeta in P. destruct (last _) as [sel|] eqn:Hsel.
  - destruct (selected_highest _ _ _ Hsel) as (Hin & Hle & _).
    apply Hbelow in Hin. now apply Qlt_not_le in Hin.
  - destruct P as (Hx & Hord & Hrel). rewrite Ho. auto.
Qed.

Lemma drift_step_witness :
  exists (frame : Frame) (evs : list Event),
    simulate_cycle negative_start None = Ok (frame, evs) /\
    (1 <= 2 < length (col_time frame))%nat /\
    col_accumulator frame !! (2 - 1)%nat = Some 0 /\
    col_driver frame !! (2 - 1)%nat = Some 1 /\
    (forall th, th ∈ thresholds negative_start ->
       0 + 1 * dt negative_start < theta th) /\
    col_accumulator frame !! 2%nat = Some (py_max (0 + 1 * dt negative_start) 0) /\
    col_order_parameter frame !! 2%nat = col_order_parameter frame !! (2 - 1)%nat /\
    col_release frame !! 2%nat = Some 0%Z.
Proof.
  assert (Hbelow : forall th, th ∈ thresholds negative_start ->
                     0 + 1 * dt negative_start < theta th).
  { intros th Hth. apply list_elem_of_In in Hth.
    destruct Hth as [<-|[]]. reflexivity. }
  eexists. eexists. split; [vm_compute; reflexivity|].
  split; [vm_compute; lia|]. split; [vm_compute; reflexivity|].
  split; [vm_compute; reflexivity|]. split; [exact Hbelow|].
  eapply (drift_step negative_start None _ _ 2).
  - vm_compute; reflexivity.
  - vm_compute. lia.
  - vm_compute; reflexivity.
  - vm_compute; reflexivity.
  - exact Hbelow.
Defined.

Lemma StronglySorted_lookup_lt {A : Type} (R : relation A) (l : list A)
    (p q : nat) (a b : A) :
  StronglySorted R l -> (p < q)%nat -> l !! p = Some a -> l !! q = Some b -> R a b.
Proof.
  intros Hs. revert p q. induction Hs as [|c l Hs IH Hall]; intros p q Hpq Ha Hb.
  - discriminate Ha.
  - destruct q as [|q]; [lia|]. simpl in Hb. destruct p as [|p].
    + simpl in Ha. injection Ha as <-. rewrite Forall_forall in Hall.
      apply Hall. now apply list_elem_of_lookup_2 with q.
    + simpl in Ha. apply (IH p q); [lia | exact Ha | exact Hb].
Qed.

(** X2: at most one event per step.  The release flags are 0 or 1, row 0 is
    never a release, and the event list has exactly as many events as there
    are rows flagged 1. *)
Theorem one_event_per_release_flag `{G : Generator} (sc : Scenario) (seed : option N)
    (frame : Frame) (evs : list Event) :
  simulate_cycle sc seed = Ok (frame, evs) ->
  length evs = release_count (col_release frame) /\
  col_release frame !! 0%nat = Some 0%Z /\
  forall (i : nat) (r : Z), col_release frame !! i = Some r -> r = 0%Z \/ r = 1%Z.
Proof.
  intros Hrun.
  destruct (simulate_cycle_trace sc seed frame evs Hrun)
    as (steps & _ & _ & _ & _ & _ & _ & _ & _ & _ & _ & _ & Hcount & _).
  destruct (simulate_cycle_trace2 sc seed frame evs Hrun) as (Hr0 & Hflag & _).
  now repeat split.
Qed.

Lemma one_event_per_release_flag_witness :
  exists (frame : Frame) (evs : list Event),
    simulate_cycle two_level (Some 42%N) = Ok (frame, evs) /\
    length evs = release_count (col_release frame) /\
    col_release frame !! 0%nat = Some 0%Z /\
    forall (i : nat) (r : Z), col_release frame !! i = Some r -> r = 0%Z \/ r = 1%Z.
Proof.
  eexists. eexists. split; [vm_compute; reflexivity|].
  eapply (one_event_per_release_flag two_level (Some 42%N)).
  vm_compute; reflexivity.
Defined.

(** X3: every recorded event is the firing of one of the scenario's
    thresholds at a row flagged as a release: it carries that threshold's
    [theta], [reset] and [delta_s], its [state_before] has reached [theta],
    its [state_after] is the reset value (not clamped), and its time is the
    time of a row [i >= 1] whose release flag is 1. *)
Theorem events_record_firings `{G : Generator} (sc : Scenario) (seed : option N)
    (frame : Frame) (evs : list Event) (ev : Event) :
  simulate_cycle sc seed = Ok (frame, evs) ->
  ev ∈ evs ->
  (exists th : ThresholdSpec,
      th ∈ thresholds sc /\
      ev_theta ev = theta th /\ ev_reset ev = reset th /\ ev_delta_s ev = delta_s th /\
      theta th <= state_before ev /\ state_after ev = reset th) /\
  exists i : nat,
    (1 <= i)%nat /\ col_time frame !! i = Some (time ev) /\
    col_release frame !! i = Some 1%Z.
Proof.
  intros Hrun Hin.
  destruct (simulate_cycle_trace2 sc seed frame evs Hrun)
    as (_ & _ & Hevs & (rows & _ & Hrows & Htimes) & _).
  split.
  - rewrite Forall_forall in Hevs. now apply Hevs.
  - apply list_elem_of_lookup in Hin as [p Hp].
    destruct (Forall2_lookup_r _ _ _ _ _ Htimes Hp) as (i & Hi & Ht).
    rewrite Forall_forall in Hrows.
    destruct (Hrows i) as [Hbound Hflag]; [now apply list_elem_of_lookup_2 with p|].
    exists i. repeat split; [lia | exact Ht | exact Hflag].
Qed.

Lemma events_record_firings_witness :
  exists (frame : Frame) (evs : list Event) (ev : Event),
    simulate_cycle two_level (Some 42%N) = Ok (frame, evs) /\
    ev ∈ evs /\
    (exists th : ThresholdSpec,
        th ∈ thresholds two_level /\
        ev_theta ev = theta th /\ ev_reset ev = reset th /\
        ev_delta_s ev = delta_s th /\
        theta th <= state_before ev /\ state_after ev = reset th) /\
    exists i : nat,
      (1 <= i)%nat /\ col_time frame !! i = Some (time ev) /\
      col_release frame !! i = Some 1%Z.
Proof.
  eexists. eexists. eexists. split; [vm_compute; reflexivity|].
  split; [left|].
  eapply (events_record_firings two_level (Some 42%N)).
  - vm_compute; reflexivity.
  - left.
Defined.

(** On a positive step size the events follow the rows in time. *)
Lemma event_times_grow `{G : Generator} (sc : Scenario) (seed : option N)
    (frame : Frame) (evs : list Event) :
  0 < dt sc ->
  simulate_cycle sc seed = Ok (frame, evs) ->
  (forall (p q : nat) (e1 e2 : Event),
     (p < q)%nat -> evs !! p = Some e1 -> evs !! q = Some e2 -> time e1 < time e2) /\
  (forall (t0 : Q) (ev : Event),
     col_time frame !! 0%nat = Some t0 -> ev ∈ evs -> t0 < time ev).
Proof.
  intros Hdt Hrun.
  destruct (simulate_cycle_trace2 sc seed frame evs Hrun)
    as (_ & _ & _ & (rows & Hsorted & Hrows & Htimes) & _).
  destruct (simulate_cycle_trace sc seed frame evs Hrun)
    as (steps & Hsteps & Hge & Hgrid & Hlen & _).
  apply step_count_Ok in Hsteps as [_ Hsteps].
  assert (Hgrow : forall i j a b, (i < j)%nat ->
            col_time frame !! i = Some a -> col_time frame !! j = Some b -> a < b).
  { intros i j a b Hij Ha Hb.
    pose proof (lookup_lt_Some _ _ _ Hb) as Hj.
    apply (linspace_increasing _ _ _ i j a b Hgrid); try assumption.
    apply duration_positive with (dt sc); [exact Hdt | lia]. }
  rewrite Forall_forall in Hrows. split.
  - intros p q e1 e2 Hpq He1 He2.
    destruct (Forall2_lookup_r _ _ _ _ _ Htimes He1) as (i & Hi & Hti).
    destruct (Forall2_lookup_r _ _ _ _ _ Htimes He2) as (j & Hj & Htj).
    apply (Hgrow i j); [|exact Hti|exact Htj].
    apply (StronglySorted_lookup_lt _ rows p q i j Hsorted); assumption.
  - intros t0 ev Ht0 Hin.
    apply list_elem_of_lookup in Hin as [p Hp].
    destruct (Forall2_lookup_r _ _ _ _ _ Htimes Hp) as (i & Hi & Hti).
    destruct (Hrows i) as [Hbound _]; [now apply list_elem_of_lookup_2 with p|].
    apply (Hgrow 0%nat i); [lia | exact Ht0 | exact Hti].
Qed.

(** X4: on a positive step size the events are recorded in strictly
    increasing time order, and every event time is later than the first
    sample's time. *)
Theorem event_times_increase `{G : Generator} (sc : Scenario) (seed : option N)
    (frame : Frame) (evs : list Event) :
  0 < dt sc ->
  simulate_cycle sc seed = Ok (frame, evs) ->
  (forall (p q : nat) (e1 e2 : Event),
     (p < q)%nat -> evs !! p = Some e1 -> evs !! q = Some e2 -> time e1 < time e2) /\
  (forall (t0 : Q) (ev : Event),
     col_time frame !! 0%nat = Some t0 -> ev ∈ evs -> t0 < time ev).
Proof. apply event_times_grow. Qed.

Lemma event_times_increase_witness :
  exists (frame : Frame) (evs : list Event),
    0 < dt two_level /\
    simulate_cycle two_level (Some 42%N) = Ok (frame, evs) /\
    (forall (p q : nat) (e1 e2 : Event),
       (p < q)%nat -> evs !! p = Some e1 -> evs !! q = Some e2 -> time e1 < time e2) /\
    (forall (t0 : Q) (ev : Event),
       col_time frame !! 0%nat = Some t0 -> ev ∈ evs -> t0 < time ev).
Proof.
  eexists. eexists. split; [reflexivity|]. split; [vm_compute; reflexivity|].
  eapply (event_times_increase two_level (Some 42%N)).
  - reflexivity.
  - vm_compute; reflexivity.
Defined.

(** X5: the order parameter is the cumulative sum of the fired gains: at
    every row it equals the sum of [delta_s] over the events recorded up to
    that row, and at the last row the sum over all events. *)
Theorem order_parameter_cumulative `{G : Generator} (sc : Scenario) (seed : option N)
    (frame : Frame) (evs : list Event) :
  simulate_cycle sc seed = Ok (frame, evs) ->
  (forall (i : nat) (o : Q), col_order_parameter frame !! i = Some o ->
     o == Qsum (map ev_delta_s (events_upto (col_release frame) evs i))) /\
  (forall o : Q, last (col_order_parameter frame) = Some o ->
     o == Qsum (map ev_delta_s evs)).
Proof.
  intros Hrun.
  destruct (simulate_cycle_trace2 sc seed frame evs Hrun)
    as (_ & _ & _ & _ & Hcum & _).
  destruct (simulate_cycle_trace sc seed frame evs Hrun)
    as (steps & _ & _ & _ & _ & _ & Hlo & _ & Hlr & _ & _ & _ & Hcount & _).
  split; [exact Hcum|].
  intros o Ho. rewrite last_lookup in Ho. rewrite (Hcum _ _ Ho).
  unfold events_upto. rewrite (take_ge (col_release frame)) by lia.
  rewrite take_ge by lia. reflexivity.
Qed.

Lemma order_parameter_cumulative_witness :
  exists (frame : Frame) (evs : list Event),
    simulate_cycle two_level (Some 42%N) = Ok (frame, evs) /\
    (forall (i : nat) (o : Q), col_order_parameter frame !! i = Some o ->
       o == Qsum (map ev_delta_s (events_upto (col_release frame) evs i))) /\
    (forall o : Q, last (col_order_parameter frame) = Some o ->
       o == Qsum (map ev_delta_s evs)).
Proof.
  eexists. eexists. split; [vm_compute; reflexivity|].
  eapply (order_parameter_cumulative two_level (Some 42%N)).
  vm_compute; reflexivity.
Defined.

(** X6: the last slot of the driver column is forward filled: it repeats
    the entry before it, and is 0 in a table of a single row. *)
Theorem driver_column_forward_fill `{G : Generator} (sc : Scenario) (seed : option N)
    (frame : Frame) (evs : list Event) (v : Q) :
  simulate_cycle sc seed = Ok (frame, evs) ->
  last (col_driver frame) = Some v ->
  if (1 <? length (col_driver frame))%nat
  then col_driver frame !! (length (col_driver frame) - 2)%nat = Some v
  else v = 0.
Proof.
  intros Hrun Hv.
  destruct (simulate_cycle_trace2 sc seed frame evs Hrun) as (_ & _ & _ & _ & _ & Hfill).
  now apply Hfill.
Qed.

Lemma driver_column_forward_fill_witness :
  exists (frame : Frame) (evs : list Event),
    simulate_cycle two_level (Some 42%N) = Ok (frame, evs) /\
    last (col_driver frame) = Some (38 # 20) /\
    if (1 <? length (col_driver frame))%nat
    then col_driver frame !! (length (col_driver frame) - 2)%nat = Some (38 # 20)
    else 38 # 20 = 0.
Proof.
  eexists. eexists. split; [vm_compute; reflexivity|].
  split; [vm_compute; reflexivity|].
  eapply (driver_column_forward_fill two_level (Some 42%N)).
  - vm_compute; reflexivity.
  - vm_compute; reflexivity.
Defined.

(** X7: the sample table is rectangular: its five columns have the same
    length, at least one row; there is no member column, and the order
    parameter starts at 0. *)
Theorem table_is_rectangular `{G : Generator} (sc : Scenario) (seed : option N)
    (frame : Frame) (evs : list Event) :
  simulate_cycle sc seed = Ok (frame, evs) ->
  (1 <= length (col_time frame))%nat /\
  length (col_accumulator frame) = length (col_time frame) /\
  length (col_order_parameter frame) = length (col_time frame) /\
  length (col_driver frame) = length (col_time frame) /\
  length (col_release frame) = length (col_time frame) /\
  col_member frame = None /\
  col_order_parameter frame !! 0%nat = Some 0.
Proof.
  intros Hrun.
  destruct (simulate_cycle_trace sc seed frame evs Hrun)
    as (steps & _ & Hge & _ & Hlt & Hlx & Hlo & Hld & Hlr & Hm & _ & Ho0 & _).
  repeat split; try assumption; lia.
Qed.

Lemma table_is_rectangular_witness :
  exists (frame : Frame) (evs : list Event),
    simulate_cycle two_level (Some 42%N) = Ok (frame, evs) /\
    (1 <= length (col_time frame))%nat /\
    length (col_accumulator frame) = length (col_time frame) /\
    length (col_order_parameter frame) = length (col_time frame) /\
    length (col_driver frame) = length (col_time frame) /\
    length (col_release frame) = length (col_time frame) /\
    col_member frame = None /\
    col_order_parameter frame !! 0%nat = Some 0.
Proof.
  eexists. eexists. split; [vm_compute; reflexivity|].
  eapply (table_is_rectangular two_level (Some 42%N)).
  vm_compute; reflexivity.
Defined.

(** * Further properties of the analysis *)

(** ** Cycles of a summary *)

Lemma summarize_loop_gains (evs : list Event) (last_time last_state last_order : Q) :
  map release_gain (summarize_loop evs last_time last_state last_order)
  = map ev_delta_s evs.
Proof.
  revert last_time last_state last_order.
  induction evs as [|ev evs IH]; intros lt ls lo; simpl; [reflexivity|].
  now rewrite IH.
Qed.

(** The amplitude of row [k] is measured from the reset of the event
    before it, or from the initial state. *)
Lemma summarize_loop_amplitude (evs : list Event) (last_time last_state last_order : Q)
    (k : nat) (ev : Event) (row : CycleSummary) :
  evs !! k = Some ev ->
  summarize_loop evs last_time last_state last_order !! k = Some row ->
  ramp_amplitude row
  = state_before ev - match k with
                      | O => last_state
                      | S j => default last_state (ev_reset <$> evs !! j)
                      end.
Proof.
  revert last_time last_state last_order k.
  induction evs as [|ev0 evs IH]; intros lt ls lo k Hk Hrow; [discriminate|].
  destruct k as [|k]; simpl in Hk, Hrow.
  - injection Hk as ->. now injection Hrow as <-.
  - rewrite (IH _ _ _ k Hk Hrow). destruct k as [|k]; [reflexivity|].
    simpl. apply lookup_lt_Some in Hk.
    destruct (lookup_lt_is_Some_2 evs k) as [p Hp]; [lia|]. now rewrite Hp.
Qed.

(** X8: in a cycle summary, ramp_amplitude is the event's state_before less
    the start state, which is initial_state for the first cycle and the
    previous event's reset for a later one; cycles are contiguous: each
    later cycle starts at the end time of the cycle before it. *)
Theorem cycles_are_contiguous (frame : Frame) (evs : list Event) (initial : Q)
    (rows : list CycleSummary) (k : nat) (ev : Event) (row : CycleSummary) :
  summarize_cycles frame evs initial = Ok rows ->
  evs !! k = Some ev ->
  rows !! k = Some row ->
  match k with
  | O => ramp_amplitude row = state_before ev - initial
  | S j => exists before : CycleSummary,
             rows !! j = Some before /\
             start_time row = end_time before /\
             ramp_amplitude row = state_before ev - reset_level before
  end.
Proof.
  intros Hsum Hev Hrow. unfold summarize_cycles in Hsum.
  destruct evs as [|ev0 evs]; [discriminate Hev|].
  apply bind_Ok in Hsum as (t0 & Ht0 & Hsum). injection Hsum as <-.
  pose proof (summarize_loop_amplitude _ _ _ _ _ _ _ Hev Hrow) as Hamp.
  destruct k as [|k]; [exact Hamp|].
  pose proof (lookup_lt_Some _ _ _ Hev) as Hk.
  destruct (lookup_lt_is_Some_2 (ev0 :: evs) k) as [p Hp]; [lia|].
  destruct (summarize_loop_row (ev0 :: evs) t0 initial 0 k p Hp)
    as (before & Hbefore & _ & Hend & _ & _ & _ & _ & Hreset).
  destruct (summarize_loop_row (ev0 :: evs) t0 initial 0 (S k) ev Hev)
    as (row' & Hrow' & Hstart & _).
  pose proof (eq_trans (eq_sym Hrow') Hrow) as Hsame. injection Hsame as ->.
  exists before. split; [exact Hbefore|]. split.
  - rewrite Hstart, Hend. now rewrite Hp.
  - rewrite Hamp, Hreset. now rewrite Hp.
Qed.

Lemma cycles_are_contiguous_witness :
  exists (rows : list CycleSummary) (row : CycleSummary),
    summarize_cycles one_release_frame [first_event; second_event] 0 = Ok rows /\
    [first_event; second_event] !! 1%nat = Some second_event /\
    rows !! 1%nat = Some row /\
    exists before : CycleSummary,
      rows !! 0%nat = Some before /\
      start_time row = end_time before /\
      ramp_amplitude row = state_before second_event - reset_level before.
Proof.
  do 2 eexists.
  split; [vm_compute; reflexivity|]. split; [reflexivity|].
  split; [vm_compute; reflexivity|].
  eapply (cycles_are_contiguous one_release_frame [first_event; second_event] 0 _ 1%nat).
  - vm_compute; reflexivity.
  - reflexivity.
  - vm_compute; reflexivity.
Defined.

(** ** The summary of a run *)

(** X9: summarizing a run made on a positive step size never yields an
    undefined duration: the summarizer returns one row per event, every
    cycle's duration is a positive number and its mean slope is the
    amplitude divided by that duration. *)
Theorem run_cycles_have_duration `{G : Generator} (sc : Scenario) (seed : option N)
    (frame : Frame) (evs : list Event) (initial : Q) :
  0 < dt sc ->
  simulate_cycle sc seed = Ok (frame, evs) ->
  exists rows : list CycleSummary,
    summarize_cycles frame evs initial = Ok rows /\
    length rows = length evs /\
    forall row, row ∈ rows ->
      exists q : Q,
        cs_duration row = num q /\ 0 < q /\
        mean_slope row = num (ramp_amplitude row / q).
Proof.
  intros Hdt Hrun.
  destruct (event_times_grow sc seed frame evs Hdt Hrun) as [Hgrow Hfirst].
  destruct (simulate_cycle_trace sc seed frame evs Hrun)
    as (steps & _ & Hge & _ & Hlen & _).
  unfold summarize_cycles. destruct evs as [|ev0 evs].
  { exists []. repeat split. intros row Hrow. inversion Hrow. }
  destruct (lookup_lt_is_Some_2 (col_time frame) 0%nat) as [t0 Ht0]; [lia|].
  rewrite (proj2 (getitem_Ok _ _ _) Ht0). cbn [mbind result_bind].
  eexists. split; [reflexivity|]. split; [apply (summarize_loop_length (ev0 :: evs))|].
  intros row Hrow. apply list_elem_of_lookup in Hrow as [k Hk].
  pose proof (lookup_lt_Some _ _ _ Hk) as Hklt.
  rewrite (summarize_loop_length (ev0 :: evs)) in Hklt.
  destruct (lookup_lt_is_Some_2 (ev0 :: evs) k Hklt) as [ev Hev].
  destruct (summarize_loop_row (ev0 :: evs) t0 initial 0 k ev Hev)
    as (row' & Hrow' & Hstart & _ & Hdur & Hslope & _).
  pose proof (eq_trans (eq_sym Hrow') Hk) as Hsame. injection Hsame as ->.
  assert (Hpos : 0 < time ev - start_time row).
  { rewrite Hstart. destruct k as [|k].
    - unfold Qminus. rewrite <- Qlt_minus_iff.
      apply (Hfirst t0 ev Ht0). now apply list_elem_of_lookup_2 with 0%nat.
    - destruct (lookup_lt_is_Some_2 (ev0 :: evs) k) as [p Hp]; [lia|].
      rewrite Hp. simpl. unfold Qminus. rewrite <- Qlt_minus_iff.
      apply (Hgrow k (S k) p ev); [lia | exact Hp | exact Hev]. }
  destruct (cycle_duration_cases (time ev) (start_time row)) as [_ Hnum].
  exists (time ev - start_time row).
  split; [now rewrite Hdur, Hnum|]. split; [exact Hpos|].
  rewrite Hslope, Hdur, Hnum by exact Hpos.
  pose proof (cycle_mean_slope_cases (ramp_amplitude row)
                (num (time ev - start_time row))) as Hc.
  simpl in Hc. destruct (Qeq_bool _ 0) eqn:E; [|exact Hc].
  apply Qeq_bool_iff in E. rewrite E in Hpos. inversion Hpos.
Qed.

Lemma run_cycles_have_duration_witness :
  exists (frame : Frame) (evs : list Event),
    0 < dt two_level /\
    simulate_cycle two_level (Some 42%N) = Ok (frame, evs) /\
    exists rows : list CycleSummary,
      summarize_cycles frame evs (initial_state two_level) = Ok rows /\
      length rows = length evs /\
      forall row, row ∈ rows ->
        exists q : Q,
          cs_duration row = num q /\ 0 < q /\
          mean_slope row = num (ramp_amplitude row / q).
Proof.
  eexists. eexists. split; [reflexivity|]. split; [vm_compute; reflexivity|].
  eapply (run_cycles_have_duration two_level (Some 42%N)).
  - reflexivity.
  - vm_compute; reflexivity.
Defined.

(** X10: the release gains of a run's cycle summary add up to the final
    order parameter of its sample table. *)
Theorem run_gains_add_up `{G : Generator} (sc : Scenario) (seed : option N)
    (frame : Frame) (evs : list Event) (initial : Q)
    (rows : list CycleSummary) (final : Q) :
  simulate_cycle sc seed = Ok (frame, evs) ->
  summarize_cycles frame evs initial = Ok rows ->
  last (col_order_parameter frame) = Some final ->
  Qsum (map release_gain rows) == final.
Proof.
  intros Hrun Hsum Hfinal.
  assert (Hgains : map release_gain rows = map ev_delta_s evs).
  { unfold summarize_cycles in Hsum. destruct evs as [|ev0 evs].
    - now injection Hsum as <-.
    - apply bind_Ok in Hsum as (t0 & _ & Hsum). injection Hsum as <-.
      apply (summarize_loop_gains (ev0 :: evs)). }
  rewrite Hgains.
  destruct (simulate_cycle_trace2 sc seed frame evs Hrun)
    as (_ & _ & _ & _ & Hcum & _).
  destruct (simulate_cycle_trace sc seed frame evs Hrun)
    as (steps & _ & _ & _ & _ & _ & Hlo & _ & Hlr & _ & _ & _ & Hcount & _).
  rewrite last_lookup in Hfinal. rewrite (Hcum _ _ Hfinal).
  unfold events_upto. rewrite (take_ge (col_release frame)) by lia.
  rewrite take_ge by lia. reflexivity.
Qed.

Lemma run_gains_add_up_witness :
  exists (frame : Frame) (evs : list Event) (rows : list CycleSummary),
    simulate_cycle two_level (Some 42%N) = Ok (frame, evs) /\
    summarize_cycles frame evs (initial_state two_level) = Ok rows /\
    last (col_order_parameter frame) = Some 8 /\
    Qsum (map release_gain rows) == 8.
Proof.
  do 3 eexists. split; [vm_compute; reflexivity|].
  split; [vm_compute; reflexivity|]. split; [vm_compute; reflexivity|].
  eapply (run_gains_add_up two_level (Some 42%N) _ _ (initial_state two_level)).
  - vm_compute; reflexivity.
  - vm_compute; reflexivity.
  - vm_compute; reflexivity.
Defined.

(** X11: when the initial state and every reset value lie below every
    threshold, every cycle of a run's summary has a positive ramp
    amplitude. *)
Theorem run_amplitudes_positive `{G : Generator} (sc : Scenario) (seed : option N)
    (frame : Frame) (evs : list Event) (rows : list CycleSummary) (row : CycleSummary) :
  (forall th, th ∈ thresholds sc -> initial_state sc < theta th) ->
  (forall th1 th2, th1 ∈ thresholds sc -> th2 ∈ thresholds sc -> reset th1 < theta th2) ->
  simulate_cycle sc seed = Ok (frame, evs) ->
  summarize_cycles frame evs (initial_state sc) = Ok rows ->
  row ∈ rows ->
  0 < ramp_amplitude row.
Proof.
  intros Hinit Hreset Hrun Hsum Hrow.
  destruct (simulate_cycle_trace2 sc seed frame evs Hrun) as (_ & _ & Hevs & _).
  rewrite Forall_forall in Hevs.
  unfold summarize_cycles in Hsum. destruct evs as [|ev0 evs].
  { injection Hsum as <-. inversion Hrow. }
  apply bind_Ok in Hsum as (t0 & _ & Hsum).
  assert (Hrows : rows = summarize_loop (ev0 :: evs) t0 (initial_state sc) 0)
    by now injection Hsum.
  clear Hsum. subst rows.
  apply list_elem_of_lookup in Hrow as [k Hk].
  pose proof (lookup_lt_Some _ _ _ Hk) as Hklt.
  rewrite (summarize_loop_length (ev0 :: evs)) in Hklt.
  destruct (lookup_lt_is_Some_2 (ev0 :: evs) k Hklt) as [ev Hev].
  rewrite (summarize_loop_amplitude _ _ _ _ _ _ _ Hev Hk).
  destruct (Hevs ev) as (th & Hth & _ & _ & _ & Hreach & _);
    [now apply list_elem_of_lookup_2 with k|].
  unfold Qminus. rewrite <- Qlt_minus_iff.
  eapply Qlt_le_trans; [|exact Hreach].
  destruct k as [|k]; [now apply Hinit|].
  destruct (lookup_lt_is_Some_2 (ev0 :: evs) k) as [p Hp]; [lia|].
  rewrite Hp. simpl.
  destruct (Hevs p) as (th' & Hth' & _ & Hr & _);
    [now apply list_elem_of_lookup_2 with k|].
  rewrite Hr. now apply Hreset.
Qed.

Lemma run_amplitudes_positive_witness :
  exists (frame : Frame) (evs : list Event) (rows : list CycleSummary)
         (row : CycleSummary),
    (forall th, th ∈ thresholds two_level -> initial_state two_level < theta th) /\
    (forall th1 th2, th1 ∈ thresholds two_level -> th2 ∈ thresholds two_level ->
       reset th1 < theta th2) /\
    simulate_cycle two_level (Some 42%N) = Ok (frame, evs) /\
    summarize_cycles frame evs (initial_state two_level) = Ok rows /\
    row ∈ rows /\
    0 < ramp_amplitude row.
Proof.
  assert (Hinit : forall th, th ∈ thresholds two_level ->
                    initial_state two_level < theta th).
  { intros th Hth. apply list_elem_of_In in Hth.
    destruct Hth as [<-|[<-|[]]]; reflexivity. }
  assert (Hreset : forall th1 th2, th1 ∈ thresholds two_level ->
                     th2 ∈ thresholds two_level -> reset th1 < theta th2).
  { intros th1 th2 H1 H2. apply list_elem_of_In in H1, H2.
    destruct H1 as [<-|[<-|[]]]; destruct H2 as [<-|[<-|[]]]; reflexivity. }
  do 4 eexists. split; [exact Hinit|]. split; [exact Hreset|].
  split; [vm_compute; reflexivity|]. split; [vm_compute; reflexivity|].
  split; [left|].
  eapply (run_amplitudes_positive two_level (Some 42%N)).
  - exact Hinit.
  - exact Hreset.
  - vm_compute; reflexivity.
  - vm_compute; reflexivity.
  - left.
Defined.

(** * Failure and edge behaviour of the integrator *)

(** A grid that cannot be built.  A zero [dt] makes the division
    raise [ZeroDivisionError]; when [ceil(duration/dt)] is [-1] there is no
    row to hold the initial state and [x[0] = ...] raises [IndexError];
    when it is below [-1] the negative sample count is refused with
    [ValueError]. *)
Theorem grid_errors `{G : Generator} (sc : Scenario) (seed : option N) :
  (dt sc == 0 -> simulate_cycle sc seed = Raise ZeroDivisionError) /\
  (~ dt sc == 0 -> Qceiling (duration sc / dt sc) = (-1)%Z ->
   simulate_cycle sc seed = Raise IndexError) /\
  (~ dt sc == 0 -> (Qceiling (duration sc / dt sc) < -1)%Z ->
   simulate_cycle sc seed = Raise ValueError).
Proof.
  unfold simulate_cycle, step_count. repeat split.
  - intros Hz. apply Qeq_bool_iff in Hz. now rewrite Hz.
  - intros Hnz Hc. destruct (Qeq_bool (dt sc) 0) eqn:E.
    { apply Qeq_bool_iff in E. contradiction. }
    cbn [mbind result_bind]. rewrite Hc. reflexivity.
  - intros Hnz Hc. destruct (Qeq_bool (dt sc) 0) eqn:E.
    { apply Qeq_bool_iff in E. contradiction. }
    cbn [mbind result_bind]. unfold linspace.
    destruct (Z.ltb_spec (Qceiling (duration sc / dt sc) + 1) 0); [reflexivity | lia].
Qed.

Lemma grid_errors_witness :
  simulate_cycle (with_grid two_level 0 3) None = Raise ZeroDivisionError /\
  simulate_cycle (with_grid two_level 1 (-1)) None = Raise IndexError /\
  simulate_cycle (with_grid two_level 1 (-3)) None = Raise ValueError.
Proof.
  split; [|split].
  - now apply (grid_errors (with_grid two_level 0 3) None).
  - now apply (grid_errors (with_grid two_level 1 (-1)) None).
  - now apply (grid_errors (with_grid two_level 1 (-3)) None).
Defined.

(** X12: a run of zero duration does not look at the driver or the
    thresholds: for every driver, valid or not, it returns the single row
    of the initial state, unclamped, and no event. *)
Theorem zero_duration_run `{G : Generator} (sc : Scenario) (seed : option N) :
  ~ dt sc == 0 -> duration sc == 0 ->
  exists t0 : Q,
    t0 == 0 /\
    simulate_cycle sc seed
    = Ok ({| col_time := [t0];
             col_accumulator := [initial_state sc];
             col_order_parameter := [0];
             col_driver := [0];
             col_release := [0%Z];
             col_member := None |}, []).
Proof.
  intros Hnz Hdur. unfold simulate_cycle, step_count.
  destruct (Qeq_bool (dt sc) 0) eqn:E.
  { apply Qeq_bool_iff in E. contradiction. }
  cbn [mbind result_bind].
  assert (Hc : Qceiling (duration sc / dt sc) = 0%Z).
  { rewrite (Qceiling_comp (duration sc / dt sc) 0); [reflexivity|].
    rewrite Hdur. unfold Qdiv. ring. }
  rewrite Hc. eexists. split; [|reflexivity]. cbv beta. simpl inject_Z. ring.
Qed.

Lemma zero_duration_run_witness :
  ~ dt (with_driver rest_at_zero linear_without_rate_drive) == 0 /\
  duration (with_driver rest_at_zero linear_without_rate_drive) == 0 /\
  exists t0 : Q,
    t0 == 0 /\
    simulate_cycle (with_driver rest_at_zero linear_without_rate_drive) None
    = Ok ({| col_time := [t0];
             col_accumulator :=
               [initial_state (with_driver rest_at_zero linear_without_rate_drive)];
             col_order_parameter := [0];
             col_driver := [0];
             col_release := [0%Z];
             col_member := None |}, []).
Proof.
  split; [discriminate|]. split; [reflexivity|].
  apply (zero_duration_run (with_driver rest_at_zero linear_without_rate_drive) None).
  - discriminate.
  - reflexivity.
Defined.

(** A step whose driver evaluation raises, raises the same. *)
Lemma step_driver_error `{G : Generator} (sc : Scenario) (times : list Q)
    (ths : list ThresholdSpec) (idx : nat) (a : Arrays) (g : rng_state) (e : exn)
    (t state : Q) :
  (forall t state, _driver_derivative (driver sc) t state = Raise e) ->
  times !! (idx - 1)%nat = Some t -> x a !! (idx - 1)%nat = Some state ->
  step sc times ths idx (a, g) = Raise e.
Proof.
  intros Hbad Ht Hs. unfold step.
  rewrite (proj2 (getitem_Ok _ _ _) Ht). cbn [mbind result_bind].
  rewrite (proj2 (getitem_Ok _ _ _) Hs). cbn [mbind result_bind].
  unfold noisy_derivative. now rewrite Hbad.
Qed.

(** The first step of a run of two or more rows evaluates the driver at the
    first sample and the initial state. *)
Lemma first_step_error `{G : Generator} (sc : Scenario) (seed : option N) (e : exn) :
  0 < dt sc -> 0 < duration sc ->
  (forall t state, _driver_derivative (driver sc) t state = Raise e) ->
  simulate_cycle sc seed = Raise e.
Proof.
  intros Hdt Hdur Hbad. unfold simulate_cycle.
  destruct (step_count_total sc Hdt (Qlt_le_weak _ _ Hdur)) as (steps & Hsteps & Hge).
  rewrite Hsteps. cbn [mbind result_bind].
  apply step_count_Ok in Hsteps as [_ Hc].
  assert (H2 : (2 <= steps)%Z).
  { assert (Hq : 0 < duration sc / dt sc).
    { apply Qlt_shift_div_l; [exact Hdt | now rewrite Qmult_0_l]. }
    pose proof (Qle_ceiling (duration sc / dt sc)) as Hle.
    assert (Hpos : 0 < inject_Z (Qceiling (duration sc / dt sc)))
      by (eapply Qlt_le_trans; [exact Hq | exact Hle]).
    change 0 with (inject_Z 0) in Hpos. rewrite <- Zlt_Qlt in Hpos. lia. }
  destruct (linspace_total 0 (duration sc) steps) as [times Htimes]; [lia|].
  rewrite Htimes. cbn [mbind result_bind].
  pose proof (linspace_length _ _ _ _ Htimes) as [_ Hlen].
  unfold np_zeros, zeros. destruct (Z.ltb_spec steps 0); [lia|].
  cbn [mbind result_bind].
  rewrite !setitem_in_range by (rewrite length_replicate; lia).
  cbn [mbind result_bind].
  replace (Z.to_nat steps - 1)%nat with (S (Z.to_nat steps - 2)) by lia.
  change (seq 1 (S ?m)) with (1%nat :: seq 2 m).
  change (for_each ?body (?i :: ?r) ?st) with (body i st ≫= for_each body r).
  destruct (lookup_lt_is_Some_2 times 0%nat) as [t0 Ht0]; [lia|].
  rewrite (step_driver_error sc times _ 1 _ _ e t0 (initial_state sc) Hbad Ht0);
    [reflexivity|].
  apply list_lookup_insert_eq. rewrite length_replicate. lia.
Qed.

(** A driver that the drive evaluator refuses makes the whole run
    fail with the evaluator's exception, and no partial table is returned,
    as soon as there is a step to integrate ([dt > 0], [duration > 0]):
    [ValueError] for a missing parameter or an unsupported type,
    [AssertionError] for a piecewise driver without segments and
    [IndexError] for one with an empty segment list. *)
Theorem driver_errors_abort_run `{G : Generator} (sc : Scenario) (seed : option N) :
  0 < dt sc -> 0 < duration sc ->
  (rejected_driver (driver sc) -> simulate_cycle sc seed = Raise ValueError) /\
  (type (driver sc) = "piecewise" -> segments (driver sc) = None ->
   simulate_cycle sc seed = Raise AssertionError) /\
  (type (driver sc) = "piecewise" -> segments (driver sc) = Some [] ->
   simulate_cycle sc seed = Raise IndexError).
Proof.
  intros Hdt Hdur. repeat split.
  - intros Hrej. apply first_step_error; try assumption.
    intros t state. now apply rejected_driver_raises.
  - intros Hty Hs. apply first_step_error; try assumption.
    intros t state. now apply piecewise_absent_segments.
  - intros Hty Hs. apply first_step_error; try assumption.
    intros t state. now apply piecewise_empty_segments.
Qed.

Lemma driver_errors_abort_run_witness :
  simulate_cycle rateless None = Raise ValueError /\
  simulate_cycle (with_driver rateless (piecewise_drive None)) None
    = Raise AssertionError /\
  simulate_cycle (with_driver rateless (piecewise_drive (Some []))) None
    = Raise IndexError.
Proof.
  split; [|split].
  - apply (driver_errors_abort_run rateless None); [reflexivity | reflexivity |].
    now apply linear_without_rate.
  - now apply (driver_errors_abort_run (with_driver rateless (piecewise_drive None)) None).
  - now apply (driver_errors_abort_run
                 (with_driver rateless (piecewise_drive (Some []))) None).
Defined.

(** X13: the integrator accepts every scenario with [dt > 0],
    [duration >= 0] and a driver that holds the parameters of its type: it
    returns a table and an event list, whatever the thresholds (an empty
    threshold sequence included), the initial state, the noise level and
    the seed. *)
Theorem accepted_scenario_returns `{G : Generator} (sc : Scenario) (seed : option N) :
  0 < dt sc -> 0 <= duration sc -> driver_ok (driver sc) ->
  exists frame evs, simulate_cycle sc seed = Ok (frame, evs).
Proof. apply simulate_cycle_total. Qed.

Lemma accepted_scenario_returns_witness :
  0 < dt (with_thresholds two_level []) /\
  0 <= duration (with_thresholds two_level []) /\
  driver_ok (driver (with_thresholds two_level [])) /\
  exists frame evs,
    simulate_cycle (with_thresholds two_level []) (Some 3%N) = Ok (frame, evs).
Proof.
  assert (Hdrv : driver_ok (driver (with_thresholds two_level []))).
  { right. left. split; [reflexivity | now eexists]. }
  split; [reflexivity|]. split; [discriminate|]. split; [exact Hdrv|].
  apply (accepted_scenario_returns (with_thresholds two_level []) (Some 3%N));
    [reflexivity | discriminate | exact Hdrv].
Defined.

(** * Runs without releases, runs without noise *)

Lemma release_count_zero (rels : list Z) :
  release_count rels = 0%nat ->
  (forall (i : nat) (r : Z), rels !! i = Some r -> r = 0%Z \/ r = 1%Z) ->
  Forall (fun r => r = 0%Z) rels.
Proof.
  induction rels as [|r rels IH]; intros Hc Hflag; [constructor|].
  destruct (Hflag 0%nat r eq_refl) as [->| ->].
  - constructor; [reflexivity|]. apply IH.
    + exact Hc.
    + intros i r' Hr'. now apply (Hflag (S i)).
  - discriminate Hc.
Qed.

(** X14: a scenario without thresholds is integrated all the same (no
    error is raised for the empty threshold set): the run records no
    event, no row is flagged as a release and the order parameter stays
    0. *)
Theorem no_thresholds_no_events `{G : Generator} (sc : Scenario) (seed : option N)
    (frame : Frame) (evs : list Event) :
  thresholds sc = [] ->
  simulate_cycle sc seed = Ok (frame, evs) ->
  evs = [] /\
  Forall (fun r => r = 0%Z) (col_release frame) /\
  Forall (fun o => o == 0) (col_order_parameter frame).
Proof.
  intros Hnone Hrun.
  destruct (simulate_cycle_trace2 sc seed frame evs Hrun)
    as (_ & Hflag & Hevs & _ & Hcum & _).
  destruct (simulate_cycle_trace sc seed frame evs Hrun)
    as (steps & _ & _ & _ & _ & _ & _ & _ & _ & _ & _ & _ & Hcount & _).
  assert (Hempty : evs = []).
  { destruct evs as [|ev evs]; [reflexivity|].
    apply Forall_cons_1 in Hevs as [(th & Hth & _) _].
    rewrite Hnone in Hth. inversion Hth. }
  subst evs. split; [reflexivity|]. split.
  - apply release_count_zero; [now symmetry | exact Hflag].
  - apply Forall_forall. intros o Ho. apply list_elem_of_lookup in Ho as [i Hi].
    rewrite (Hcum i o Hi). unfold events_upto. now rewrite take_nil.
Qed.

Lemma no_thresholds_no_events_witness :
  exists (frame : Frame) (evs : list Event),
    thresholds (with_thresholds two_level []) = [] /\
    simulate_cycle (with_thresholds two_level []) (Some 3%N) = Ok (frame, evs) /\
    evs = [] /\
    Forall (fun r => r = 0%Z) (col_release frame) /\
    Forall (fun o => o == 0) (col_order_parameter frame).
Proof.
  eexists. eexists. split; [reflexivity|]. split; [vm_compute; reflexivity|].
  eapply (no_thresholds_no_events (with_thresholds two_level []) (Some 3%N)).
  - reflexivity.
  - vm_compute; reflexivity.
Defined.

Lemma noisy_derivative_quiet `{G : Generator} (d : DriverSpec) (t state v : Q)
    (g g' : rng_state) :
  ~ 0 < noise_std d ->
  noisy_derivative d t state g = Ok (v, g') ->
  _driver_derivative d t state = Ok v /\ g' = g.
Proof.
  intros Hq. unfold noisy_derivative.
  destruct (Qltb 0 (noise_std d)) eqn:E; [apply Qltb_lt in E; contradiction|].
  destruct (_driver_derivative d t state) as [w|e]; simpl; [|discriminate].
  now intros [= -> ->].
Qed.

(** X15: when [noise_std] is not positive (zero, or negative), no noise is
    added: every entry of the driver column but the filled last one is
    exactly what the drive evaluator returns at the time and state of its
    row. *)
Theorem quiet_driver_column `{G : Generator} (sc : Scenario) (seed : option N)
    (frame : Frame) (evs : list Event) (i : nat) (t state d : Q) :
  ~ 0 < noise_std (driver sc) ->
  simulate_cycle sc seed = Ok (frame, evs) ->
  (S i < length (col_time frame))%nat ->
  col_time frame !! i = Some t ->
  col_accumulator frame !! i = Some state ->
  col_driver frame !! i = Some d ->
  _driver_derivative (driver sc) t state = Ok d.
Proof.
  intros Hq Hrun Hi Ht Hs Hd.
  destruct (simulate_cycle_trace sc seed frame evs Hrun)
    as (steps & _ & _ & _ & Hlt & _ & _ & _ & _ & _ & _ & _ & _ & Hpost).
  destruct (Hpost (S i))
    as (t' & s' & d' & o & Ht' & Hs' & Hd' & (g & g' & Hnoisy) & _); [lia|].
  rewrite Nat.sub_succ, Nat.sub_0_r in Ht', Hs', Hd'.
  rewrite Ht in Ht'. injection Ht' as <-.
  rewrite Hs in Hs'. injection Hs' as <-.
  rewrite Hd in Hd'. injection Hd' as <-.
  now apply (noisy_derivative_quiet _ _ _ _ _ _ Hq) in Hnoisy.
Qed.

Lemma quiet_driver_column_witness :
  exists (frame : Frame) (evs : list Event),
    ~ 0 < noise_std (driver negative_start) /\
    simulate_cycle negative_start None = Ok (frame, evs) /\
    (S 1 < length (col_time frame))%nat /\
    col_time frame !! 1%nat = Some (1 # 4) /\
    col_accumulator frame !! 1%nat = Some 0 /\
    col_driver frame !! 1%nat = Some 1 /\
    _driver_derivative (driver negative_start) (1 # 4) 0 = Ok 1.
Proof.
  eexists. eexists. split; [discriminate|]. split; [vm_compute; reflexivity|].
  split; [vm_compute; lia|]. split; [vm_compute; reflexivity|].
  split; [vm_compute; reflexivity|]. split; [vm_compute; reflexivity|].
  eapply (quiet_driver_column negative_start None _ _ 1).
  - discriminate.
  - vm_compute; reflexivity.
  - vm_compute. lia.
  - vm_compute; reflexivity.
  - vm_compute; reflexivity.
  - vm_compute; reflexivity.
Defined.

(** * The order in which thresholds are listed *)

Lemma insert_by_theta_comm (a b : ThresholdSpec) (l : list ThresholdSpec) :
  theta a < theta b ->
  insert_by_theta a (insert_by_theta b l) = insert_by_theta b (insert_by_theta a l).
Proof.
  intros Hab.
  assert (Hab' : Qltb (theta a) (theta b) = true) by now apply Qltb_lt.
  assert (Hba : Qltb (theta b) (theta a) = false)
    by (apply Qltb_ge; now apply Qlt_le_weak).
  induction l as [|y l IH]; simpl.
  - now rewrite Hba, Hab'.
  - destruct (Qltb (theta y) (theta b)) eqn:Eyb;
      destruct (Qltb (theta y) (theta a)) eqn:Eya; simpl;
      rewrite ?Eyb, ?Eya, ?Hab', ?Hba; try reflexivity.
    + now rewrite IH.
    + apply Qltb_lt in Eya. apply Qltb_ge in Eyb.
      exfalso. apply (Qlt_irrefl (theta y)).
      eapply Qlt_trans; [exact Eya|]. eapply Qlt_le_trans; [exact Hab | exact Eyb].
Qed.

Lemma insert_by_theta_swap (a b : ThresholdSpec) (l : list ThresholdSpec) :
  ~ theta a == theta b ->
  insert_by_theta a (insert_by_theta b l) = insert_by_theta b (insert_by_theta a l).
Proof.
  intros Hne. destruct (Q_dec (theta a) (theta b)) as [[Hlt|Hgt]|Heq].
  - now apply insert_by_theta_comm.
  - symmetry. now apply insert_by_theta_comm.
  - contradiction.
Qed.

(** Sorting forgets the listing order when no two thresholds share a
    [theta]. *)
Lemma sorted_by_theta_permutation (l1 l2 : list ThresholdSpec) :
  l1 ≡ₚ l2 ->
  NoDup (map (fun th => Qred (theta th)) l1) ->
  sorted_by_theta l1 = sorted_by_theta l2.
Proof.
  induction 1 as [|a l1 l2 Hperm IH|a b l|l1 l2 l3 H12 IH12 H23 IH23]; intros Hnd.
  - reflexivity.
  - simpl. rewrite IH; [reflexivity|]. simpl in Hnd. now apply NoDup_cons_1_2 in Hnd.
  - simpl. apply insert_by_theta_swap.
    simpl in Hnd. apply NoDup_cons_1_1 in Hnd.
    intros Heq. apply Hnd. apply elem_of_cons. left. now apply Qred_complete.
  - rewrite IH12 by exact Hnd. apply IH23.
    eapply NoDup_Permutation_proper; [|exact Hnd].
    symmetry. now apply Permutation_map.
Qed.

(** X16: thresholds are processed in ascending [theta] order whatever the
    order they are listed in: two scenarios that differ only in the order
    of their thresholds, no two of which share a [theta], have the same
    run. *)
Theorem threshold_order_is_irrelevant `{G : Generator} (sc : Scenario)
    (ths1 ths2 : list ThresholdSpec) (seed : option N) :
  ths1 ≡ₚ ths2 ->
  NoDup (map (fun th => Qred (theta th)) ths1) ->
  simulate_cycle (with_thresholds sc ths1) seed
  = simulate_cycle (with_thresholds sc ths2) seed.
Proof.
  intros Hperm Hnd. unfold simulate_cycle, step_count. simpl.
  rewrite (sorted_by_theta_permutation ths1 ths2 Hperm Hnd).
  destruct (Qeq_bool (dt sc) 0); [reflexivity|]. cbn [mbind result_bind].
  destruct (linspace 0 (duration sc) _) as [times|e]; [|reflexivity].
  cbn [mbind result_bind].
  destruct (np_zeros 0 _) as [zs|e]; [|reflexivity]. cbn [mbind result_bind].
  destruct (np_zeros 0%Z _) as [rs|e]; [|reflexivity]. cbn [mbind result_bind].
  destruct (setitem zs 0 (initial_state sc)) as [x0|e]; [|reflexivity].
  cbn [mbind result_bind].
  destruct (setitem zs 0 0) as [o0|e]; [|reflexivity]. cbn [mbind result_bind].
  reflexivity.
Qed.

Lemma threshold_order_is_irrelevant_witness :
  thresholds two_level ≡ₚ reverse (thresholds two_level) /\
  NoDup (map (fun th => Qred (theta th)) (thresholds two_level)) /\
  simulate_cycle (with_thresholds two_level (thresholds two_level)) (Some 42%N)
  = simulate_cycle (with_thresholds two_level (reverse (thresholds two_level)))
      (Some 42%N).
Proof.
  assert (Hperm : thresholds two_level ≡ₚ reverse (thresholds two_level)).
  { symmetry. apply reverse_Permutation. }
  assert (Hnd : NoDup (map (fun th => Qred (theta th)) (thresholds two_level))).
  { apply NoDup_cons. split.
    - intros Hin. apply list_elem_of_In in Hin. destruct Hin as [Hin|[]].
      discriminate Hin.
    - apply NoDup_singleton. }
  split; [exact Hperm|]. split; [exact Hnd|].
  apply (threshold_order_is_irrelevant two_level _ _ (Some 42%N) Hperm Hnd).
Defined.

(** * The drive evaluator *)

Lemma first_segment_rate_Some (segs : list Segment) (t r : Q) :
  first_segment_rate segs t = Some r ->
  exists (before : list Segment) (seg : Segment) (after : list Segment),
    segs = before ++ seg :: after /\
    Forall (fun s => seg_end s < t) before /\
    t <= seg_end seg /\ r = seg_rate seg.
Proof.
  induction segs as [|s segs IH]; simpl; [discriminate|].
  destruct (Qle_bool t (seg_end s)) eqn:E.
  - intros [= <-]. apply Qle_bool_iff in E.
    exists [], s, segs. repeat split; [constructor | exact E].
  - intros Hr. destruct (IH Hr) as (before & seg & after & -> & Hall & Hle & ->).
    exists (s :: before), seg, after. repeat split; try assumption.
    constructor; [|exact Hall].
    apply Qnot_le_lt. intros H. apply Qle_bool_iff in H. congruence.
Qed.

Lemma first_segment_rate_None (segs : list Segment) (t : Q) :
  first_segment_rate segs t = None -> Forall (fun s => seg_end s < t) segs.
Proof.
  induction segs as [|s segs IH]; simpl; [constructor|].
  destruct (Qle_bool t (seg_end s)) eqn:E; [discriminate|].
  intros Hr. constructor; [|now apply IH].
  apply Qnot_le_lt. intros H. apply Qle_bool_iff in H. congruence.
Qed.

(** X17: for a piecewise driver with at least one segment the evaluator
    never fails and ignores the state: it returns the rate of the first
    segment, in the listed order, whose end is not before the time, and
    the rate of the last segment when the time is past every end. *)
Theorem piecewise_rate_spec (d : DriverSpec) (t state : Q) (segs : list Segment) :
  type d = "piecewise" -> segments d = Some segs -> segs <> [] ->
  exists r : Q,
    _driver_derivative d t state = Ok r /\
    ((exists (before : list Segment) (seg : Segment) (after : list Segment),
         segs = before ++ seg :: after /\
         Forall (fun s => seg_end s < t) before /\
         t <= seg_end seg /\ r = seg_rate seg) \/
     (Forall (fun s => seg_end s < t) segs /\
      exists seg, last segs = Some seg /\ r = seg_rate seg)).
Proof.
  intros Hty Hs Hne. unfold _driver_derivative, _piecewise_rate.
  rewrite Hty, Hs. simpl.
  destruct (first_segment_rate segs t) as [r|] eqn:E.
  - exists r. split; [reflexivity|]. left. now apply first_segment_rate_Some.
  - destruct (last segs) as [seg|] eqn:El; [|apply last_None in El; contradiction].
    assert (Hget : getitem_neg segs 1 = Ok seg).
    { apply getitem_neg_Ok. rewrite last_lookup in El.
      pose proof (lookup_lt_Some _ _ _ El) as Hlt. split; [lia|].
      now replace (length segs - 1)%nat with (Init.Nat.pred (length segs)) by lia. }
    rewrite Hget. simpl. exists (seg_rate seg). split; [reflexivity|].
    right. split; [now apply first_segment_rate_None|]. now exists seg.
Qed.

Lemma piecewise_rate_spec_witness :
  type (piecewise_drive (Some two_regimes)) = "piecewise" /\
  segments (piecewise_drive (Some two_regimes)) = Some two_regimes /\
  two_regimes <> [] /\
  exists r : Q,
    _driver_derivative (piecewise_drive (Some two_regimes)) 5 0 = Ok r /\
    ((exists (before : list Segment) (seg : Segment) (after : list Segment),
         two_regimes = before ++ seg :: after /\
         Forall (fun s => seg_end s < 5) before /\
         5 <= seg_end seg /\ r = seg_rate seg) \/
     (Forall (fun s => seg_end s < 5) two_regimes /\
      exists seg, last two_regimes = Some seg /\ r = seg_rate seg)).
Proof.
  split; [reflexivity|]. split; [reflexivity|]. split; [discriminate|].
  apply (piecewise_rate_spec (piecewise_drive (Some two_regimes)) 5 0 two_regimes);
    [reflexivity | reflexivity | discriminate].
Defined.

(** * Further properties of the ensemble driver *)

(** An ensemble of size zero or less is empty, and the scenario is
    not looked at: no member is built, so even a scenario that the
    integrator would refuse raises nothing. *)
Theorem empty_ensemble `{G : Generator} (sc : Scenario) (size : Z)
    (jitter : option (gmap string Q)) (seed : option N) :
  (size <= 0)%Z -> simulate_ensemble sc size jitter seed = Ok [].
Proof.
  intros Hsize. unfold simulate_ensemble.
  now replace (Z.to_nat size) with 0%nat by lia.
Qed.

Lemma empty_ensemble_witness :
  (-2 <= 0)%Z /\ simulate_ensemble rateless (-2) None None = Ok [].
Proof.
  split; [lia|]. apply (empty_ensemble rateless (-2) None None). lia.
Defined.

Section EnsembleAnatomy.
Context `{G : Generator}.

Lemma normal_Raise (g : rng_state) (scale : Q) (e : exn) :
  normal g scale = Raise e -> e = ValueError.
Proof.
  unfold normal. destruct (Qltb scale 0); [now intros [= <-]|].
  destruct (standard_normal g). discriminate.
Qed.

Lemma perturb_thresholds_Raise (jitter : gmap string Q) (ths : list ThresholdSpec)
    (g : rng_state) (e : exn) :
  perturb_thresholds jitter ths g = Raise e -> e = ValueError.
Proof.
  revert g. induction ths as [|th ths IH]; intros g; simpl; [discriminate|].
  destruct (normal g (jitter_get jitter "theta")) as [[n1 g1]|e1] eqn:E1; simpl;
    [|intros [= <-]; now apply normal_Raise in E1].
  destruct (normal g1 (jitter_get jitter "reset")) as [[n2 g2]|e2] eqn:E2; simpl;
    [|intros [= <-]; now apply normal_Raise in E2].
  destruct (perturb_thresholds jitter ths g2) as [[rest g3]|e3] eqn:E3; simpl;
    [discriminate|]. intros [= <-]. now apply IH in E3.
Qed.

(** What [perturb] always keeps, and the only way it fails. *)
Lemma perturb_inv (sc : Scenario) (jitter : gmap string Q) (index : nat)
    (g : rng_state) :
  match perturb sc jitter index g with
  | Ok (p, _) =>
      dt p = dt sc /\ duration p = duration sc /\
      initial_state p = initial_state sc /\
      type (driver p) = type (driver sc) /\
      segments (driver p) = segments (driver sc) /\
      (rate (driver sc) = None -> rate (driver p) = None) /\
      (leak (driver sc) = None -> leak (driver p) = None)
  | Raise e => e = ValueError
  end.
Proof.
  unfold perturb.
  destruct (normal g (jitter_get jitter "rate")) as [[n1 g1]|e1] eqn:E1; simpl;
    [|now apply normal_Raise in E1].
  destruct (normal g1 (jitter_get jitter "leak")) as [[n2 g2]|e2] eqn:E2; simpl;
    [|now apply normal_Raise in E2].
  destruct (perturb_thresholds jitter (thresholds sc) g2) as [[ths g3]|e3] eqn:E3;
    simpl; [|now apply perturb_thresholds_Raise in E3].
  repeat split; now intros ->.
Qed.

(** The members of a result list, one by one. *)
Lemma members_inv (sc : Scenario) (jitter : gmap string Q) (idxs : list nat) :
  forall (results out : list Frame) (g : rng_state),
    members sc jitter idxs results g = Ok out ->
    exists new : list Frame,
      out = results ++ new /\
      Forall2 (fun index tagged =>
                 exists (p : Scenario) (s : N) (frame : Frame) (evs : list Event),
                   dt p = dt sc /\ duration p = duration sc /\
                   initial_state p = initial_state sc /\
                   simulate_cycle p (Some s) = Ok (frame, evs) /\
                   tagged = set_member frame (Z.of_nat index)) idxs new.
Proof.
  induction idxs as [|index rest IH]; intros results out g Hrun.
  - simpl in Hrun. injection Hrun as <-. exists []. split; [now rewrite app_nil_r|].
    constructor.
  - simpl in Hrun. apply bind_Ok in Hrun as ([tagged g1] & Hm & Hrun).
    apply IH in Hrun as (new & -> & Hall).
    exists (tagged :: new). split; [now rewrite <- app_assoc|].
    constructor; [|exact Hall].
    unfold member in Hm. pose proof (perturb_inv sc jitter index g) as Hp.
    destruct (perturb sc jitter index g) as [[p g2]|e]; [|discriminate Hm].
    simpl in Hm. destruct (integers g2 0 (2 ^ 32 - 1)) as [s g3].
    apply bind_Ok in Hm as ([frame evs] & Hcycle & Hm). injection Hm as <- _.
    destruct Hp as (Hdt & Hdur & Hinit & _).
    now exists p, s, frame, evs.
Qed.

End EnsembleAnatomy.



(** X20: whatever an ensemble returns, it returns one table per member, and
    every member shares the base scenario's grid and start: table [k] has
    the time column of the base scenario's grid, starts at the base
    [initial_state], carries [k] in every row of its member column, and its
    accumulator is [>= 0] from row 1 on. *)
Theorem ensemble_members_share_grid `{G : Generator} (sc : Scenario) (size : Z)
    (jitter : option (gmap string Q)) (seed : option N)
    (frames : list Frame) (k : nat) (f : Frame) :
  simulate_ensemble sc size jitter seed = Ok frames ->
  frames !! k = Some f ->
  length frames = Z.to_nat size /\
  (exists steps, step_count sc = Ok steps /\
                 linspace 0 (duration sc) steps = Ok (col_time f)) /\
  col_accumulator f !! 0%nat = Some (initial_state sc) /\
  col_member f = Some (replicate (length (col_time f)) (Z.of_nat k)) /\
  forall (i : nat) (v : Q),
    (1 <= i)%nat -> col_accumulator f !! i = Some v -> 0 <= v.
Proof.
  intros Hrun Hk. unfold simulate_ensemble in Hrun.
  apply members_inv in Hrun as (new & -> & Hall). simpl in Hk. simpl.
  pose proof (Forall2_length _ _ _ Hall) as Hlen. rewrite length_seq in Hlen.
  split; [now symmetry|].
  destruct (Forall2_lookup_r _ _ _ _ _ Hall Hk)
    as (index & Hindex & p & s & frame & evs & Hdt & Hdur & Hinit & Hcycle & ->).
  apply lookup_seq in Hindex as [-> _]. simpl.
  destruct (simulate_cycle_trace p (Some s) frame evs Hcycle)
    as (steps & Hsteps & _ & Hgrid & _ & Hlx & _ & _ & _ & _ & Hx0 & _ & _ & Hpost).
  split; [|split; [|split]].
  - exists steps. split; [|now rewrite <- Hdur].
    unfold step_count in *. now rewrite <- Hdt, <- Hdur.
  - now rewrite <- Hinit.
  - reflexivity.
  - intros i v Hi Hv.
    assert (Hlt : (i < Z.to_nat steps)%nat).
    { rewrite <- Hlx. now apply lookup_lt_Some with v. }
    destruct (Hpost i) as (? & ? & ? & ? & _ & _ & _ & _ & _ & P); [lia|].
    cbv zeta in P. destruct (last _) as [sel|].
    + destruct P as (t & _ & Hxi & _). rewrite Hv in Hxi. injection Hxi as ->.
      apply py_max_nonneg.
    + destruct P as (Hxi & _). rewrite Hv in Hxi. injection Hxi as ->.
      apply py_max_nonneg.
Qed.

Lemma ensemble_members_share_grid_witness :
  exists (frames : list Frame) (f : Frame),
    simulate_ensemble two_level 2 (Some rate_jitter) (Some 5%N) = Ok frames /\
    frames !! 1%nat = Some f /\
    length frames = Z.to_nat 2 /\
    (exists steps, step_count two_level = Ok steps /\
                   linspace 0 (duration two_level) steps = Ok (col_time f)) /\
    col_accumulator f !! 0%nat = Some (initial_state two_level) /\
    col_member f = Some (replicate (length (col_time f)) (Z.of_nat 1)) /\
    forall (i : nat) (v : Q),
      (1 <= i)%nat -> col_accumulator f !! i = Some v -> 0 <= v.
Proof.
  eexists. eexists. split; [vm_compute; reflexivity|].
  split; [vm_compute; reflexivity|].
  eapply (ensemble_members_share_grid two_level 2 (Some rate_jitter) (Some 5%N)).
  - vm_compute; reflexivity.
  - vm_compute; reflexivity.
Defined.

(** * Further properties of the viability margin *)

Lemma py_max_of_Ok (l : list Q) (top : Q) :
  py_max_of l = Ok top -> top ∈ l /\ forall y, y ∈ l -> y <= top.
Proof.
  destruct l as [|v rest]; [discriminate|]. simpl. intros [= <-].
  apply fold_py_max_spec.
Qed.

Lemma py_max_of_permutation (l1 l2 : list Q) (top1 : Q) :
  l1 ≡ₚ l2 -> py_max_of l1 = Ok top1 ->
  exists top2, py_max_of l2 = Ok top2 /\ top1 == top2.
Proof.
  intros Hperm H1. destruct (py_max_of_Ok _ _ H1) as [Hin1 Hmax1].
  destruct l2 as [|v rest] eqn:E.
  { apply Permutation_nil_r in Hperm. subst l1. discriminate H1. }
  rewrite <- E in *. assert (H2 : exists top2, py_max_of l2 = Ok top2).
  { rewrite E. simpl. now eexists. }
  destruct H2 as [top2 H2]. exists top2. split; [exact H2|].
  destruct (py_max_of_Ok _ _ H2) as [Hin2 Hmax2].
  apply Qle_antisym.
  - apply Hmax2. now rewrite <- Hperm.
  - apply Hmax1. now rewrite Hperm.
Qed.

(** X21: the viability margin does not depend on the order in which the
    thresholds are listed: for a reordered threshold sequence the
    calculator returns the same current state, and an equal top threshold,
    margin and relative margin (undefined in both or in neither). *)
Theorem margin_ignores_threshold_order (frame : Frame) (ths1 ths2 : list ThresholdSpec)
    (r1 : Margin) :
  ths1 ≡ₚ ths2 ->
  compute_viability_margin frame ths1 = Ok r1 ->
  exists r2 : Margin,
    compute_viability_margin frame ths2 = Ok r2 /\
    current_state r2 = current_state r1 /\
    top_threshold r2 == top_threshold r1 /\
    margin r2 == margin r1 /\
    match relative_margin r1, relative_margin r2 with
    | num a, num b => a == b
    | nan, nan => True
    | _, _ => False
    end.
Proof.
  intros Hperm H1. unfold compute_viability_margin in *.
  apply bind_Ok in H1 as (top1 & Htop1 & H1).
  apply bind_Ok in H1 as (cur & Hcur & H1). injection H1 as <-.
  destruct (py_max_of_permutation (map theta ths1) (map theta ths2) top1)
    as (top2 & Htop2 & Heq); [now apply Permutation_map | exact Htop1 |].
  rewrite Htop2, Hcur. simpl. eexists. split; [reflexivity|]. simpl.
  split; [reflexivity|]. split; [now symmetry|]. split; [now rewrite Heq|].
  rewrite <- (Qeqb_comp top1 top2 Heq 0 0 (Qeq_refl 0)).
  destruct (Qeq_bool top1 0) eqn:E; simpl; [exact I|].
  now rewrite Heq.
Qed.

Lemma margin_ignores_threshold_order_witness :
  exists r1 : Margin,
    thresholds two_level ≡ₚ reverse (thresholds two_level) /\
    compute_viability_margin at_top_frame (thresholds two_level) = Ok r1 /\
    exists r2 : Margin,
      compute_viability_margin at_top_frame (reverse (thresholds two_level)) = Ok r2 /\
      current_state r2 = current_state r1 /\
      top_threshold r2 == top_threshold r1 /\
      margin r2 == margin r1 /\
      match relative_margin r1, relative_margin r2 with
      | num a, num b => a == b
      | nan, nan => True
      | _, _ => False
      end.
Proof.
  assert (Hperm : thresholds two_level ≡ₚ reverse (thresholds two_level)).
  { symmetry. apply reverse_Permutation. }
  eexists. split; [exact Hperm|]. split; [vm_compute; reflexivity|].
  eapply (margin_ignores_threshold_order at_top_frame _ _ _ Hperm).
  vm_compute; reflexivity.
Defined.

(** X22: headroom after a drift.  When a run of two or more rows does not
    end on a release, its last state is below every threshold that is
    positive: the margin to a positive top threshold is positive. *)
Theorem margin_positive_after_drift `{G : Generator} (sc : Scenario) (seed : option N)
    (frame : Frame) (evs : list Event) (r : Margin) :
  simulate_cycle sc seed = Ok (frame, evs) ->
  (2 <= length (col_time frame))%nat ->
  last (col_release frame) = Some 0%Z ->
  compute_viability_margin frame (thresholds sc) = Ok r ->
  0 < top_threshold r ->
  0 < margin r.
Proof.
  intros Hrun Hrows Hlast Hmargin Htop.
  destruct (simulate_cycle_trace sc seed frame evs Hrun)
    as (steps & _ & _ & _ & Hlt & Hlx & _ & _ & Hlr & _ & _ & _ & _ & Hpost).
  unfold compute_viability_margin in Hmargin.
  apply bind_Ok in Hmargin as (top & Htopmax & Hmargin).
  apply bind_Ok in Hmargin as (cur & Hcur & Hmargin). injection Hmargin as <-.
  simpl in *. apply py_max_of_Ok in Htopmax as [Hin _].
  apply list_elem_of_fmap in Hin as (th & -> & Hth).
  apply getitem_neg_Ok in Hcur as [_ Hcur]. rewrite Hlx in Hcur.
  rewrite last_lookup, Hlr in Hlast.
  replace (Init.Nat.pred (Z.to_nat steps)) with (Z.to_nat steps - 1)%nat in Hlast by lia.
  destruct (Hpost (Z.to_nat steps - 1)%nat)
    as (t_prev & state & derivative & o & _ & _ & _ & _ & _ & P); [lia|].
  cbv zeta in P. destruct (last _) as [sel|] eqn:Hsel.
  - destruct P as (t & _ & _ & _ & Hrel & _). rewrite Hlast in Hrel. discriminate Hrel.
  - destruct P as (Hx & _). rewrite Hcur in Hx. injection Hx as ->.
    pose proof (proj1 (selected_none _ _) Hsel th Hth) as Hbelow.
    apply Qnot_le_lt in Hbelow.
    unfold Qminus. rewrite <- Qlt_minus_iff.
    destruct (py_max_cases (state + derivative * dt sc) 0) as [-> | ->]; assumption.
Qed.

Lemma margin_positive_after_drift_witness :
  exists (frame : Frame) (evs : list Event) (r : Margin),
    simulate_cycle negative_start None = Ok (frame, evs) /\
    (2 <= length (col_time frame))%nat /\
    last (col_release frame) = Some 0%Z /\
    compute_viability_margin frame (thresholds negative_start) = Ok r /\
    0 < top_threshold r /\
    0 < margin r.
Proof.
  do 3 eexists. split; [vm_compute; reflexivity|]. split; [vm_compute; lia|].
  split; [vm_compute; reflexivity|]. split; [vm_compute; reflexivity|].
  split; [reflexivity|].
  eapply (margin_positive_after_drift negative_start None).
  - vm_compute; reflexivity.
  - vm_compute; lia.
  - vm_compute; reflexivity.
  - vm_compute; reflexivity.
  - reflexivity.
Defined.

(** * The period hint *)

Lemma micro_is_a_double : micro = binary64 (1 # 1000000).
Proof. vm_compute. reflexivity. Qed.

Lemma py_max_micro_positive (v : Q) : 0 < py_max v micro.
Proof. eapply Qlt_le_trans; [|apply py_max_ge_r]. vm_compute. reflexivity. Qed.

Lemma py_max_mono_l (a b c : Q) : a <= b -> py_max a c <= py_max b c.
Proof.
  intros Hab. unfold py_max.
  destruct (Qltb a c) eqn:Ea; destruct (Qltb b c) eqn:Eb.
  - apply Qle_refl.
  - now apply Qltb_ge.
  - apply Qltb_ge in Ea. apply Qltb_lt in Eb.
    exfalso. apply (Qlt_not_le _ _ Eb). now apply Qle_trans with a.
  - exact Hab.
Qed.

(** X23: the period hint divides by [max(total_driver, 1e-6)], which is
    positive, so that it never raises [ZeroDivisionError], whatever the
    driver (a rate that is zero, negative or absent, with or without
    segments).  Without thresholds it raises [ValueError]; otherwise it
    returns a number [h >= 1e-6] with two consequences of the clamped
    divisor: a scenario that starts at or above its top threshold gets
    exactly [1e-6], and one that starts below it gets at most the gap to
    the top threshold divided by [1e-6] (or [1e-6] if that is less). *)
Theorem period_hint_bounds (sc : Scenario) :
  period_hint sc <> Raise ZeroDivisionError /\
  (thresholds sc = [] -> period_hint sc = Raise ValueError) /\
  forall top : Q,
    py_max_of (map theta (thresholds sc)) = Ok top ->
    exists h : Q,
      period_hint sc = Ok h /\ micro <= h /\
      (top <= initial_state sc -> h = micro) /\
      (initial_state sc <= top ->
       h <= py_max ((top - initial_state sc) / micro) micro).
Proof.
  unfold period_hint, py_div.
  pose proof (py_max_micro_positive (total_driver (driver sc))) as Hden.
  pose proof (py_max_ge_r (total_driver (driver sc)) micro) as Hfloor.
  set (den := py_max (total_driver (driver sc)) micro) in *.
  assert (Hnz : Qeq_bool den 0 = false).
  { destruct (Qeq_bool den 0) eqn:E; [|reflexivity].
    apply Qeq_bool_iff in E. rewrite E in Hden. inversion Hden. }
  assert (Hmicro : 0 < micro) by (vm_compute; reflexivity).
  split; [|split].
  - destruct (py_max_of (map theta (thresholds sc))) as [top|e] eqn:Htop.
    + cbn [mbind result_bind]. rewrite Hnz. discriminate.
    + cbn [mbind result_bind]. intros [= ->].
      destruct (thresholds sc); discriminate Htop.
  - intros ->. reflexivity.
  - intros top ->. cbn [mbind result_bind]. rewrite Hnz. cbn [mbind result_bind].
    eexists. split; [reflexivity|]. split; [apply py_max_ge_r|]. split.
    + intros Hle. unfold py_max at 1.
      assert (Hq : (top - initial_state sc) / den <= 0).
      { apply Qle_shift_div_r; [exact Hden|]. rewrite Qmult_0_l. lra. }
      assert (E : Qltb ((top - initial_state sc) / den) micro = true)
        by (apply Qltb_lt; lra).
      now rewrite E.
    + intros Hle. apply py_max_mono_l.
      apply Qle_shift_div_r; [exact Hden|].
      assert (Hgap : 0 <= top - initial_state sc) by lra.
      assert (Hq : 0 <= (top - initial_state sc) / micro).
      { apply Qle_shift_div_l; [exact Hmicro|]. now rewrite Qmult_0_l. }
      apply Qle_trans with ((top - initial_state sc) / micro * micro).
      * apply Qle_lteq. right. field. lra.
      * rewrite !(Qmult_comm ((top - initial_state sc) / micro)).
        now apply Qmult_le_compat_r.
Qed.

Lemma period_hint_bounds_witness :
  py_max_of (map theta (thresholds two_level)) = Ok 1 /\
  exists h : Q,
    period_hint two_level = Ok h /\ micro <= h /\
    (1 <= initial_state two_level -> h = micro) /\
    (initial_state two_level <= 1 ->
     h <= py_max ((1 - initial_state two_level) / micro) micro).
Proof.
  split; [reflexivity|].
  apply (proj2 (proj2 (period_hint_bounds two_level)) 1). reflexivity.
Defined.

(** * The command line: index, analysis and plot *)

Lemma scenario_index_lookup (scenarios : list Scenario) (name : string) :
  _scenario_index scenarios !! name
  = last (filter (fun sc => id sc = name) scenarios).
Proof.
  unfold _scenario_index.
  induction scenarios as [|sc scs IH] using rev_ind; [apply lookup_empty|].
  rewrite foldl_snoc, filter_app. destruct (decide (id sc = name)) as [<-|Hne].
  - rewrite lookup_insert_eq, filter_cons_True by reflexivity.
    now rewrite filter_nil, last_snoc.
  - rewrite lookup_insert_ne by exact Hne.
    rewrite filter_cons_False by exact Hne.
    now rewrite filter_nil, app_nil_r.
Qed.

Lemma last_of_unique_id (scenarios : list Scenario) (sc : Scenario) :
  NoDup (map id scenarios) -> sc ∈ scenarios ->
  last (filter (fun s => id s = id sc) scenarios) = Some sc.
Proof.
  induction scenarios as [|s scs IH]; intros Hnd Hin; [now apply elem_of_nil in Hin|].
  rewrite fmap_cons in Hnd. apply NoDup_cons in Hnd as [Hfresh Hnd].
  apply elem_of_cons in Hin as [->|Hin].
  - rewrite filter_cons_True by reflexivity.
    replace (filter (fun s0 => id s0 = id s) scs) with (@nil Scenario); [reflexivity|].
    symmetry. clear IH Hnd. induction scs as [|s' scs IH]; [reflexivity|].
    rewrite fmap_cons in Hfresh. apply not_elem_of_cons in Hfresh as [Hne Hfresh].
    rewrite filter_cons_False by congruence. now apply IH.
  - rewrite filter_cons_False; [now apply IH|].
    intros E. apply Hfresh. rewrite E. apply list_elem_of_fmap. now exists sc.
Qed.

(** X24: looking a name up in the scenario index gives the last scenario
    of the sequence that carries this id, and nothing when no scenario
    does: of two scenarios with the same id the later one replaces the
    earlier one silently. *)
Theorem scenario_index_last_wins (scenarios : list Scenario) (name : string) :
  _scenario_index scenarios !! name
  = last (filter (fun sc => id sc = name) scenarios).
Proof. apply scenario_index_lookup. Qed.

(** X25: when the ids are pairwise distinct the index loses nothing:
    every scenario of the sequence is found under its own id. *)
Theorem scenario_index_round_trip (scenarios : list Scenario) (sc : Scenario) :
  NoDup (map id scenarios) -> sc ∈ scenarios ->
  _scenario_index scenarios !! id sc = Some sc.
Proof.
  intros Hnd Hin. rewrite scenario_index_lookup. now apply last_of_unique_id.
Qed.

Lemma scenario_index_round_trip_witness :
  NoDup (map id [two_level; leaky_rest]) /\ leaky_rest ∈ [two_level; leaky_rest] /\
  _scenario_index [two_level; leaky_rest] !! id leaky_rest = Some leaky_rest.
Proof.
  assert (Hnd : NoDup (map id [two_level; leaky_rest])).
  { apply (bool_decide_unpack _). vm_compute. exact I. }
  assert (Hin : leaky_rest ∈ [two_level; leaky_rest]).
  { apply elem_of_cons. right. apply elem_of_cons. now left. }
  split; [exact Hnd|]. split; [exact Hin|].
  apply (scenario_index_round_trip [two_level; leaky_rest] leaky_rest Hnd Hin).
Defined.

(** X26: the analysis that the command line runs on the selected
    scenario.  For a scenario that the integrator accepts ([dt > 0],
    [duration >= 0], a driver with the parameters of its type) and that has
    at least one threshold, it goes through: it yields the table, one
    summary row per release flag of the table, and a margin whose
    current state is the last accumulator sample.  For a scenario without
    thresholds the run and the summary succeed and the margin raises
    [ValueError]. *)
Theorem main_analysis_outcome `{G : Generator} (sc : Scenario) :
  0 < dt sc -> 0 <= duration sc -> driver_ok (driver sc) ->
  (thresholds sc <> [] ->
   exists frame cycles m,
     main_analysis sc = Ok (frame, cycles, m) /\
     length cycles = release_count (col_release frame) /\
     last (col_accumulator frame) = Some (current_state m)) /\
  (thresholds sc = [] -> main_analysis sc = Raise ValueError).
Proof.
  intros Hdt Hdur Hok. unfold main_analysis.
  destruct (simulate_cycle_total sc None Hdt Hdur Hok) as (frame & evs & Hrun).
  rewrite Hrun. cbn [mbind result_bind].
  destruct (simulate_cycle_trace sc None frame evs Hrun)
    as (steps & _ & Hge & _ & Hlt & Hlx & _ & _ & _ & _ & _ & _ & Hcount & _).
  destruct (lookup_lt_is_Some_2 (col_time frame) 0%nat) as [t0 Ht0]; [lia|].
  assert (Hsum : exists cycles, summarize_cycles frame evs (initial_state sc) = Ok cycles
                                /\ length cycles = length evs).
  { unfold summarize_cycles. destruct evs as [|ev evs]; [now exists []|].
    rewrite (proj2 (getitem_Ok _ _ _) Ht0). cbn [mbind result_bind].
    eexists. split; [reflexivity|]. apply summarize_loop_length. }
  destruct Hsum as (cycles & -> & Hlen). cbn [mbind result_bind].
  unfold compute_viability_margin. split.
  - intros Hne. destruct (thresholds sc) as [|th ths]; [contradiction|].
    cbn [map py_max_of mbind result_bind].
    destruct (lookup_lt_is_Some_2 (col_accumulator frame)
                (length (col_accumulator frame) - 1)) as [cur Hcur]; [lia|].
    rewrite (proj2 (getitem_neg_Ok _ 1 cur)) by (split; [lia | exact Hcur]).
    cbn [mbind result_bind]. eexists _, _, _. split; [reflexivity|].
    split; [congruence|]. cbn [current_state]. rewrite last_lookup.
    now replace (Init.Nat.pred (length (col_accumulator frame)))
      with (length (col_accumulator frame) - 1)%nat by lia.
  - intros ->. reflexivity.
Qed.

Lemma main_analysis_outcome_witness :
  0 < dt two_level /\ 0 <= duration two_level /\ driver_ok (driver two_level) /\
  (thresholds two_level <> [] ->
   exists frame cycles m,
     main_analysis (G := lcg) two_level = Ok (frame, cycles, m) /\
     length cycles = release_count (col_release frame) /\
     last (col_accumulator frame) = Some (current_state m)) /\
  (thresholds two_level = [] -> main_analysis (G := lcg) two_level = Raise ValueError).
Proof.
  assert (Hdrv : driver_ok (driver two_level)).
  { right. left. split; [reflexivity | now eexists]. }
  split; [reflexivity|]. split; [discriminate|]. split; [exact Hdrv|].
  apply (main_analysis_outcome (G := lcg) two_level);
    [reflexivity | discriminate | exact Hdrv].
Defined.

Section PlotMarks.
Context `{G : Generator}.

Lemma marked_times_snoc (times : list Q) (rels : list Z) (t : Q) (r : Z) :
  length times = length rels ->
  marked_times (times ++ [t]) (rels ++ [r])
  = marked_times times rels ++ (if Z.eqb r 1 then [t] else []).
Proof.
  intros Hlen. unfold marked_times.
  rewrite zip_with_app by exact Hlen.
  rewrite List.filter_app, map_app. simpl. now destruct (Z.eqb r 1).
Qed.

Lemma step_preserves_marks (sc : Scenario) (times : list Q) (n k : nat)
    (a a' : Arrays) (g g' : rng_state) :
  length times = n -> loop_inv sc times n k a ->
  marked_times (take (S k) times) (take (S k) (releases a)) = map time (events a) ->
  step sc times (sorted_by_theta (thresholds sc)) (S k) (a, g) = Ok (a', g') ->
  marked_times (take (S (S k)) times) (take (S (S k)) (releases a'))
  = map time (events a').
Proof.
  intros Hlen (Hlx & Hlo & Hlr & Hld & _ & _ & Hzero & _) Hm Hstep.
  apply step_Ok_inv in Hstep
    as (t_prev & state & derivative & order_prev & _ & _ & _ & _ & _ & _ & Hkx & Hcase).
  rewrite Nat.sub_succ, Nat.sub_0_r in Hcase.
  destruct (lookup_lt_is_Some_2 times (S k)) as [t Ht]; [lia|].
  rewrite (take_S_r times (S k) t Ht).
  destruct (last (crossed_thresholds _ _)) as [sel|].
  - destruct Hcase as (t' & Ht' & _ & ->). cbn [releases events].
    rewrite Ht in Ht'. injection Ht' as <-.
    rewrite (take_S_r (<[S k := 1%Z]> (releases a)) (S k) 1%Z)
      by (apply list_lookup_insert_eq; lia).
    rewrite take_insert_ge by lia.
    rewrite marked_times_snoc by (rewrite !length_take; lia).
    rewrite Hm, map_app. reflexivity.
  - subst a'. cbn [releases events].
    rewrite (take_S_r (releases a) (S k) 0%Z) by (apply Hzero; lia).
    rewrite marked_times_snoc by (rewrite !length_take; lia).
    simpl. now rewrite app_nil_r.
Qed.

(** X27: the vertical lines of the plot are the recorded events: the times
    of the rows flagged as a release, read off the table in row order, are
    the times of the events in the order of the event list, one line per
    event. *)
Theorem plot_marks_are_event_times (sc : Scenario) (seed : option N)
    (frame : Frame) (evs : list Event) :
  simulate_cycle sc seed = Ok (frame, evs) ->
  release_times frame = map time evs.
Proof.
  intros Hrun.
  apply simulate_cycle_inv in Hrun
    as (steps & times & a & g & fill & _ & Hge & _ & Hlen & Hloop & _ & _ & -> & ->).
  unfold release_times. cbn [col_time col_release].
  set (n := Z.to_nat steps) in *.
  assert (Hn : (0 < n)%nat) by (unfold n; lia). clearbody n.
  pose proof (for_each_invariant
    (fun k a => (k < n)%nat /\ loop_inv sc times n k a /\
       marked_times (take (S k) times) (take (S k) (releases a)) = map time (events a))
    (step sc times (sorted_by_theta (thresholds sc))) (n - 1)) as Hind.
  destruct (Hind) with (k := 0%nat)
    (a := {| x := <[0%nat := initial_state sc]> (replicate n 0);
             order := <[0%nat := 0]> (replicate n 0);
             releases := replicate n 0%Z;
             driver_values := replicate n 0;
             events := [] |}) (g := default_rng seed) (a' := a) (g' := g)
    as (_ & (_ & _ & Hlr & _) & Hmarks).
  - intros k b gb b' gb' (Hk & Hi1 & Hi2) Hstep.
    assert (Hlt : (S k < n)%nat).
    { pose proof Hstep as Hs.
      apply step_Ok_inv in Hs as (? & ? & ? & ? & _ & _ & _ & _ & _ & _ & Hx & _).
      destruct Hi1 as (Hlx & _). lia. }
    split; [exact Hlt|]. split.
    + now apply (step_preserves sc times n k b b' gb gb').
    + now apply (step_preserves_marks sc times n k b b' gb gb').
  - split; [lia|]. split; [apply loop_inv_init; lia|].
    cbn [releases events]. destruct times as [|t0 ts]; [simpl in Hlen; lia|].
    destruct n as [|n']; [lia|]. reflexivity.
  - exact Hloop.
  - simpl in Hmarks. rewrite !take_ge in Hmarks by lia. exact Hmarks.
Qed.

End PlotMarks.

Lemma plot_marks_are_event_times_witness :
  exists frame evs,
    simulate_cycle (G := lcg) two_level (Some 3%N) = Ok (frame, evs) /\
    release_times frame = map time evs.
Proof.
  eexists. eexists. split; [vm_compute; reflexivity|].
  eapply (plot_marks_are_event_times (G := lcg) two_level (Some 3%N)).
  vm_compute; reflexivity.
Defined.

(** * Every way in which a run fails *)

Lemma driver_failure_raises (d : DriverSpec) (e : exn) (t state : Q) :
  driver_failure d e -> _driver_derivative d t state = Raise e.
Proof.
  intros [Hrej | Hty Hs | Hty Hs].
  - now apply rejected_driver_raises.
  - now apply piecewise_absent_segments.
  - now apply piecewise_empty_segments.
Qed.

Lemma driver_ok_or_failure (d : DriverSpec) :
  driver_ok d \/ exists e, driver_failure d e.
Proof.
  destruct (decide (type d = "leaky")) as [Hleaky|Hleaky].
  { destruct (rate d) as [r|] eqn:Hr.
    - destruct (leak d) as [k|] eqn:Hk.
      + left. left. rewrite Hr, Hk. repeat split; try assumption; now eexists.
      + right. exists ValueError. constructor. now apply leaky_without_leak.
    - right. exists ValueError. constructor. now apply leaky_without_rate. }
  destruct (decide (type d = "linear")) as [Hlinear|Hlinear].
  { destruct (rate d) as [r|] eqn:Hr.
    - left. right. left. rewrite Hr. split; [assumption | now eexists].
    - right. exists ValueError. constructor. now apply linear_without_rate. }
  destruct (decide (type d = "piecewise")) as [Hpw|Hpw].
  { destruct (segments d) as [[|s segs]|] eqn:Hs.
    - right. exists IndexError. now apply segments_empty.
    - left. right. right. split; [assumption | now exists s, segs].
    - right. exists AssertionError. now apply segments_absent. }
  right. exists ValueError. constructor. now apply unsupported_type.
Qed.

Lemma step_count_nonzero (sc : Scenario) :
  ~ dt sc == 0 -> step_count sc = Ok (Qceiling (duration sc / dt sc) + 1)%Z.
Proof.
  intros Hnz. unfold step_count. destruct (Qeq_bool (dt sc) 0) eqn:E; [|reflexivity].
  apply Qeq_bool_iff in E. contradiction.
Qed.

Section FailureCauses.
Context `{G : Generator}.

(** A run of one row returns whatever the driver, a longer one when the
    driver can be evaluated; the sign of [dt] does not matter. *)
Lemma simulate_cycle_returns (sc : Scenario) (seed : option N) (steps : Z) :
  step_count sc = Ok steps -> (1 <= steps)%Z ->
  steps = 1%Z \/ driver_ok (driver sc) ->
  exists frame evs, simulate_cycle sc seed = Ok (frame, evs).
Proof.
  intros Hsteps Hge Hcase. unfold simulate_cycle. rewrite Hsteps. simpl.
  destruct (linspace_total 0 (duration sc) steps) as [times Htimes]; [lia|].
  rewrite Htimes. simpl.
  pose proof (linspace_length _ _ _ _ Htimes) as [_ Hlen].
  unfold np_zeros, zeros. destruct (Z.ltb_spec steps 0); [lia|]. simpl.
  set (n := Z.to_nat steps) in *.
  rewrite !setitem_in_range by (rewrite length_replicate; lia). simpl.
  pose proof (loop_inv_init sc times n ltac:(lia)) as Hinit.
  match goal with
  | |- context [for_each ?body ?idxs ?st] =>
      assert (Hloop : exists a g, for_each body idxs st = Ok (a, g))
  end.
  { destruct Hcase as [->|Hok].
    - subst n. simpl. now eexists; eexists.
    - apply (for_each_total sc times n (n - 1) Hok Hlen 0 _ (default_rng seed)
               ltac:(lia) Hinit). }
  destruct Hloop as (a & g & Hloop).
  pose proof (for_each_preserves sc times n (n - 1) Hlen 0 _ _ _ _ ltac:(lia) Hinit Hloop)
    as (_ & _ & _ & Hld & _).
  rewrite Hloop. simpl.
  assert (Hfill : exists fill,
             (if (1 <? steps)%Z then getitem_neg (driver_values a) 2 else Ok 0) = Ok fill).
  { destruct (Z.ltb_spec 1 steps); [|now eexists].
    destruct (lookup_lt_is_Some_2 (driver_values a) (length (driver_values a) - 2))
      as [v Hv]; [lia|].
    exists v. apply getitem_neg_Ok. split; [lia | exact Hv]. }
  destruct Hfill as [fill ->]. simpl.
  unfold setitem_neg. destruct (Nat.leb_spec 1 (length (driver_values a))); [|lia].
  rewrite setitem_in_range by lia. simpl. now eexists; eexists.
Qed.

(** A run of two or more rows fails at its first step when the driver
    cannot be evaluated. *)
Lemma first_step_fails (sc : Scenario) (seed : option N) (steps : Z) (e : exn) :
  step_count sc = Ok steps -> (2 <= steps)%Z ->
  (forall t state, _driver_derivative (driver sc) t state = Raise e) ->
  simulate_cycle sc seed = Raise e.
Proof.
  intros Hsteps H2 Hbad. unfold simulate_cycle.
  rewrite Hsteps. cbn [mbind result_bind].
  destruct (linspace_total 0 (duration sc) steps) as [times Htimes]; [lia|].
  rewrite Htimes. cbn [mbind result_bind].
  pose proof (linspace_length _ _ _ _ Htimes) as [_ Hlen].
  unfold np_zeros, zeros. destruct (Z.ltb_spec steps 0); [lia|].
  cbn [mbind result_bind].
  rewrite !setitem_in_range by (rewrite length_replicate; lia).
  cbn [mbind result_bind].
  replace (Z.to_nat steps - 1)%nat with (S (Z.to_nat steps - 2)) by lia.
  change (seq 1 (S ?m)) with (1%nat :: seq 2 m).
  change (for_each ?body (?i :: ?r) ?st) with (body i st ≫= for_each body r).
  destruct (lookup_lt_is_Some_2 times 0%nat) as [t0 Ht0]; [lia|].
  rewrite (step_driver_error sc times _ 1 _ _ e t0 (initial_state sc) Hbad Ht0);
    [reflexivity|].
  apply list_lookup_insert_eq. rewrite length_replicate. lia.
Qed.

Lemma run_failure_raises (sc : Scenario) (seed : option N) (e : exn) :
  run_failure sc e -> simulate_cycle sc seed = Raise e.
Proof.
  intros [[Hz ->] | [Hnz [[Hc ->] | [[Hc ->] | [Hc Hdrv]]]]].
  - unfold simulate_cycle, step_count. apply Qeq_bool_iff in Hz. now rewrite Hz.
  - unfold simulate_cycle. rewrite (step_count_nonzero sc Hnz).
    cbn [mbind result_bind]. unfold linspace.
    destruct (Z.ltb_spec (Qceiling (duration sc / dt sc) + 1) 0); [reflexivity | lia].
  - unfold simulate_cycle. rewrite (step_count_nonzero sc Hnz).
    cbn [mbind result_bind]. rewrite Hc. reflexivity.
  - apply (first_step_fails sc seed _ e (step_count_nonzero sc Hnz)); [lia|].
    intros t state. now apply driver_failure_raises.
Qed.

Lemma raise_has_cause (sc : Scenario) (seed : option N) (e : exn) :
  simulate_cycle sc seed = Raise e -> run_failure sc e.
Proof.
  intros Hrun.
  destruct (Qeq_bool (dt sc) 0) eqn:E.
  { apply Qeq_bool_iff in E.
    assert (Hc : run_failure sc ZeroDivisionError) by (left; now split).
    rewrite (run_failure_raises sc seed _ Hc) in Hrun. now injection Hrun as <-. }
  assert (Hnz : ~ dt sc == 0).
  { intros Hz. apply Qeq_bool_iff in Hz. congruence. }
  set (c := Qceiling (duration sc / dt sc)).
  destruct (Z.lt_trichotomy c (-1)) as [Hc | [Hc | Hc]].
  - assert (Hf : run_failure sc ValueError) by (right; split; [exact Hnz | now left]).
    rewrite (run_failure_raises sc seed _ Hf) in Hrun. now injection Hrun as <-.
  - assert (Hf : run_failure sc IndexError)
      by (right; split; [exact Hnz | right; now left]).
    rewrite (run_failure_raises sc seed _ Hf) in Hrun. now injection Hrun as <-.
  - destruct (decide (c = 0%Z)) as [Hc0|Hc0].
    { destruct (simulate_cycle_returns sc seed _ (step_count_nonzero sc Hnz))
        as (frame & evs & Hok); [fold c; lia | left; fold c; lia |].
      rewrite Hok in Hrun. discriminate. }
    destruct (driver_ok_or_failure (driver sc)) as [Hok | [e' Hdrv]].
    + destruct (simulate_cycle_returns sc seed _ (step_count_nonzero sc Hnz))
        as (frame & evs & Hret); [fold c; lia | now right |].
      rewrite Hret in Hrun. discriminate.
    + assert (Hf : run_failure sc e').
      { right. split; [exact Hnz|]. right. right. split; [fold c; lia | exact Hdrv]. }
      rewrite (run_failure_raises sc seed _ Hf) in Hrun. now injection Hrun as <-.
Qed.

(** X28: every way in which a run fails.  [simulate_cycle] raises [e]
    exactly when one of these holds: [dt] is zero ([ZeroDivisionError]);
    [ceil(duration/dt)] is below [-1] ([ValueError], the negative sample
    count) or equal to [-1] ([IndexError], no row for the initial state);
    or there are at least two rows and the driver cannot be evaluated
    ([ValueError] for a missing parameter or an unknown type,
    [AssertionError] for a piecewise driver without segments, [IndexError]
    for one with an empty segment list).  Nothing else makes it fail: not
    the thresholds, the initial state, the noise level or the seed, and
    not a negative [dt] as such. *)
Theorem run_fails_iff (sc : Scenario) (seed : option N) (e : exn) :
  simulate_cycle sc seed = Raise e <-> run_failure sc e.
Proof. split; [apply raise_has_cause | apply run_failure_raises]. Qed.

End FailureCauses.

Lemma run_fails_iff_witness :
  simulate_cycle (G := lcg) (with_driver rateless (piecewise_drive None)) None
  = Raise AssertionError.
Proof.
  apply (run_fails_iff (G := lcg) (with_driver rateless (piecewise_drive None)) None
           AssertionError).
  right. split; [discriminate|]. right. right. split; [discriminate|].
  now apply segments_absent.
Defined.

(** * The scenario loader *)

Lemma bind_Loaded {A B : Type} (m : loaded A) (k : A -> loaded B) (b : B) :
  (m ≫= k) = Loaded b -> exists a, m = Loaded a /\ k a = Loaded b.
Proof. destruct m as [a|key]; simpl; [eauto | discriminate]. Qed.

Lemma subscript_Loaded {A : Type} (key : string) (value : option A) (a : A) :
  subscript key value = Loaded a <-> value = Some a.
Proof. destruct value; simpl; split; congruence. Qed.

Lemma load_thresholds_accepts (entries : list ThresholdEntry) :
  (exists ths, load_thresholds entries = Loaded ths) <-> Forall complete_threshold entries.
Proof.
  induction entries as [|th rest IH]; simpl.
  - split; [constructor | now eexists].
  - split.
    + intros [ths H].
      apply bind_Loaded in H as (v1 & H1 & H). apply subscript_Loaded in H1.
      apply bind_Loaded in H as (v2 & H2 & H). apply subscript_Loaded in H2.
      apply bind_Loaded in H as (v3 & H3 & H). apply subscript_Loaded in H3.
      apply bind_Loaded in H as (l & Hl & _).
      constructor; [|apply IH; now exists l].
      unfold complete_threshold. rewrite H1, H2, H3. repeat split; now eexists.
    + intros H. apply Forall_cons in H as [([v1 H1] & [v2 H2] & [v3 H3]) Hrest].
      apply IH in Hrest as [l Hl]. rewrite H1, H2, H3. simpl. rewrite Hl. simpl.
      now eexists.
Qed.

Lemma load_entry_accepts (entry : ScenarioEntry) :
  (exists sc, load_entry entry = Loaded sc) <-> complete_entry entry.
Proof.
  unfold load_entry, complete_entry. split.
  - intros [sc H].
    apply bind_Loaded in H as (d & Hd & H). apply subscript_Loaded in Hd.
    apply bind_Loaded in H as (ty & Hty & H). apply subscript_Loaded in Hty.
    apply bind_Loaded in H as (ths & Hths & H). apply subscript_Loaded in Hths.
    apply bind_Loaded in H as (l & Hl & H).
    apply bind_Loaded in H as (v1 & H1 & H). apply subscript_Loaded in H1.
    apply bind_Loaded in H as (v2 & H2 & H). apply subscript_Loaded in H2.
    apply bind_Loaded in H as (v3 & H3 & H). apply subscript_Loaded in H3.
    apply bind_Loaded in H as (v4 & H4 & H). apply subscript_Loaded in H4.
    apply bind_Loaded in H as (v5 & H5 & H). apply subscript_Loaded in H5.
    apply bind_Loaded in H as (v6 & H6 & _). apply subscript_Loaded in H6.
    rewrite H1, H2, H3, H4, H5, H6. split; [|split].
    + exists d. rewrite Hty. split; [assumption | now eexists].
    + exists ths. split; [assumption|]. apply load_thresholds_accepts. now exists l.
    + repeat split; now eexists.
  - intros ((d & Hd & [ty Hty]) & (ths & Hths & Hcomplete) &
            [v1 H1] & [v2 H2] & [v3 H3] & [v4 H4] & [v5 H5] & [v6 H6]).
    apply load_thresholds_accepts in Hcomplete as [l Hl].
    rewrite Hd. simpl. rewrite Hty. simpl. rewrite Hths. simpl. rewrite Hl. simpl.
    rewrite H1, H2, H3, H4, H5, H6. simpl. now eexists.
Qed.

Lemma load_entries_length (entries : list ScenarioEntry) (scs : list Scenario) :
  load_entries entries = Loaded scs -> length scs = length entries.
Proof.
  revert scs. induction entries as [|entry rest IH]; simpl; intros scs H.
  - now injection H as <-.
  - apply bind_Loaded in H as (sc & _ & H).
    apply bind_Loaded in H as (l & Hl & H). injection H as <-.
    simpl. now rewrite (IH l Hl).
Qed.

Lemma load_entries_accepts (entries : list ScenarioEntry) :
  (exists scs, load_entries entries = Loaded scs) <-> Forall complete_entry entries.
Proof.
  induction entries as [|entry rest IH]; simpl.
  - split; [constructor | now exists []].
  - split.
    + intros (scs & H).
      apply bind_Loaded in H as (sc & Hsc & H).
      apply bind_Loaded in H as (l & Hl & _).
      constructor; [apply load_entry_accepts; now exists sc|].
      apply IH. now exists l.
    + intros H. apply Forall_cons in H as [Hentry Hrest].
      apply load_entry_accepts in Hentry as [sc Hsc].
      apply IH in Hrest as (l & Hl).
      rewrite Hsc. simpl. rewrite Hl. simpl. now eexists.
Qed.

Lemma load_entry_segments (entry : ScenarioEntry) (sc : Scenario) :
  load_entry entry = Loaded sc -> is_Some (segments (driver sc)).
Proof.
  unfold load_entry. intros H.
  apply bind_Loaded in H as (d & _ & H).
  apply bind_Loaded in H as (ty & _ & H).
  apply bind_Loaded in H as (ths & _ & H).
  apply bind_Loaded in H as (l & _ & H).
  apply bind_Loaded in H as (v1 & _ & H).
  apply bind_Loaded in H as (v2 & _ & H).
  apply bind_Loaded in H as (v3 & _ & H).
  apply bind_Loaded in H as (v4 & _ & H).
  apply bind_Loaded in H as (v5 & _ & H).
  apply bind_Loaded in H as (v6 & _ & H).
  injection H as <-. simpl. now eexists.
Qed.

Lemma load_entries_segments (entries : list ScenarioEntry) (scs : list Scenario) :
  load_entries entries = Loaded scs ->
  Forall (fun sc => is_Some (segments (driver sc))) scs.
Proof.
  revert scs. induction entries as [|entry rest IH]; simpl; intros scs H.
  - injection H as <-. constructor.
  - apply bind_Loaded in H as (sc & Hsc & H).
    apply bind_Loaded in H as (l & Hl & H). injection H as <-.
    constructor; [now apply (load_entry_segments entry) | now apply IH].
Qed.

(** X29: what a scenario file must hold.  [load_scenarios] returns a list,
    of one scenario per object under [scenarios], exactly when every such
    object has a driver with a [type], a threshold list whose members have
    [theta], [reset] and [delta_s], and the keys [id], [label],
    [description], [dt], [duration] and [initial_state].  The keys [rate],
    [leak], [segments] and [noise_std] of a driver, and the key
    [scenarios] itself, may be absent; a driver type that the integrator
    does not know is loaded all the same.  In every other case a
    [KeyError] is raised and no scenario is returned. *)
Theorem load_scenarios_accepts (payload : Payload) :
  (exists scs, load_scenarios payload = Loaded scs /\
               length scs = length (default [] (scenarios_key payload)))
  <-> Forall complete_entry (default [] (scenarios_key payload)).
Proof.
  unfold load_scenarios. split.
  - intros (scs & H & _). apply load_entries_accepts. now exists scs.
  - intros H. apply load_entries_accepts in H as [scs H].
    exists scs. split; [exact H | now apply load_entries_length].
Qed.

Lemma load_scenarios_accepts_witness :
  Forall complete_entry (default [] (scenarios_key piecewise_payload)).
Proof.
  apply (load_scenarios_accepts piecewise_payload).
  exists [staircase]. split; vm_compute; reflexivity.
Defined.

(** X30: a scenario that comes from the loader never fails the [assert]
    of the piecewise evaluator: the loader stores a segment sequence for
    every driver, the empty one when the file gives none, so that
    [simulate_cycle] raises no [AssertionError] on it, whatever the rest of
    the scenario. *)
Theorem loaded_scenario_never_asserts `{G : Generator} (payload : Payload)
    (scs : list Scenario) (sc : Scenario) (seed : option N) :
  load_scenarios payload = Loaded scs -> sc ∈ scs ->
  is_Some (segments (driver sc)) /\ simulate_cycle sc seed <> Raise AssertionError.
Proof.
  intros Hload Hin.
  assert (Hsegs : is_Some (segments (driver sc))).
  { apply load_entries_segments in Hload.
    rewrite Forall_forall in Hload. now apply Hload. }
  split; [exact Hsegs|]. intros Hrun. apply raise_has_cause in Hrun.
  destruct Hrun as [[_ He] | [_ [[_ He] | [[_ He] | [_ Hdrv]]]]]; try discriminate.
  inversion Hdrv as [| Hty Hnone |]. rewrite Hnone in Hsegs. now destruct Hsegs.
Qed.

Lemma loaded_scenario_never_asserts_witness :
  load_scenarios piecewise_payload = Loaded [staircase] /\
  staircase ∈ [staircase] /\
  is_Some (segments (driver staircase)) /\
  simulate_cycle (G := lcg) staircase None <> Raise AssertionError.
Proof.
  assert (Hload : load_scenarios piecewise_payload = Loaded [staircase])
    by (vm_compute; reflexivity).
  assert (Hin : staircase ∈ [staircase]) by (apply elem_of_cons; now left).
  split; [exact Hload|]. split; [exact Hin|].
  apply (loaded_scenario_never_asserts (G := lcg) piecewise_payload [staircase]
           staircase None Hload Hin).
Defined.
